(** * link-checker: the crawl engine of [src/linkChecker.ts]

    A shallow embedding of the [LinkChecker] class.  The class is a
    single-threaded event-loop program: [run] starts the dispatch loop
    [processQueue], which starts one [checkSingleUrl] coroutine per claimed
    URL; every [await] is a suspension point.  The embedding keeps the
    instance fields as the class has them and represents each suspended
    coroutine by the point it waits at.  The network, the timers and the
    order in which suspended coroutines resume are inputs: a schedule is a
    list of [Action]s, and [exec] runs the instance along it.

    Taken as given: the entries of [ignoreLinks] are valid regular
    expressions and [timeout] is a valid delay, so that neither [RegExp] nor
    [AbortSignal.timeout] throws; subscribers may call [stop()] from any
    notification, and neither throw nor call [run]. *)

From stdpp Require Import base list strings numbers.
From Stdlib Require Import ZArith Ascii DecimalString Lia.

Open Scope Z_scope.

(** ** Data model *)

(** The items of [this.queue]. *)
Record QueueItem := mkItem {
  url : string;
  parentUrl : option string;
  isRecursive : bool
}.

(** [interface BrokenLink]; the fields [url] and [parentUrl] carry a prefix
    because [QueueItem] already owns these names. *)
Record BrokenLink := mkBroken {
  bl_url : string;
  reason : string;
  bl_parentUrl : option string
}.

(** A settled promise: fulfilled with a value, or rejected with an error,
    of which the class only ever reads [error.message]. *)
Inductive Settled (A : Type) :=
| Fulfilled (a : A)
| Rejected (message : string).
Arguments Fulfilled {A} a.
Arguments Rejected {A} message.

(** What the class reads of a fetch [Response]: [status], [redirected],
    [url], [headers.get("content-type")] and what [text()] settles to. *)
Record Response := mkResponse {
  status : Z;
  redirected : bool;
  r_url : string;
  content_type : option string;
  text : Settled string
}.

(** What the class reads of a parsed [URL] object. *)
Record URL := mkURL {
  href : string;
  protocol : string;
  origin : string;
  hostname : string
}.

(** The options of [LinkCheckerOptions] that the engine consults.  [headers],
    [domainSpecificConfig] and [timeout] only shape the request handed to
    [fetch], whose outcome is an input here. *)
Record Options := mkOptions {
  ignoreLinks : list string;
  concurrency : Z;
  retries : Z;
  retryDelay : Z
}.

Definition defaultConfig : Options :=
  {| ignoreLinks := []; concurrency := 5; retries := 3; retryDelay := 1000 |}.

(** The notifications of [events.ts], with their payloads. *)
Inductive Event :=
| EvStart (seed : string)
| EvComplete (linksVisited : list string) (broken : list BrokenLink)
| EvStopped
| EvLinkStart (u : string) (parent : option string)
| EvLinkSuccess (u : string) (statusCode : Z) (parent : option string)
| EvLinkRedirect (from to : string) (parent : option string)
| EvLinkError (u : string) (statusCode : option Z) (error : option string)
    (parent : option string)
| EvProgress (checked broken : nat)
| EvRetry (u : string) (attempt : Z) (error : string) (parent : option string).

(** The observation log: every notification with [activePromises.size] at
    the moment it is emitted, and the calls the properties below count. *)
Inductive Obs :=
| ObsEmit (e : Event) (active : nat)
| ObsVisitedAdd (u : string)
| ObsEnqueue (item : QueueItem)
| ObsFetch (pid : nat) (u : string)
| ObsDelay (pid : nat) (ms : Z).

(** Where a [checkSingleUrl] coroutine is suspended.  [i] and [lastError]
    are the locals of the retry loop of [fetchWithRetry]. *)
Inductive PC :=
| InFetch (i : Z) (lastError : option string)   (* await fetch(url, ...) *)
| InDelay (i : Z) (lastError : option string)   (* await new Promise(setTimeout) *)
| GotFetch (r : Settled Response)  (* fetchWithRetry settled, await not resumed *)
| InText (resp : Response)                      (* await response.text() *)
| Returned                    (* checkSingleUrl fulfilled, finally pending *)
| Done.                       (* finally callback ran: the promise is settled *)

Record Task := mkTask {
  t_item : QueueItem;
  t_pc : PC
}.

(** Where [run] and its [processQueue] are. *)
Inductive Main :=
| MIdle                               (* no run started on this instance *)
| MAwaitRace (ps : list nat)          (* await Promise.race(Array.from(active)) *)
| MSpin                               (* the outer while loop never yields *)
| MProcessQueueReturned               (* run's await processQueue() not resumed *)
| MReturned (linksVisited : list string).  (* run fulfilled *)

(** The instance.  [visited] and [activePromises] are JavaScript [Set]s:
    insertion-ordered, without duplicates.  Promises are named by the index
    of their task in [tasks]. *)
Record State := mkState {
  visited : list string;
  brokenLinks : list BrokenLink;
  isRunning : bool;
  queue : list QueueItem;
  activePromises : list nat;
  tasks : list Task;
  main : Main;
  log : list Obs       (* newest first *)
}.

Definition set_visited v st :=
  {| visited := v; brokenLinks := brokenLinks st; isRunning := isRunning st;
     queue := queue st; activePromises := activePromises st;
     tasks := tasks st; main := main st; log := log st |}.
Definition set_brokenLinks b st :=
  {| visited := visited st; brokenLinks := b; isRunning := isRunning st;
     queue := queue st; activePromises := activePromises st;
     tasks := tasks st; main := main st; log := log st |}.
Definition set_isRunning r st :=
  {| visited := visited st; brokenLinks := brokenLinks st; isRunning := r;
     queue := queue st; activePromises := activePromises st;
     tasks := tasks st; main := main st; log := log st |}.
Definition set_queue q st :=
  {| visited := visited st; brokenLinks := brokenLinks st;
     isRunning := isRunning st; queue := q;
     activePromises := activePromises st;
     tasks := tasks st; main := main st; log := log st |}.
Definition set_activePromises a st :=
  {| visited := visited st; brokenLinks := brokenLinks st;
     isRunning := isRunning st; queue := queue st; activePromises := a;
     tasks := tasks st; main := main st; log := log st |}.
Definition set_tasks t st :=
  {| visited := visited st; brokenLinks := brokenLinks st;
     isRunning := isRunning st; queue := queue st;
     activePromises := activePromises st;
     tasks := t; main := main st; log := log st |}.
Definition set_main m st :=
  {| visited := visited st; brokenLinks := brokenLinks st;
     isRunning := isRunning st; queue := queue st;
     activePromises := activePromises st;
     tasks := tasks st; main := m; log := log st |}.
Definition observe (o : Obs) st :=
  {| visited := visited st; brokenLinks := brokenLinks st;
     isRunning := isRunning st; queue := queue st;
     activePromises := activePromises st;
     tasks := tasks st; main := main st; log := o :: log st |}.

(** [new LinkChecker(options)] *)
Definition fresh : State :=
  {| visited := []; brokenLinks := []; isRunning := false; queue := [];
     activePromises := []; tasks := []; main := MIdle; log := [] |}.

(** ** JavaScript helpers *)

(** [Set.prototype.has] and [add] on strings. *)
Definition Set_has (u : string) (s : list string) : bool :=
  existsb (String.eqb u) s.
Definition Set_add (u : string) (s : list string) : list string :=
  if Set_has u s then s else s ++ [u].

(** [Set.prototype.add] and [delete] on promises. *)
Definition Promises_add (p : nat) (s : list nat) : list nat :=
  if existsb (Nat.eqb p) s then s else s ++ [p].
Definition Promises_delete (p : nat) (s : list nat) : list nat :=
  List.filter (fun q => negb (Nat.eqb q p)) s.

(** [String.prototype.includes] *)
Fixpoint includes (needle hay : string) : bool :=
  String.prefix needle hay ||
  match hay with
  | EmptyString => false
  | String _ hay' => includes needle hay'
  end.

(** A number inside a template literal. *)
Definition decimal (n : Z) : string := NilZero.string_of_int (Z.to_int n).

(** The message of the [TypeError] that [new URL] throws. *)
Definition invalidURL : string := "Invalid URL".

(** ** Reading the log *)

(** The URLs passed to [this.visited.add], newest first. *)
Definition adds (l : list Obs) : list string :=
  omap (fun o => match o with ObsVisitedAdd u => Some u | _ => None end) l.

(** The URLs of the [link:start] notifications, newest first. *)
Definition starts (l : list Obs) : list string :=
  omap (fun o => match o with
                 | ObsEmit (EvLinkStart u _) _ => Some u
                 | _ => None
                 end) l.

(** The items passed to [this.queue.push], newest first. *)
Definition enqs (l : list Obs) : list QueueItem :=
  omap (fun o => match o with ObsEnqueue item => Some item | _ => None end) l.

(** Whether a [complete] notification was emitted. *)
Definition completed (l : list Obs) : bool :=
  existsb (fun o => match o with
                    | ObsEmit (EvComplete _ _) _ => true
                    | _ => false
                    end) l.

(** The number of [fetch] calls and of retry delays of one promise. *)
Definition fetches (pid : nat) (l : list Obs) : nat :=
  length (List.filter (fun o => match o with
                                | ObsFetch p _ => Nat.eqb p pid
                                | _ => false
                                end) l).
Definition delays (pid : nat) (l : list Obs) : nat :=
  length (List.filter (fun o => match o with
                                | ObsDelay p _ => Nat.eqb p pid
                                | _ => false
                                end) l).


(** ** The world around the class

    What the class calls and does not define: the WHATWG [URL] parser,
    [RegExp], cheerio, and the subscribers registered with [on]. *)
Class World := {
  (** [new URL(u)]; [None] when it throws. *)
  jsURL : string -> option URL;
  (** [new URL(href, base)]; [None] when it throws. *)
  jsURLbase : string -> string -> option URL;
  (** [new RegExp(source).test(u)], the source being a valid pattern. *)
  regexp_test : string -> string -> bool;
  (** [$("a").map((_, a) => $(a).attr("href")).get()] on [cheerio.load(html)]:
      the [href] values of the anchors that have one, in document order. *)
  anchor_hrefs : string -> list string;
  (** Whether a subscriber calls [stop()] when it receives this event. *)
  calls_stop : Event -> bool
}.

(** ** The class *)

Section Engine.
Context {W : World}.
Variable opts : Options.

(** [shouldIgnore] *)
Definition shouldIgnore (u : string) : bool :=
  existsb (fun ignore => regexp_test ignore u) (ignoreLinks opts).

(** [extractLinks] *)
Definition extractLinks (html baseUrl : string) : list string :=
  omap id
    (map (fun h =>
            match jsURLbase h baseUrl with
            | Some resolved =>
                if String.prefix "http" (href resolved)
                then Some (href resolved) else None
            | None => None
            end)
         (List.filter
            (fun h => negb (String.eqb h "") && negb (String.prefix "#" h))
            (anchor_hrefs html))).

(** [stop]; its own "stopped" event finds [isRunning] already false, so a
    subscriber that calls [stop()] on it changes nothing. *)
Definition stop (st : State) : State :=
  if isRunning st then
    let st := set_isRunning false st in
    let st := set_queue [] st in
    observe (ObsEmit EvStopped (length (activePromises st))) st
  else st.

(** [this.events.emit]: the subscribers run before [emit] returns. *)
Definition emit (e : Event) (st : State) : State :=
  let st := observe (ObsEmit e (length (activePromises st))) st in
  if calls_stop e then stop st else st.

Definition queue_push (item : QueueItem) (st : State) : State :=
  observe (ObsEnqueue item) (set_queue (queue st ++ [item]) st).

Definition visited_add (u : string) (st : State) : State :=
  observe (ObsVisitedAdd u) (set_visited (Set_add u (visited st)) st).

Definition brokenLinks_push (b : BrokenLink) (st : State) : State :=
  set_brokenLinks (brokenLinks st ++ [b]) st.

(** *** fetchWithRetry *)

(** Leaving the [for] loop: [throw lastError || new Error(...)]. *)
Definition fetchWithRetry_exit (lastError : option string) : PC :=
  GotFetch (Rejected (default "Failed after multiple retries" lastError)).

(** The outer [catch] of iteration [i].  Without a delay the loop goes on
    to [i++] and its guard, false there since [retries - 1 <= i]
    ([fetchWithRetry_last_iteration]). *)
Definition fetchWithRetry_catch (pid : nat) (u : string) (i : Z)
    (message : string) (st : State) : State * PC :=
  if i <? retries opts - 1 then
    let st := emit (EvRetry u (i + 1) message None) st in
    (observe (ObsDelay pid (retryDelay opts)) st, InDelay i (Some message))
  else (st, fetchWithRetry_exit (Some message)).

(** The guard of the [for] loop at [i], and the body up to [await fetch]. *)
Definition fetchWithRetry_iter (pid : nat) (u : string) (i : Z)
    (lastError : option string) (st : State) : State * PC :=
  if i <? retries opts then
    match jsURL u with
    | Some _ => (observe (ObsFetch pid u) st, InFetch i lastError)
    | None => fetchWithRetry_catch pid u i invalidURL st
    end
  else (st, fetchWithRetry_exit lastError).

(** *** checkSingleUrl *)

(** The [progress] event, after which the coroutine returns. *)
Definition checkSingleUrl_end (st : State) : State * PC :=
  (emit (EvProgress (length (visited st)) (length (brokenLinks st))) st,
   Returned).

(** The [catch] block. *)
Definition checkSingleUrl_catch (item : QueueItem) (message : string)
    (st : State) : State * PC :=
  let st := emit (EvLinkError (url item) None (Some message) (parentUrl item)) st in
  let st := brokenLinks_push
              {| bl_url := url item; reason := "Error: " +:+ message;
                 bl_parentUrl := parentUrl item |} st in
  checkSingleUrl_end st.

(** The [for (let link of links)] loop; [Some message] when [new URL(link)]
    throws, which leaves the links before it enqueued. *)
Fixpoint enqueueLinks (u baseOrigin : string) (links : list string)
    (st : State) : State * option string :=
  match links with
  | [] => (st, None)
  | link :: rest =>
      if negb (Set_has link (visited st)) && negb (shouldIgnore link) then
        match jsURL link with
        | Some l =>
            let shouldRecurse := String.eqb (origin l) baseOrigin in
            enqueueLinks u baseOrigin rest
              (queue_push {| url := link; parentUrl := Some u;
                             isRecursive := shouldRecurse |} st)
        | None => (st, Some invalidURL)
        end
      else enqueueLinks u baseOrigin rest st
  end.

(** From the start of the coroutine to its first [await]. *)
Definition checkSingleUrl_start (pid : nat) (item : QueueItem) (st : State)
    : State * PC :=
  if negb (isRunning st) then (st, Returned)
  else
    let st := emit (EvLinkStart (url item) (parentUrl item)) st in
    fetchWithRetry_iter pid (url item) 0 None st.

(** Resuming after [await this.fetchWithRetry(url)]. *)
Definition checkSingleUrl_resume (item : QueueItem) (r : Settled Response)
    (st : State) : State * PC :=
  match r with
  | Rejected message => checkSingleUrl_catch item message st
  | Fulfilled response =>
      let statusCode := status response in
      if (200 <=? statusCode) && (statusCode <? 300) then
        let st := emit (EvLinkSuccess (url item) statusCode (parentUrl item)) st in
        if isRecursive item then
          let contentType := default ""%string (content_type response) in
          if includes "text/html" contentType then (st, InText response)
          else checkSingleUrl_end st
        else checkSingleUrl_end st
      else if redirected response then
        checkSingleUrl_end
          (emit (EvLinkRedirect (url item) (r_url response) (parentUrl item)) st)
      else
        let st := emit (EvLinkError (url item) (Some statusCode) None
                          (parentUrl item)) st in
        let st := brokenLinks_push
                    {| bl_url := url item;
                       reason := "Status code: " +:+ decimal statusCode;
                       bl_parentUrl := parentUrl item |} st in
        checkSingleUrl_end st
  end.

(** Resuming after [await response.text()]. *)
Definition checkSingleUrl_text (item : QueueItem) (r : Settled string)
    (st : State) : State * PC :=
  match r with
  | Rejected message => checkSingleUrl_catch item message st
  | Fulfilled html =>
      let links := extractLinks html (url item) in
      match jsURL (url item) with
      | None => checkSingleUrl_catch item invalidURL st
      | Some base =>
          match enqueueLinks (url item) (origin base) links st with
          | (st, Some message) => checkSingleUrl_catch item message st
          | (st, None) => checkSingleUrl_end st
          end
      end
  end.

(** *** processQueue *)

Definition nonempty {A : Type} (l : list A) : bool :=
  match l with [] => false | _ :: _ => true end.

(** The guard of the inner [while]. *)
Definition inner_guard (st : State) : bool :=
  isRunning st && nonempty (queue st) &&
  (Z.of_nat (length (activePromises st)) <? concurrency opts).

(** The guard of the outer [while]. *)
Definition outer_guard (st : State) : bool :=
  isRunning st && (nonempty (queue st) || nonempty (activePromises st)).

(** The body of the inner [while] from [this.visited.add(url)] on.  The
    coroutine runs to its first [await] before [finally] attaches the
    callback and the promise enters [activePromises]. *)
Definition dispatch (item : QueueItem) (st : State) : State :=
  let st := visited_add (url item) st in
  let pid := length (tasks st) in
  let '(st, pc) := checkSingleUrl_start pid item st in
  let st := set_tasks (tasks st ++ [{| t_item := item; t_pc := pc |}]) st in
  set_activePromises (Promises_add pid (activePromises st)) st.

(** The inner [while].  Every iteration shifts the queue and nothing in it
    enqueues, so [length (queue st)] iterations reach a false guard
    ([processQueue_inner_exits]). *)
Fixpoint processQueue_inner (fuel : nat) (st : State) : State :=
  match fuel with
  | O => st
  | S fuel =>
      if inner_guard st then
        match queue st with
        | [] => st
        | item :: rest =>
            let st := set_queue rest st in
            if Set_has (url item) (visited st) || shouldIgnore (url item)
            then processQueue_inner fuel st
            else processQueue_inner fuel (dispatch item st)
        end
      else st
  end.

(** [processQueue] from the guard of the outer [while] to the next
    [await].  When the inner loop leaves no active promise there is no
    [await]: control is back at the outer guard in the same state, and if
    that guard holds the loop repeats forever ([spin_repeats]). *)
Definition processQueue_turn (st : State) : State :=
  if outer_guard st then
    let st := processQueue_inner (length (queue st)) st in
    if nonempty (activePromises st)
    then set_main (MAwaitRace (activePromises st)) st
    else if outer_guard st then set_main MSpin st
    else set_main MProcessQueueReturned st
  else set_main MProcessQueueReturned st.

(** *** run *)

Inductive RunResult :=
| RunThrew (message : string)
| RunPending.

Definition alreadyRunning : string :=
  "Link checker is already running. Call stop() first or create a new instance.".

(** [run] up to its [await this.processQueue()]. *)
Definition run (seed : string) (st : State) : RunResult * State :=
  if isRunning st then (RunThrew alreadyRunning, st)
  else
    let st := set_visited [] st in
    let st := set_brokenLinks [] st in
    let st := set_queue [] st in
    let st := set_activePromises [] st in
    let st := set_isRunning true st in
    let st := emit (EvStart seed) st in
    let st := queue_push {| url := seed; parentUrl := None;
                            isRecursive := true |} st in
    (RunPending, processQueue_turn st).

(** [run] after its [await]. *)
Definition run_resume (st : State) : State :=
  let st := if isRunning st
            then emit (EvComplete (visited st) (brokenLinks st)) st
            else st in
  let st := set_isRunning false st in
  set_main (MReturned (visited st)) st.

(** The value [run] resolves to: [linksVisited] is a copy, [brokenLinks]
    is the instance's own array. *)
Definition result (st : State) : option (list string * list BrokenLink) :=
  match main st with
  | MReturned linksVisited => Some (linksVisited, brokenLinks st)
  | _ => None
  end.

(** ** The event loop *)

Inductive TaskAction :=
| AFetch (r : Settled Response)   (* the pending fetch settles *)
| ATimer                          (* the retry delay elapses *)
| AResume                         (* the await on fetchWithRetry resumes *)
| AText                           (* response.text() settles *)
| AFinally.                       (* the finally callback runs *)

Inductive Action :=
| OnTask (pid : nat) (a : TaskAction)
| RaceSettles                     (* processQueue resumes from the race *)
| RunResumes                      (* run resumes from processQueue *)
| CallStop.                       (* the caller invokes stop() *)

Definition task_step (pid : nat) (item : QueueItem) (pc : PC)
    (a : TaskAction) (st : State) : option (State * PC) :=
  match pc, a with
  | InFetch i lastError, AFetch (Fulfilled response) =>
      Some (st, GotFetch (Fulfilled response))
  | InFetch i lastError, AFetch (Rejected message) =>
      Some (fetchWithRetry_catch pid (url item) i message st)
  | InDelay i lastError, ATimer =>
      Some (fetchWithRetry_iter pid (url item) (i + 1) lastError st)
  | GotFetch r, AResume => Some (checkSingleUrl_resume item r st)
  | InText response, AText =>
      Some (checkSingleUrl_text item (text response) st)
  | Returned, AFinally =>
      Some (set_activePromises (Promises_delete pid (activePromises st)) st,
            Done)
  | _, _ => None
  end.

Definition is_done (st : State) (pid : nat) : bool :=
  match tasks st !! pid with
  | Some {| t_pc := Done |} => true
  | _ => false
  end.

(** One turn of the event loop; [None] when the action is not enabled.
    Nothing is enabled once [processQueue] spins. *)
Definition step (st : State) (a : Action) : option State :=
  match main st with
  | MSpin => None
  | _ =>
      match a with
      | OnTask pid ta =>
          match tasks st !! pid with
          | Some t =>
              match task_step pid (t_item t) (t_pc t) ta st with
              | Some (st, pc) =>
                  Some (set_tasks
                          (<[pid := {| t_item := t_item t; t_pc := pc |}]>
                             (tasks st)) st)
              | None => None
              end
          | None => None
          end
      | RaceSettles =>
          match main st with
          | MAwaitRace ps =>
              if existsb (is_done st) ps then Some (processQueue_turn st)
              else None
          | _ => None
          end
      | RunResumes =>
          match main st with
          | MProcessQueueReturned => Some (run_resume st)
          | _ => None
          end
      | CallStop => Some (stop st)
      end
  end.

Fixpoint exec (st : State) (schedule : list Action) : option State :=
  match schedule with
  | [] => Some st
  | a :: schedule =>
      match step st a with
      | Some st => exec st schedule
      | None => None
      end
  end.

(** An instance on which [run] may be called with no check in flight: a
    new instance, or one whose last run has ended and left no check behind.
    [tasks] and [log] describe one run, so they start empty; the other
    fields may hold what the last run left, [run] clears them. *)
Definition idle (st : State) : Prop :=
  isRunning st = false ∧ tasks st = [] ∧ log st = [].

(** The states of a run started on an idle instance. *)
Definition reachable (st : State) : Prop :=
  ∃ st0 seed schedule,
    idle st0 ∧ exec (run seed st0).2 schedule = Some st.

(** ** The specification's reading of link discovery

    Section 4.4 of the specification has the links of a page resolved
    against the response's final URL and classified by that URL's origin.
    [spec_enqueued] follows those words; the class is [checkSingleUrl_text]
    above. *)
Definition same_origin (a b : string) : bool :=
  match jsURL a, jsURL b with
  | Some x, Some y => String.eqb (origin x) (origin y)
  | _, _ => false
  end.

Definition unclaimed (st : State) (link : string) : bool :=
  negb (Set_has link (visited st)) && negb (shouldIgnore link).

Definition spec_enqueued (item : QueueItem) (response : Response)
    (html : string) (st : State) : list QueueItem :=
  map (fun link => {| url := link; parentUrl := Some (url item);
                      isRecursive := same_origin link (r_url response) |})
      (List.filter (unclaimed st) (extractLinks html (r_url response))).

(** The same with the URL the item was queued under, as the class has it. *)
Definition enqueued (item : QueueItem) (html : string) (st : State)
    : list QueueItem :=
  map (fun link => {| url := link; parentUrl := Some (url item);
                      isRecursive := same_origin link (url item) |})
      (List.filter (unclaimed st) (extractLinks html (url item))).

End Engine.

(** * Invariants and schedules

    The statements of the properties are built from the definitions of this
    section. *)

Section Invariants.
Context {W : World}.
Variable opts : Options.

(** The broken link of a response that is neither 2xx nor a redirect. *)
Definition statusBroken (item : QueueItem) (response : Response) : BrokenLink :=
  {| bl_url := url item;
     reason := "Status code: " +:+ decimal (status response);
     bl_parentUrl := parentUrl item |}.

(** What a coroutine turn may log after its [link:start]: no [visited.add],
    no [link:start], no [complete], and fetches and delays of its own
    promise only. *)
Definition calm (pid : nat) (o : Obs) : Prop :=
  match o with
  | ObsVisitedAdd _ => False
  | ObsEmit (EvLinkStart _ _) _ => False
  | ObsEmit (EvComplete _ _) _ => False
  | ObsEmit _ _ => True
  | ObsEnqueue _ => True
  | ObsFetch p _ => p = pid
  | ObsDelay p _ => p = pid
  end.

(** The effect of a coroutine turn of promise [pid] on URL [u]: it claims
    no URL, starts no check, reports broken links for [u] only, and what it
    enqueues stays in the queue unless the run is stopped. *)
Record quiet (pid : nat) (u : string) (st st' : State) : Prop := {
  q_visited : visited st' = visited st;
  q_tasks : tasks st' = tasks st;
  q_active : activePromises st' = activePromises st;
  q_main : main st' = main st;
  q_broken : ∃ bs, brokenLinks st' = brokenLinks st ++ bs ∧
                   Forall (λ b, bl_url b = u) bs;
  q_log : ∃ d, log st' = d ++ log st ∧ Forall (calm pid) d ∧
               (isRunning st' = true →
                isRunning st = true ∧ queue st' = queue st ++ rev (enqs d))
}.

(** A [link:start] is emitted below the concurrency limit. *)
Definition below_limit (o : Obs) : Prop :=
  match o with
  | ObsEmit (EvLinkStart _ _) n => Z.of_nat n < concurrency opts
  | _ => True
  end.

(** Every [link:start] comes directly after the [visited.add] of its URL. *)
Fixpoint ordered (l : list Obs) : Prop :=
  match l with
  | [] => True
  | ObsEmit (EvLinkStart u _) _ :: rest =>
      (∃ rest', rest = ObsVisitedAdd u :: rest') ∧ ordered rest
  | _ :: rest => ordered rest
  end.

(** Fetches and delays are logged under promises that exist. *)
Definition known (n : nat) (o : Obs) : Prop :=
  match o with
  | ObsFetch p _ | ObsDelay p _ => (p < n)%nat
  | _ => True
  end.

(** The part of the invariant that does not mention [main]. *)
Record Core (st : State) : Prop := {
  c_visited : visited st = rev (adds (log st));
  c_nodup : NoDup (visited st);
  c_starts : starts (log st) = adds (log st);
  c_ordered : ordered (log st);
  c_limit : Forall below_limit (log st);
  c_broken : Forall (λ b, bl_url b ∈ visited st) (brokenLinks st);
  c_tasks : Forall (λ t, url (t_item t) ∈ visited st) (tasks st);
  c_active : ∀ pid, pid ∈ activePromises st ↔
                    ∃ t, tasks st !! pid = Some t ∧ t_pc t ≠ Done;
  c_enq : isRunning st = true →
          Forall (λ item, shouldIgnore opts (url item) = false →
                          url item ∈ url <$> queue st ∨
                          url item ∈ visited st)
                 (enqs (log st))
}.

(** The part that ties [main] to the fields. *)
Definition main_ok (st : State) : Prop :=
  match main st with
  | MIdle => False
  | MAwaitRace _ => completed (log st) = false
  | MSpin => completed (log st) = false ∧ activePromises st = []
  | MProcessQueueReturned =>
      completed (log st) = false ∧
      (isRunning st = true → queue st = [] ∧ activePromises st = [])
  | MReturned linksVisited =>
      linksVisited = visited st ∧ isRunning st = false ∧
      (completed (log st) = true →
       Forall (λ t, t_pc t = Done) (tasks st) ∧
       Forall (λ item, shouldIgnore opts (url item) = false →
                       url item ∈ visited st) (enqs (log st)))
  end.

(** Every fetch and delay in the log belongs to a promise in [tasks]. *)
Definition Known (st : State) : Prop :=
  Forall (known (length (tasks st))) (log st).

(** The invariant of a run. *)
Definition Inv (st : State) : Prop := Core st ∧ Known st ∧ main_ok st.

(** What a turn of the dispatch loop does to the visited set and to the
    [complete] notification: the first only grows, the second is not sent. *)
Record grows (st st' : State) : Prop := {
  g_visited : ∃ more, visited st' = visited st ++ more;
  g_completed : completed (log st') = completed (log st)
}.

(** The state after [this.queue.push] of each item in turn. *)
Definition pushed (items : list QueueItem) (st : State) : State :=
  fold_left (λ s item, queue_push item s) items st.

(** What the log holds for a check suspended in the retry loop: at the
    [fetch] of iteration [i] it has called [fetch] [i + 1] times and
    waited [i] times; during the delay after it, [i + 1] times each.  A URL
    that [new URL] rejects never reaches [fetch]. *)
Definition counted (l : list Obs) (pid : nat) (t : Task) : Prop :=
  match t_pc t with
  | InFetch i _ =>
      is_Some (jsURL (url (t_item t))) ∧ 0 ≤ i < retries opts ∧
      Z.of_nat (fetches pid l) = i + 1 ∧ Z.of_nat (delays pid l) = i
  | InDelay i _ =>
      is_Some (jsURL (url (t_item t))) →
      0 ≤ i < retries opts - 1 ∧
      Z.of_nat (fetches pid l) = i + 1 ∧ Z.of_nat (delays pid l) = i + 1
  | _ => True
  end.

(** [counted] for every check. *)
Definition Counts (st : State) : Prop :=
  ∀ pid t, tasks st !! pid = Some t → counted (log st) pid t.

(** The schedule of one check whose [n] remaining fetches, from iteration
    [i] on, all reject: each rejection but the last is followed by the
    timer of the retry delay, the last by the resumption of
    [checkSingleUrl].  [message k] is the error of iteration [k]. *)
Fixpoint rejections (pid : nat) (message : Z → string) (i : Z) (n : nat)
    : list Action :=
  match n with
  | O => []
  | S O => [OnTask pid (AFetch (Rejected (message i))); OnTask pid AResume]
  | S n' =>
      OnTask pid (AFetch (Rejected (message i))) :: OnTask pid ATimer
      :: rejections pid message (i + 1) n'
  end.

(** The broken link of a check that ended in the [catch] block. *)
Definition errorBroken (item : QueueItem) (message : string) : BrokenLink :=
  {| bl_url := url item; reason := "Error: " +:+ message;
     bl_parentUrl := parentUrl item |}.

(** What one turn of a check leaves of the state: [main] as it was, the
    check at [pc], [bs] appended to the broken links, [df] more fetches and
    [dd] more delays under its promise. *)
Definition turned (pid : nat) (item : QueueItem) (pc : PC) (st st' : State)
    (df dd : nat) (bs : list BrokenLink) : Prop :=
  main st' = main st ∧
  tasks st' !! pid = Some {| t_item := item; t_pc := pc |} ∧
  brokenLinks st' = brokenLinks st ++ bs ∧
  fetches pid (log st') = (fetches pid (log st) + df)%nat ∧
  delays pid (log st') = (delays pid (log st) + dd)%nat.

End Invariants.

(** * Further invariants

    The definitions behind the properties of the last part: what a stopped
    run no longer does, which URLs are claimed and reported, how many checks
    are in flight, how often one check fetches, and where the crawl goes. *)

(** Whether a [stopped] notification was emitted. *)
Definition stopped (l : list Obs) : bool :=
  existsb (fun o => match o with
                    | ObsEmit EvStopped _ => true
                    | _ => false
                    end) l.

(** The number of [stopped] and of [complete] notifications. *)
Definition stops (l : list Obs) : nat :=
  length (List.filter (fun o => match o with
                                | ObsEmit EvStopped _ => true
                                | _ => false
                                end) l).
Definition completions (l : list Obs) : nat :=
  length (List.filter (fun o => match o with
                                | ObsEmit (EvComplete _ _) _ => true
                                | _ => false
                                end) l).

(** An entry that is not a [start] notification. *)
Definition unstarted (o : Obs) : Prop :=
  match o with
  | ObsEmit (EvStart _) _ => False
  | _ => True
  end.

(** The entries that only the dispatch loop and the end of [run] log: a
    [visited.add], a [link:start], a [complete]. *)
Definition live (o : Obs) : bool :=
  match o with
  | ObsVisitedAdd _ => true
  | ObsEmit (EvLinkStart _ _) _ => true
  | ObsEmit (EvComplete _ _) _ => true
  | _ => false
  end.

(** No live entry is newer than a [stopped]. *)
Fixpoint dormant (l : list Obs) : Prop :=
  match l with
  | [] => True
  | o :: rest => (live o = true → stopped rest = false) ∧ dormant rest
  end.

(** Two states whose logs hold the same number of fetches and of delays
    for every promise. *)
Definition same_counts (st st' : State) : Prop :=
  ∀ p, fetches p (log st') = fetches p (log st) ∧
       delays p (log st') = delays p (log st).

(** The number of [fetch] calls of a run on one URL, whatever the promise. *)
Definition requests (u : string) (l : list Obs) : nat :=
  length (List.filter (fun o => match o with
                                | ObsFetch _ v => String.eqb v u
                                | _ => false
                                end) l).

(** The broken link that [checkSingleUrl] records after a [link:error]
    notification: the first for a status code, the second from the [catch]
    block. *)
Definition errorOf (e : Event) : option BrokenLink :=
  match e with
  | EvLinkError u (Some statusCode) _ p =>
      Some {| bl_url := u; reason := "Status code: " +:+ decimal statusCode;
              bl_parentUrl := p |}
  | EvLinkError u None (Some message) p =>
      Some {| bl_url := u; reason := "Error: " +:+ message; bl_parentUrl := p |}
  | _ => None
  end.

(** The broken links of the [link:error] notifications, newest first. *)
Definition errors (l : list Obs) : list BrokenLink :=
  omap (fun o => match o with ObsEmit e _ => errorOf e | _ => None end) l.

(** A [progress] notification sent with [checked] visited URLs and at most
    [broken] broken links. *)
Definition paced (checked broken : nat) (o : Obs) : Prop :=
  match o with
  | ObsEmit (EvProgress c b) _ => c = checked ∧ (b ≤ broken)%nat
  | _ => True
  end.

(** A [progress] notification counts no more broken links than checked
    URLs, and neither count exceeds [v] and [n]. *)
Definition progress_ok (v n : nat) (o : Obs) : Prop :=
  match o with
  | ObsEmit (EvProgress c b) _ => (b ≤ c ∧ c ≤ v ∧ b ≤ n)%nat
  | _ => True
  end.


(** The item [run] pushes: [{ url, isRecursive: true }]. *)
Definition seedItem (seed : string) : QueueItem :=
  {| url := seed; parentUrl := None; isRecursive := true |}.

Section Further.
Context {W : World}.
Variable opts : Options.

(** What a turn of the check of [item] under promise [pid] may log: as
    [calm]; its fetches are of the item's URL, its notifications carry the
    item's URL and parent, but for [retry], which [fetchWithRetry] emits
    without parent and not for the last attempt. *)
Definition tame (pid : nat) (item : QueueItem) (o : Obs) : Prop :=
  match o with
  | ObsVisitedAdd _ => False
  | ObsEmit (EvLinkStart _ _) _ => False
  | ObsEmit (EvComplete _ _) _ => False
  | ObsEmit (EvStart _) _ => False
  | ObsEmit (EvLinkSuccess u _ p) _ => u = url item ∧ p = parentUrl item
  | ObsEmit (EvLinkRedirect from _ p) _ => from = url item ∧ p = parentUrl item
  | ObsEmit (EvLinkError u _ _ p) _ => u = url item ∧ p = parentUrl item
  | ObsEmit (EvRetry u attempt _ p) _ =>
      u = url item ∧ p = None ∧ attempt < retries opts
  | ObsEmit _ _ => True
  | ObsEnqueue _ => True
  | ObsFetch p u => p = pid ∧ u = url item
  | ObsDelay p _ => p = pid
  end.

(** The footprint of a turn of a check: it appends [bs] to the broken
    links and [d] to the log, and leaves the other fields but [isRunning]
    and [queue], which it changes by enqueuing and by stopping. *)
Record effect (st st' : State) (bs : list BrokenLink) (d : list Obs) : Prop := {
  f_visited : visited st' = visited st;
  f_tasks : tasks st' = tasks st;
  f_active : activePromises st' = activePromises st;
  f_main : main st' = main st;
  f_broken : brokenLinks st' = brokenLinks st ++ bs;
  f_log : log st' = d ++ log st;
  f_running : isRunning st' = true →
              isRunning st = true ∧ stopped d = false ∧
              queue st' = queue st ++ rev (enqs d);
  f_queue : ∀ q, q ∈ queue st' → q ∈ queue st ∨ q ∈ enqs d;
  f_stops : (stops d ≤ 1)%nat ∧ (stopped d = true → isRunning st = true)
}.

(** A turn of the check of [item] that reports [bs], each after its
    [link:error], and enqueues [new]. *)
Definition does (pid : nat) (item : QueueItem) (st st' : State)
    (bs : list BrokenLink) (new : list QueueItem) : Prop :=
  ∃ d, effect st st' bs d ∧ Forall (tame pid item) d ∧ enqs d = rev new ∧
       errors d = rev bs ∧
       Forall (paced (length (visited st)) (length (brokenLinks st'))) d.

(** [run] at its call of [processQueue]. *)
Definition entering (seed : string) (st0 : State) : State :=
  queue_push (seedItem seed)
    (emit (EvStart seed)
       (set_isRunning true
          (set_activePromises []
             (set_queue [] (set_brokenLinks [] (set_visited [] st0)))))).


(** A turn reports nothing, or it reports the item's URL with the item's
    parent and is the last of its check. *)
Definition verdict (item : QueueItem) (pc : PC) (bs : list BrokenLink) : Prop :=
  bs = [] ∨
  (pc = Returned ∧
   ∃ r, bs = [{| bl_url := url item; reason := r;
                 bl_parentUrl := parentUrl item |}]).

(** An item enqueued for one of the [links] of the page [u] whose origin is
    [baseOrigin]. *)
Definition linked (u baseOrigin : string) (links : list string)
    (q : QueueItem) : Prop :=
  parentUrl q = Some u ∧ url q ∈ links ∧ shouldIgnore opts (url q) = false ∧
  ∃ l, jsURL (url q) = Some l ∧
       isRecursive q = String.eqb (origin l) baseOrigin.

(** A logged fetch is of the URL of the check of its promise. *)
Definition fetch_ok (ts : list Task) (o : Obs) : Prop :=
  match o with
  | ObsFetch p u => ∃ t, ts !! p = Some t ∧ url (t_item t) = u
  | _ => True
  end.

(** A notification about a link names the URL and the parent of the item
    of a check; a [retry] names the URL of a check, carries no parent and
    is not sent for the last attempt. *)
Definition event_ok (ts : list Task) (o : Obs) : Prop :=
  match o with
  | ObsEmit (EvLinkStart u p) _
  | ObsEmit (EvLinkSuccess u _ p) _
  | ObsEmit (EvLinkRedirect u _ p) _
  | ObsEmit (EvLinkError u _ _ p) _ =>
      ∃ pid t, ts !! pid = Some t ∧
               url (t_item t) = u ∧ parentUrl (t_item t) = p
  | ObsEmit (EvRetry u attempt _ p) _ =>
      (∃ pid t, ts !! pid = Some t ∧ url (t_item t) = u) ∧
      p = None ∧ attempt < retries opts
  | _ => True
  end.

(** Bounds on the fetches and delays of a check wherever it is; at the
    [fetch] itself [counted] has the exact numbers. *)
Definition capped (l : list Obs) (pid : nat) (t : Task) : Prop :=
  match t_pc t with
  | InFetch _ _ => True
  | InDelay i _ =>
      0 ≤ i < retries opts - 1 ∧
      Z.of_nat (fetches pid l) ≤ i + 1 ∧ Z.of_nat (delays pid l) = i + 1
  | _ =>
      Z.of_nat (fetches pid l) ≤ Z.max 0 (retries opts) ∧
      Z.of_nat (delays pid l) ≤ Z.max 0 (retries opts - 1)
  end.

(** A broken link comes from a check that has returned, and carries the
    URL and the parent of that check's item. *)
Definition reported (ts : list Task) (b : BrokenLink) : Prop :=
  ∃ pid t, ts !! pid = Some t ∧
    url (t_item t) = bl_url b ∧ parentUrl (t_item t) = bl_parentUrl b ∧
    (t_pc t = Returned ∨ t_pc t = Done).

(** The second invariant of a run. *)
Record Wider (st : State) : Prop := {
  w_halted : isRunning st = true → stopped (log st) = false;
  w_dormant : dormant (log st);
  w_ignored : Forall (λ u, shouldIgnore opts u = false) (visited st);
  w_checks : (url ∘ t_item) <$> tasks st = visited st;
  w_fetch : Forall (fetch_ok (tasks st)) (log st);
  w_broken_nodup : NoDup (bl_url <$> brokenLinks st);
  w_broken : Forall (reported (tasks st)) (brokenLinks st);
  w_active_nodup : NoDup (activePromises st);
  w_active_size :
    Z.of_nat (length (activePromises st)) ≤ Z.max 0 (concurrency opts);
  w_capped : ∀ pid t, tasks st !! pid = Some t → capped (log st) pid t;
  w_errors : brokenLinks st = rev (errors (log st));
  w_progress :
    Forall (progress_ok (length (visited st)) (length (brokenLinks st)))
           (log st);
  w_events : Forall (event_ok (tasks st)) (log st);
  w_stops : (stops (log st) ≤ 1)%nat;
  w_completions : (completions (log st) ≤ 1)%nat;
  w_complete : ∀ v b n, ObsEmit (EvComplete v b) n ∈ log st →
               main st = MReturned v ∧ v = visited st ∧
               b = brokenLinks st ∧ queue st = [] ∧
               activePromises st = [] ∧ n = 0%nat
}.

(** [processQueue] awaits a race of promises that exist, never an empty
    one, and spins only when no check may start. *)
Definition race_ok (st : State) : Prop :=
  match main st with
  | MAwaitRace ps => ps ≠ [] ∧ Forall (λ p, (p < length (tasks st))%nat) ps
  | MSpin => concurrency opts ≤ 0
  | _ => True
  end.

(** An item that is crawled into is the seed or has the seed's origin. *)
Definition onsite (seed : string) (q : QueueItem) : Prop :=
  isRecursive q = true →
  url q = seed ∨ same_origin (url q) seed = true.

(** An item is the seed's, or it was found on a visited page: its URL
    starts with the letters "http", is accepted by [new URL] and is not
    ignored. *)
Definition sourced (seed : string) (vs : list string) (q : QueueItem) : Prop :=
  q = seedItem seed ∨
  ∃ p, parentUrl q = Some p ∧ p ∈ vs ∧
       String.prefix "http" (url q) = true ∧ is_Some (jsURL (url q)) ∧
       shouldIgnore opts (url q) = false.

(** The invariant of a run from [seed]. *)
Record Confined (seed : string) (st : State) : Prop := {
  k_onsite : Forall (onsite seed) (enqs (log st));
  k_sourced : Forall (sourced seed (visited st)) (enqs (log st));
  k_queue : Forall (λ q, q ∈ enqs (log st)) (queue st);
  k_tasks : Forall (λ t, t_item t ∈ enqs (log st)) (tasks st);
  k_text : Forall (λ t, ∀ resp, t_pc t = InText resp →
                        isRecursive (t_item t) = true) (tasks st)
}.

(** A step that logs no [start] notification. *)
Definition extends (st st' : State) : Prop :=
  ∃ d, log st' = d ++ log st ∧ Forall unstarted d.

(** The log of a run from [seed] begins with its [start] notification,
    the only one. *)
Definition Started (seed : string) (st : State) : Prop :=
  ∃ l, log st = l ++ [ObsEmit (EvStart seed) 0] ∧ Forall unstarted l.

(** The states of a run from [seed] on an idle instance. *)
Definition crawl (seed : string) (st : State) : Prop :=
  ∃ st0 schedule, idle st0 ∧ exec opts (run opts seed st0).2 schedule = Some st.

(** [n] fetches of one check that reject, each followed by the timer of
    its retry delay, from iteration [i] on. *)
Fixpoint failures (pid : nat) (message : Z → string) (i : Z) (n : nat)
    : list Action :=
  match n with
  | O => []
  | S n' =>
      OnTask pid (AFetch (Rejected (message i))) :: OnTask pid ATimer
      :: failures pid message (i + 1) n'
  end.

(** What a check that is not settled can do next; [r] is what a pending
    fetch settles to. *)
Definition next (pc : PC) (r : Settled Response) : option TaskAction :=
  match pc with
  | InFetch _ _ => Some (AFetch r)
  | InDelay _ _ => Some ATimer
  | GotFetch _ => Some AResume
  | InText _ => Some AText
  | Returned => Some AFinally
  | Done => None
  end.

End Further.

(** ** The headers of a request

    Lines 237 to 243 of [fetchWithRetry].  A JavaScript object with string
    keys is the list of its own properties; only [Obj_get] reads it, the
    order of the list stands for nothing. *)

Definition Obj (A : Type) : Type := list (string * A).

(** [o[k]] on own properties. *)
Fixpoint Obj_get {A : Type} (k : string) (o : Obj A) : option A :=
  match o with
  | [] => None
  | (k', v) :: o' => if String.eqb k k' then Some v else Obj_get k o'
  end.

(** [o[k] = v] *)
Fixpoint Obj_set {A : Type} (k : string) (v : A) (o : Obj A) : Obj A :=
  match o with
  | [] => [(k, v)]
  | (k', v') :: o' =>
      if String.eqb k k' then (k', v) :: o' else (k', v') :: Obj_set k v o'
  end.

(** [Object.assign(o, b)] *)
Definition Obj_assign {A : Type} (o b : Obj A) : Obj A :=
  fold_left (λ o kv, Obj_set kv.1 kv.2 o) b o.

(** [{ ...a, ...b }]: a new object that is assigned the properties of [a],
    then those of [b]. *)
Definition spread {A : Type} (a b : Obj A) : Obj A :=
  Obj_assign (Obj_assign [] a) b.

(** [interface DomainSpecifcConfig] *)
Record DomainSpecifcConfig := mkDomain {
  d_headers : option (Obj string)
}.

(** The [headers] handed to [fetch] for [u]; [None] when [new URL(u)]
    throws.  A hostname without an entry reads as [{}]; so do the names
    that [domainSpecificConfig] inherits from [Object.prototype], whose
    values have no [headers]. *)
Definition requestHeaders {W : World} (headers : Obj string)
    (domainSpecificConfig : Obj DomainSpecifcConfig) (u : string)
    : option (Obj string) :=
  match jsURL u with
  | Some parsed =>
      let domain := hostname parsed in
      let domainConfig :=
        default {| d_headers := None |} (Obj_get domain domainSpecificConfig) in
      Some (spread headers (default [] (d_headers domainConfig)))
  | None => None
  end.

(** ** A world for the examples

    A parser for URLs written [scheme://host/path] in lower case, without
    port, credentials or dot segments, and for root-relative references
    against them; an anchor scanner for attributes written [href='...'];
    patterns without metacharacters.  On such inputs they return what the
    WHATWG parser, cheerio and [RegExp] return. *)
Module Demo.

Fixpoint split_at (c : ascii) (s : string) : option (string * string) :=
  match s with
  | EmptyString => None
  | String a s' =>
      if Ascii.eqb a c then Some (EmptyString, s')
      else match split_at c s' with
           | Some (p, q) => Some (String a p, q)
           | None => None
           end
  end.

Fixpoint lower (s : string) : bool :=
  match s with
  | EmptyString => true
  | String a s' =>
      (97 <=? nat_of_ascii a)%nat && (nat_of_ascii a <=? 122)%nat && lower s'
  end.

Definition special (scheme : string) : bool :=
  String.eqb scheme "http" || String.eqb scheme "https".

Definition parse (u : string) : option URL :=
  match split_at ":" u with
  | Some (scheme, rest) =>
      if negb (String.eqb scheme "") && lower scheme then
        if String.prefix "//" rest then
          let after := String.substring 2 (String.length rest) rest in
          let '(host, path) :=
            match split_at "/" after with
            | Some (h, p) => (h, "/" +:+ p)
            | None => (after, if special scheme then "/" else "")%string
            end in
          if String.eqb host "" then None
          else Some {| href := scheme +:+ "://" +:+ host +:+ path;
                       protocol := scheme +:+ ":";
                       origin := if special scheme
                                 then scheme +:+ "://" +:+ host
                                 else "null";
                       hostname := host |}
        else if special scheme then None
        else Some {| href := u; protocol := scheme +:+ ":";
                     origin := "null"; hostname := "" |}
      else None
  | None => None
  end.

Definition resolve (h base : string) : option URL :=
  match parse h with
  | Some u => Some u
  | None =>
      match parse base with
      | Some b =>
          if String.prefix "/" h && negb (String.prefix "//" h)
             && special (String.substring 0 (String.length (protocol b) - 1)
                           (protocol b))
          then parse (origin b +:+ h)
          else None
      | None => None
      end
  end.

Fixpoint hrefs (fuel : nat) (html : string) : list string :=
  match fuel with
  | O => []
  | S fuel =>
      match String.index 0 "href='" html with
      | Some n =>
          let rest := String.substring (n + 6) (String.length html) html in
          match String.index 0 "'" rest with
          | Some m =>
              String.substring 0 m rest
              :: hrefs fuel (String.substring (m + 1) (String.length rest) rest)
          | None => []
          end
      | None => []
      end
  end.

(** Subscribers that never call [stop()]. *)
Definition world : World :=
  {| jsURL := parse;
     jsURLbase := resolve;
     regexp_test := includes;
     anchor_hrefs := fun html => hrefs (String.length html) html;
     calls_stop := fun _ => false |}.

(** A subscriber of [link:error] that calls [stop()]. *)
Definition stopping : World :=
  {| jsURL := parse;
     jsURLbase := resolve;
     regexp_test := includes;
     anchor_hrefs := fun html => hrefs (String.length html) html;
     calls_stop := fun e => match e with EvLinkError _ _ _ _ => true | _ => false end |}.

(** [concurrency: 2, retries: 2], the rest as in [defaultConfig]. *)
Definition opts : Options :=
  {| ignoreLinks := []; concurrency := 2; retries := 2; retryDelay := 1000 |}.

(** The same with [retries: 0]. *)
Definition opts0 : Options :=
  {| ignoreLinks := []; concurrency := 2; retries := 0; retryDelay := 1000 |}.

Definition seed : string := "http://a.test/".
Definition seedItem : QueueItem :=
  {| url := seed; parentUrl := None; isRecursive := true |}.

(** A page that links the same URL twice. *)
Definition twice : string :=
  "<a href='http://a.test/p'>one</a><a href='http://a.test/p'>two</a>".

Definition page (html : string) : Response :=
  {| status := 200; redirected := false; r_url := seed;
     content_type := Some "text/html; charset=utf-8"%string;
     text := Fulfilled html |}.

Definition notFound (u : string) : Response :=
  {| status := 404; redirected := false; r_url := u;
     content_type := None; text := Fulfilled ""%string |}.

(** The seed answers with [twice]; its link answers 404. *)
Definition crawl : list Action :=
  [OnTask 0 (AFetch (Fulfilled (page twice))); OnTask 0 AResume;
   OnTask 0 AText; OnTask 0 AFinally; RaceSettles;
   OnTask 1 (AFetch (Fulfilled (notFound "http://a.test/p")));
   OnTask 1 AResume; OnTask 1 AFinally; RaceSettles; RunResumes].

(** The instance after the seed's page was read, and at the end. *)
Definition afterText : State :=
  Eval vm_compute in
    default fresh (exec (W:=world) opts (run (W:=world) opts seed fresh).2
                     (take 3 crawl)).
Definition finished : State :=
  Eval vm_compute in
    default fresh (exec (W:=world) opts (run (W:=world) opts seed fresh).2 crawl).

(** The seed was redirected by its server to another origin, which answers
    with a root-relative link and a link to itself. *)
Definition moved : Response :=
  {| status := 200; redirected := true; r_url := "http://b.test/dir/";
     content_type := Some "text/html"%string;
     text := Fulfilled "<a href='/x'>x</a><a href='http://b.test/y'>y</a>"%string |}.

Definition movedText : string :=
  "<a href='/x'>x</a><a href='http://b.test/y'>y</a>".

Definition afterMoved : State :=
  Eval vm_compute in
    default fresh (exec (W:=world) opts (run (W:=world) opts seed fresh).2
                     [OnTask 0 (AFetch (Fulfilled moved)); OnTask 0 AResume]).

(** A page with two links, both answering 404; with [stopping] the first
    404 stops the run, which returns while the second check is in flight. *)
Definition pair : string := "<a href='/p'>p</a><a href='/q'>q</a>".

Definition stoppedCrawl : list Action :=
  [OnTask 0 (AFetch (Fulfilled (page pair))); OnTask 0 AResume;
   OnTask 0 AText; OnTask 0 AFinally; RaceSettles;
   OnTask 1 (AFetch (Fulfilled (notFound "http://a.test/p")));
   OnTask 1 AResume; OnTask 1 AFinally; RaceSettles; RunResumes].

Definition lateCheck : list Action :=
  [OnTask 2 (AFetch (Fulfilled (notFound "http://a.test/q")));
   OnTask 2 AResume; OnTask 2 AFinally].

(** The errors of the successive attempts of a fetch that never succeeds. *)
Definition failure (i : Z) : string :=
  if i =? 0 then "connect ECONNREFUSED" else "socket hang up".

(** [ignoreLinks: ["/p"]], the rest as in [opts]. *)
Definition ignoring : Options :=
  {| ignoreLinks := ["/p"%string]; concurrency := 2; retries := 2;
     retryDelay := 1000 |}.

(** [concurrency: 0], the rest as in [opts]. *)
Definition idling : Options :=
  {| ignoreLinks := []; concurrency := 0; retries := 2; retryDelay := 1000 |}.

(** The run of [stoppedCrawl] with the subscriber that stops on the first
    [link:error]. *)
Definition halted : State :=
  Eval vm_compute in
    default fresh (exec (W:=stopping) opts (run (W:=stopping) opts seed fresh).2
                     stoppedCrawl).

(** The seed answers with [twice], whose link is ignored. *)
Definition skipping : list Action :=
  [OnTask 0 (AFetch (Fulfilled (page twice))); OnTask 0 AResume;
   OnTask 0 AText; OnTask 0 AFinally; RaceSettles; RunResumes].

Definition skipped : State :=
  Eval vm_compute in
    default fresh (exec (W:=world) ignoring (run (W:=world) ignoring seed fresh).2
                     skipping).

(** A link to another site, and its answer. *)
Definition external : QueueItem :=
  {| url := "http://b.test/doc"; parentUrl := Some seed; isRecursive := false |}.

Definition found : Response :=
  {| status := 200; redirected := false; r_url := "http://b.test/doc";
     content_type := Some "text/html"%string; text := Fulfilled ""%string |}.

(** Global headers, and headers for the host of the seed. *)
Definition globalHeaders : Obj string :=
  [("accept", "*/*"); ("user-agent", "link-checker")]%string.

Definition perDomain : Obj DomainSpecifcConfig :=
  [("a.test"%string,
    {| d_headers := Some [("user-agent", "internal"); ("x-token", "t")]%string |})].

(** The first fetch of the seed failed and its retry delay has elapsed. *)
Definition retried : State :=
  Eval vm_compute in
    default fresh (exec (W:=world) opts (run (W:=world) opts seed fresh).2
                     (failures 0 failure 0 1)).











End Demo.

(** * Properties *)

Section Properties.
Context {W : World}.
Variable opts : Options.

(** ** What the primitives touch *)

Lemma stop_fields st :
  visited (stop st) = visited st ∧ brokenLinks (stop st) = brokenLinks st ∧
  tasks (stop st) = tasks st ∧ activePromises (stop st) = activePromises st ∧
  main (stop st) = main st ∧ isRunning (stop st) = false.
Proof. unfold stop. destruct (isRunning st) eqn:E; simpl; auto 10. Qed.

Lemma stop_log st :
  log (stop st) =
  (if isRunning st then [ObsEmit EvStopped (length (activePromises st))]
   else []) ++ log st.
Proof. unfold stop. destruct (isRunning st); reflexivity. Qed.

Lemma emit_fields e st :
  visited (emit e st) = visited st ∧ brokenLinks (emit e st) = brokenLinks st ∧
  tasks (emit e st) = tasks st ∧
  activePromises (emit e st) = activePromises st ∧ main (emit e st) = main st.
Proof.
  unfold emit. destruct (calls_stop e); [|simpl; auto].
  destruct (stop_fields (observe (ObsEmit e (length (activePromises st))) st))
    as (-> & -> & -> & -> & -> & _). simpl; auto.
Qed.

Lemma emit_log e st :
  log (emit e st) =
  (if calls_stop e && isRunning st
   then [ObsEmit EvStopped (length (activePromises st))] else [])
  ++ ObsEmit e (length (activePromises st)) :: log st.
Proof.
  unfold emit. destruct (calls_stop e); [|reflexivity].
  rewrite stop_log. reflexivity.
Qed.

(** A subscriber can only stop the run: [isRunning] never turns true, and
    the queue is untouched unless the run is stopped. *)
Lemma emit_running e st :
  isRunning (emit e st) = true →
  isRunning st = true ∧ queue (emit e st) = queue st.
Proof.
  unfold emit. destruct (calls_stop e); simpl; [|auto].
  intros H.
  destruct (stop_fields (observe (ObsEmit e (length (activePromises st))) st))
    as (_ & _ & _ & _ & _ & Hr). congruence.
Qed.

Lemma fetches_app pid l1 l2 :
  fetches pid (l1 ++ l2) = (fetches pid l1 + fetches pid l2)%nat.
Proof. unfold fetches. rewrite List.filter_app, length_app. reflexivity. Qed.

Lemma delays_app pid l1 l2 :
  delays pid (l1 ++ l2) = (delays pid l1 + delays pid l2)%nat.
Proof. unfold delays. rewrite List.filter_app, length_app. reflexivity. Qed.

Lemma emit_fetches pid e st :
  fetches pid (log (emit e st)) = fetches pid (log st) ∧
  delays pid (log (emit e st)) = delays pid (log st).
Proof.
  rewrite emit_log, fetches_app, delays_app.
  destruct (calls_stop e && isRunning st); auto.
Qed.

(** ** The retry loop after its last iteration

    [fetchWithRetry_catch] leaves the loop directly when it does not wait;
    the guard of the next iteration, which the class evaluates there, is
    false and leads to the same exit. *)
Lemma fetchWithRetry_last_iteration pid u i message st :
  retries opts - 1 ≤ i →
  fetchWithRetry_catch opts pid u i message st =
  fetchWithRetry_iter opts pid u (i + 1) (Some message) st.
Proof.
  intros Hi. unfold fetchWithRetry_catch, fetchWithRetry_iter.
  replace (i <? retries opts - 1) with false by (symmetry; apply Z.ltb_ge; lia).
  by replace (i + 1 <? retries opts) with false
    by (symmetry; apply Z.ltb_ge; lia).
Qed.

(** ** C8: [run] is not reentrant *)

(** C8.  Calling [run] on an instance whose [isRunning] is true throws the
    "already running" error and leaves the instance as it was: the visited
    set, the broken-link list, the queue, the active promises and
    [isRunning] are those of the state before the call. *)
Theorem run_while_running_throws seed st :
  isRunning st = true →
  ∃ st', run opts seed st = (RunThrew alreadyRunning, st') ∧
    visited st' = visited st ∧ brokenLinks st' = brokenLinks st ∧
    queue st' = queue st ∧ activePromises st' = activePromises st ∧
    isRunning st' = isRunning st ∧ st' = st.
Proof.
  intros H. exists st. unfold run. rewrite H. auto 10.
Qed.

(** ** C7: responses outside [200,300) *)

Lemma emit_log_self e st :
  ObsEmit e (length (activePromises st)) ∈ log (emit e st).
Proof. rewrite emit_log. apply elem_of_app. right. left. Qed.

Lemma emit_log_mono e st o : o ∈ log st → o ∈ log (emit e st).
Proof. intros H. rewrite emit_log. apply elem_of_app. right. by right. Qed.

Lemma checkSingleUrl_end_spec st :
  ∃ st', checkSingleUrl_end st = (st', Returned) ∧
    brokenLinks st' = brokenLinks st ∧ visited st' = visited st ∧
    (∀ pid, fetches pid (log st') = fetches pid (log st) ∧
            delays pid (log st') = delays pid (log st)) ∧
    (∀ o, o ∈ log st → o ∈ log st').
Proof.
  unfold checkSingleUrl_end. eexists; split; [reflexivity|].
  destruct (emit_fields (EvProgress (length (visited st))
                                     (length (brokenLinks st))) st)
    as (-> & -> & _).
  repeat split; try apply emit_fetches. intros o. apply emit_log_mono.
Qed.

(** C7.  A fetch that settles with a response settles [fetchWithRetry] with
    it whatever its status, without another attempt or delay.  When the
    status is outside [200,300) the coroutine then returns without calling
    [fetch] again: with the [redirected] flag set it emits [link:redirect]
    and appends no broken link, otherwise it appends the broken link whose
    reason is "Status code: " followed by the status. *)
Theorem non2xx_response pid item i lastError response st :
  ¬ (200 ≤ status response < 300) →
  task_step opts pid item (InFetch i lastError) (AFetch (Fulfilled response)) st
    = Some (st, GotFetch (Fulfilled response)) ∧
  ∃ st', checkSingleUrl_resume item (Fulfilled response) st = (st', Returned) ∧
    (∀ p, fetches p (log st') = fetches p (log st) ∧
          delays p (log st') = delays p (log st)) ∧
    if redirected response then
      brokenLinks st' = brokenLinks st ∧
      ObsEmit (EvLinkRedirect (url item) (r_url response) (parentUrl item))
              (length (activePromises st)) ∈ log st'
    else
      brokenLinks st' = brokenLinks st ++ [statusBroken item response].
Proof.
  intros Hs. split; [reflexivity|].
  unfold checkSingleUrl_resume.
  replace ((200 <=? status response) && (status response <? 300))
    with false by (symmetry; apply andb_false_iff; lia).
  destruct (redirected response).
  - set (e := EvLinkRedirect _ _ _).
    destruct (checkSingleUrl_end_spec (emit e st))
      as (st' & -> & Hb & _ & Hf & Hm).
    exists st'. split; [reflexivity|].
    destruct (emit_fields e st) as (_ & Hb' & _).
    split; [|split; [congruence|]].
    + intros p. destruct (Hf p) as [-> ->]. apply emit_fetches.
    + apply Hm, emit_log_self.
  - set (e := EvLinkError _ _ _ _).
    destruct (checkSingleUrl_end_spec
                (brokenLinks_push (statusBroken item response) (emit e st)))
      as (st' & Heq & Hb & _ & Hf & _).
    exists st'. split; [exact Heq|].
    destruct (emit_fields e st) as (_ & Hb' & _).
    split.
    + intros p. destruct (Hf p) as [-> ->]. apply (emit_fetches p e st).
    + rewrite Hb. simpl. by rewrite Hb'.
Qed.

(** ** The effect of a coroutine turn

    Everything a [checkSingleUrl] coroutine does after its [link:start]
    stays within [quiet pid u]: it claims no URL, starts no check, reports
    broken links for its own URL [u] only, logs fetches and delays under its
    own promise [pid] only, and what it enqueues stays in the queue unless
    the run is stopped. *)

Lemma quiet_refl pid u st : quiet pid u st st.
Proof.
  split; auto.
  - exists []. by rewrite app_nil_r.
  - exists []. simpl. split; [done|]. split; [constructor|].
    by rewrite app_nil_r.
Qed.

Lemma quiet_trans pid u st1 st2 st3 :
  quiet pid u st1 st2 → quiet pid u st2 st3 → quiet pid u st1 st3.
Proof.
  intros [Hv1 Ht1 Ha1 Hm1 (bs1 & Hb1 & Hf1) (d1 & Hl1 & Hc1 & Hq1)]
         [Hv2 Ht2 Ha2 Hm2 (bs2 & Hb2 & Hf2) (d2 & Hl2 & Hc2 & Hq2)].
  split; try congruence.
  - exists (bs1 ++ bs2). rewrite Hb2, Hb1, app_assoc. split; [done|].
    by apply Forall_app.
  - exists (d2 ++ d1). rewrite Hl2, Hl1, app_assoc. split; [done|].
    split; [by apply Forall_app|].
    intros H3. destruct (Hq2 H3) as [H2 Hq]. destruct (Hq1 H2) as [H1 Hq'].
    split; [done|].
    unfold enqs in *. rewrite omap_app, rev_app_distr, Hq, Hq', app_assoc.
    done.
Qed.

Lemma quiet_emit pid u e st :
  calm pid (ObsEmit e 0) → quiet pid u st (emit e st).
Proof.
  intros He. destruct (emit_fields e st) as (Hv & Hb & Ht & Ha & Hm).
  split; auto.
  - exists []. by rewrite app_nil_r.
  - exists ((if calls_stop e && isRunning st
             then [ObsEmit EvStopped (length (activePromises st))] else [])
            ++ [ObsEmit e (length (activePromises st))]).
    split; [by rewrite emit_log, <- app_assoc|]. split.
    + apply Forall_app. split.
      * destruct (_ && _); repeat constructor.
      * repeat constructor. by destruct e.
    + intros H. destruct (emit_running e st H) as [H1 ->].
      split; [done|]. unfold enqs. rewrite omap_app.
      destruct (_ && _); simpl; by rewrite app_nil_r.
Qed.

Lemma quiet_observe pid u o st :
  calm pid o → (∀ item, o ≠ ObsEnqueue item) → quiet pid u st (observe o st).
Proof.
  intros Ho Hne. split; auto.
  - exists []. by rewrite app_nil_r.
  - exists [o]. split; [done|]. split; [by repeat constructor|].
    simpl. intros ->. split; [done|].
    destruct o; simpl; try by rewrite app_nil_r. by destruct (Hne item).
Qed.

Lemma quiet_queue_push pid u item st : quiet pid u st (queue_push item st).
Proof.
  split; auto.
  - exists []. by rewrite app_nil_r.
  - exists [ObsEnqueue item]. split; [done|]. split; [by repeat constructor|].
    simpl. auto.
Qed.

Lemma quiet_brokenLinks_push pid b st :
  quiet pid (bl_url b) st (brokenLinks_push b st).
Proof.
  split; auto.
  - exists [b]. split; [done|]. by repeat constructor.
  - exists []. simpl. split; [done|]. split; [constructor|].
    by rewrite app_nil_r.
Qed.

(** Peel the outermost update off the state on the right. *)
Ltac quiet_last tac := eapply quiet_trans; [|tac].

Lemma quiet_fetchWithRetry_catch pid u i message st :
  quiet pid u st (fetchWithRetry_catch opts pid u i message st).1.
Proof.
  unfold fetchWithRetry_catch. destruct (i <? retries opts - 1); simpl.
  - quiet_last ltac:(by apply quiet_observe). by apply quiet_emit.
  - apply quiet_refl.
Qed.

Lemma quiet_fetchWithRetry_iter pid u i lastError st :
  quiet pid u st (fetchWithRetry_iter opts pid u i lastError st).1.
Proof.
  unfold fetchWithRetry_iter. destruct (i <? retries opts); simpl.
  - destruct (jsURL u); simpl.
    + by apply quiet_observe.
    + apply quiet_fetchWithRetry_catch.
  - apply quiet_refl.
Qed.

Lemma quiet_checkSingleUrl_end pid u st :
  quiet pid u st (checkSingleUrl_end st).1.
Proof. by apply quiet_emit. Qed.

Lemma quiet_checkSingleUrl_catch pid item message st :
  quiet pid (url item) st (checkSingleUrl_catch item message st).1.
Proof.
  unfold checkSingleUrl_catch.
  quiet_last ltac:(apply quiet_checkSingleUrl_end).
  quiet_last ltac:(apply (quiet_brokenLinks_push pid (mkBroken _ _ _))).
  by apply quiet_emit.
Qed.

Lemma quiet_enqueueLinks pid u v baseOrigin links st :
  quiet pid v st (enqueueLinks opts u baseOrigin links st).1.
Proof.
  revert st. induction links as [|link rest IH]; intros st; simpl.
  - apply quiet_refl.
  - destruct (negb (Set_has link (visited st))) eqn:Hv; simpl; [|apply IH].
    destruct (negb (shouldIgnore opts link)) eqn:Hi; simpl; [|apply IH].
    destruct (jsURL link); simpl; [|apply quiet_refl].
    eapply quiet_trans; [|apply IH].
    apply quiet_queue_push.
Qed.

Lemma quiet_checkSingleUrl_resume pid item r st :
  quiet pid (url item) st (checkSingleUrl_resume item r st).1.
Proof.
  unfold checkSingleUrl_resume. destruct r as [response|message].
  - destruct (_ && _).
    + destruct (isRecursive item); [destruct (includes _ _); simpl|].
      * by apply quiet_emit.
      * quiet_last ltac:(apply quiet_checkSingleUrl_end). by apply quiet_emit.
      * quiet_last ltac:(apply quiet_checkSingleUrl_end). by apply quiet_emit.
    + destruct (redirected response).
      * quiet_last ltac:(apply quiet_checkSingleUrl_end). by apply quiet_emit.
      * quiet_last ltac:(apply quiet_checkSingleUrl_end).
        quiet_last ltac:(apply (quiet_brokenLinks_push pid (mkBroken _ _ _))).
        by apply quiet_emit.
  - apply quiet_checkSingleUrl_catch.
Qed.

Lemma quiet_checkSingleUrl_text pid item r st :
  quiet pid (url item) st (checkSingleUrl_text opts item r st).1.
Proof.
  unfold checkSingleUrl_text. destruct r as [html|message].
  - destruct (jsURL (url item)) as [base|];
      [|apply quiet_checkSingleUrl_catch].
    pose proof (quiet_enqueueLinks pid (url item) (url item) (origin base)
                  (extractLinks html (url item)) st) as Hq.
    destruct (enqueueLinks _ _ _ _ _) as [st1 [message|]]; simpl in *.
    + eapply quiet_trans; [exact Hq|]. apply quiet_checkSingleUrl_catch.
    + eapply quiet_trans; [exact Hq|]. apply quiet_checkSingleUrl_end.
  - apply quiet_checkSingleUrl_catch.
Qed.

(** ** The invariant of a run *)

(** *** Calm log segments *)

Lemma calm_adds pid d : Forall (calm pid) d → adds d = [].
Proof.
  induction 1 as [|o d Ho _ IH]; [done|].
  destruct o; simpl in *; try done.
Qed.

Lemma calm_starts pid d : Forall (calm pid) d → starts d = [].
Proof.
  induction 1 as [|o d Ho _ IH]; [done|].
  destruct o as [[]| | | |]; simpl in *; try done.
Qed.

Lemma calm_completed pid d : Forall (calm pid) d → completed d = false.
Proof.
  induction 1 as [|o d Ho _ IH]; [done|].
  destruct o as [[]| | | |]; simpl in *; try done.
Qed.

Lemma calm_ordered pid d l : Forall (calm pid) d → ordered l → ordered (d ++ l).
Proof.
  induction 1 as [|o d Ho _ IH]; [done|]. intros Hl.
  destruct o as [[]| | | |]; simpl in *; try done; auto.
Qed.

Lemma calm_below_limit pid d : Forall (calm pid) d → Forall (below_limit opts) d.
Proof.
  apply Forall_impl. intros [[]| | | |]; simpl; done.
Qed.

Lemma calm_known pid n d : (pid < n)%nat → Forall (calm pid) d → Forall (known n) d.
Proof.
  intros Hp. apply Forall_impl. intros [[]| | | |]; simpl; try done; lia.
Qed.

Lemma completed_app l1 l2 : completed (l1 ++ l2) = completed l1 || completed l2.
Proof. apply existsb_app. Qed.

Lemma ordered_split l1 u p n l2 :
  ordered (l1 ++ ObsEmit (EvLinkStart u p) n :: l2) →
  ∃ l2', l2 = ObsVisitedAdd u :: l2'.
Proof.
  induction l1 as [|o l1 IH]; simpl.
  - by intros [H _].
  - destruct o as [[]| | | |]; try done. intros [_ H]. by apply IH.
Qed.

(** *** The invariant along a coroutine turn *)

Lemma Core_quiet pid u st st' :
  Core opts st → quiet pid u st st' →
  brokenLinks st' = brokenLinks st ∨ u ∈ visited st → Core opts st'.
Proof.
  intros [Hv Hn Hs Ho Hl Hb Ht Ha He]
         [Qv Qt Qa Qm (bs & Qb & Qbs) (d & Ql & Qc & Qq)] Hu.
  split.
  - rewrite Qv, Ql. unfold adds. rewrite omap_app.
    fold (adds d). by rewrite (calm_adds pid d).
  - by rewrite Qv.
  - rewrite Ql. unfold starts, adds. rewrite !omap_app.
    fold (adds d) (starts d).
    by rewrite (calm_adds pid d), (calm_starts pid d).
  - rewrite Ql. by apply (calm_ordered pid).
  - rewrite Ql. apply Forall_app. split; [by apply (calm_below_limit pid)|done].
  - rewrite Qv. destruct Hu as [->|Hu]; [done|].
    rewrite Qb. apply Forall_app. split; [done|].
    eapply Forall_impl; [|exact Qbs]. by intros b ->.
  - by rewrite Qv, Qt.
  - intros p. by rewrite Qa, Qt.
  - intros Hr. destruct (Qq Hr) as [Hr' Hq]. specialize (He Hr').
    rewrite Ql, Hq, Qv. unfold enqs. rewrite omap_app. fold (enqs d).
    apply Forall_app. split.
    + apply list.Forall_forall. intros item Hi _. left.
      rewrite fmap_app. apply elem_of_app. right.
      apply list_elem_of_fmap. exists item. split; [done|].
      apply list_elem_of_In. apply -> in_rev. by apply list_elem_of_In.
    + eapply Forall_impl; [|exact He]. intros item Hi Hig.
      destruct (Hi Hig) as [H|H]; [left|by right].
      rewrite fmap_app. apply elem_of_app. by left.
Qed.

Lemma Core_set_pc pid t pc st :
  Core opts st → tasks st !! pid = Some t → t_pc t ≠ Done → pc ≠ Done →
  Core opts (set_tasks (<[pid := {| t_item := t_item t; t_pc := pc |}]> (tasks st)) st).
Proof.
  intros [Hv Hn Hs Ho Hl Hb Ht Ha He] Hp Hpc Hpc'.
  split; simpl; try done.
  - apply Forall_insert; [done|]. simpl.
    eapply Forall_lookup_1 in Ht; [|exact Hp]. done.
  - intros p. rewrite Ha. destruct (decide (pid = p)) as [<-|Hne].
    + rewrite list_lookup_insert_eq by (by eapply lookup_lt_Some).
      split; intros _; eauto.
    + by rewrite list_lookup_insert_ne.
Qed.

Lemma elem_of_Promises_delete p q s :
  p ∈ Promises_delete q s ↔ p ∈ s ∧ p ≠ q.
Proof.
  unfold Promises_delete. rewrite list_elem_of_In, filter_In, <- list_elem_of_In.
  rewrite negb_true_iff, Nat.eqb_neq. done.
Qed.

Lemma Core_finally pid t st :
  Core opts st → tasks st !! pid = Some t →
  Core opts (set_tasks (<[pid := {| t_item := t_item t; t_pc := Done |}]> (tasks st))
          (set_activePromises (Promises_delete pid (activePromises st)) st)).
Proof.
  intros [Hv Hn Hs Ho Hl Hb Ht Ha He] Hp.
  split; simpl; try done.
  - apply Forall_insert; [done|]. simpl.
    eapply Forall_lookup_1 in Ht; [|exact Hp]. done.
  - intros p. rewrite elem_of_Promises_delete, Ha.
    destruct (decide (pid = p)) as [<-|Hne].
    + rewrite list_lookup_insert_eq by (by eapply lookup_lt_Some).
      split; [by intros [_ ?]|]. by intros (t' & [= <-] & ?).
    + rewrite list_lookup_insert_ne by done.
      split; [by intros [? _]|]. intros H. split; [done|]. congruence.
Qed.

Lemma Known_quiet pid u n st st' :
  quiet pid u st st' → (pid < n)%nat →
  Forall (known n) (log st) → Forall (known n) (log st').
Proof.
  intros [_ _ _ _ _ (d & -> & Qc & _)] Hp Hk.
  apply Forall_app. split; [by apply (calm_known pid)|done].
Qed.

(** *** The invariant along the dispatch loop *)

Lemma Set_has_spec u s : Set_has u s = true ↔ u ∈ s.
Proof.
  unfold Set_has. rewrite existsb_exists. split.
  - intros (x & Hx & He). apply String.eqb_eq in He. subst.
    by apply list_elem_of_In.
  - intros H. exists u. split; [by apply list_elem_of_In|apply String.eqb_refl].
Qed.

Lemma Set_has_false u s : Set_has u s = false ↔ u ∉ s.
Proof.
  rewrite <- Set_has_spec. destruct (Set_has u s); split; congruence.
Qed.

Lemma Promises_add_new p s : p ∉ s → Promises_add p s = s ++ [p].
Proof.
  intros Hp. unfold Promises_add.
  destruct (existsb (Nat.eqb p) s) eqn:E; [|done].
  apply existsb_exists in E as (x & Hx & He). apply Nat.eqb_eq in He. subst.
  by apply list_elem_of_In in Hx.
Qed.

Lemma fetchWithRetry_catch_pc pid u i message st :
  (fetchWithRetry_catch opts pid u i message st).2 ≠ Done.
Proof. unfold fetchWithRetry_catch. by destruct (_ <? _). Qed.

Lemma fetchWithRetry_iter_pc pid u i lastError st :
  (fetchWithRetry_iter opts pid u i lastError st).2 ≠ Done.
Proof.
  unfold fetchWithRetry_iter. destruct (_ <? _); [|done].
  destruct (jsURL u); [done|]. apply fetchWithRetry_catch_pc.
Qed.

Lemma checkSingleUrl_start_running pid item st :
  isRunning st = true →
  checkSingleUrl_start opts pid item st =
  fetchWithRetry_iter opts pid (url item) 0 None
    (emit (EvLinkStart (url item) (parentUrl item)) st).
Proof. unfold checkSingleUrl_start. by intros ->. Qed.

(** Claiming the head of the queue and announcing its check. *)
Lemma Core_claim item rest st :
  Core opts st → queue st = item :: rest → isRunning st = true →
  Set_has (url item) (visited st) = false →
  Z.of_nat (length (activePromises st)) < concurrency opts →
  Core opts (emit (EvLinkStart (url item) (parentUrl item))
          (visited_add (url item) (set_queue rest st))).
Proof.
  intros [Hv Hn Hs Ho Hl Hb Ht Ha He] Hq Hr Hu Hc.
  set (st1 := visited_add (url item) (set_queue rest st)).
  set (e := EvLinkStart (url item) (parentUrl item)).
  destruct (emit_fields e st1) as (Ev & Eb & Et & Ea & Em).
  pose proof (emit_log e st1) as El.
  assert (Hv1 : visited st1 = visited st ++ [url item]).
  { simpl. unfold Set_add. by rewrite Hu. }
  apply Set_has_false in Hu.
  assert (Hsub : ∀ x, x ∈ visited st → x ∈ visited st1).
  { intros x Hx. rewrite Hv1. apply elem_of_app. by left. }
  set (s := if calls_stop e && isRunning st1
            then [ObsEmit EvStopped (length (activePromises st1))] else []) in El.
  assert (Hs' : Forall (calm 0) s) by (subst s; destruct (_ && _); repeat constructor).
  split.
  - rewrite Ev, El, Hv1. unfold adds. rewrite omap_app. fold (adds s).
    rewrite (calm_adds 0 s) by done. simpl. f_equal. exact Hv.
  - rewrite Ev, Hv1. apply list.NoDup_app. split; [done|]. split.
    + intros x Hx Hx'. apply list_elem_of_singleton in Hx'. by subst.
    + apply NoDup_singleton.
  - rewrite El. unfold starts, adds. rewrite !omap_app. fold (adds s) (starts s).
    rewrite (calm_adds 0 s), (calm_starts 0 s) by done. simpl.
    f_equal. exact Hs.
  - rewrite El. apply (calm_ordered 0); [done|]. simpl. eauto.
  - rewrite El. apply Forall_app. split; [by apply (calm_below_limit 0)|].
    constructor; [exact Hc|]. by constructor.
  - rewrite Eb, Ev. eapply Forall_impl; [|exact Hb]. intros b. apply Hsub.
  - rewrite Et, Ev. eapply Forall_impl; [|exact Ht]. intros t. apply Hsub.
  - intros p. rewrite Ea, Et. apply Ha.
  - intros Hr'. destruct (emit_running e st1 Hr') as [_ Hq'].
    rewrite Hq', El, Ev. unfold enqs. rewrite omap_app. fold (enqs s).
    apply Forall_app. split.
    + subst s. destruct (_ && _); simpl; repeat constructor.
    + simpl. eapply Forall_impl; [|exact (He Hr)].
      intros x Hx Hig. rewrite Hq in Hx. destruct (Hx Hig) as [H|H].
      * rewrite fmap_cons in H. apply elem_of_cons in H as [H|H].
        -- right. change (url x ∈ visited st1).
           rewrite Hv1, H. apply elem_of_app. right. left.
        -- by left.
      * right. by apply Hsub.
Qed.

Lemma Core_add_task item pc st :
  Core opts st → url item ∈ visited st → pc ≠ Done →
  Core opts (set_activePromises
          (Promises_add (length (tasks st)) (activePromises st))
          (set_tasks (tasks st ++ [{| t_item := item; t_pc := pc |}]) st)).
Proof.
  intros [Hv Hn Hs Ho Hl Hb Ht Ha He] Hu Hpc.
  assert (Hnew : length (tasks st) ∉ activePromises st).
  { intros H. apply Ha in H as (t & Hlk & _).
    apply lookup_lt_Some in Hlk. lia. }
  split; simpl; try done.
  - apply Forall_app. split; [done|]. by repeat constructor.
  - intros p. rewrite Promises_add_new by done.
    rewrite elem_of_app, list_elem_of_singleton, Ha. split.
    + intros [(t & Hlk & Hd) | ->].
      * exists t. split; [|done]. by apply lookup_app_l_Some.
      * eexists. split; [by apply list_lookup_middle|done].
    + intros (t & Hlk & Hd). apply lookup_snoc_Some in Hlk as [[_ H]|[H _]].
      * left. eauto.
      * by right.
Qed.

Lemma inner_guard_true st :
  inner_guard opts st = true →
  isRunning st = true ∧ queue st ≠ [] ∧
  Z.of_nat (length (activePromises st)) < concurrency opts.
Proof.
  unfold inner_guard. rewrite !andb_true_iff, Z.ltb_lt.
  intros [[? Hq] ?]. repeat split; try done. by destruct (queue st).
Qed.

Lemma Core_dispatch item rest st :
  Core opts st → queue st = item :: rest → inner_guard opts st = true →
  Set_has (url item) (visited st) = false →
  Core opts (dispatch opts item (set_queue rest st)).
Proof.
  intros Hc Hq Hg Hu. apply inner_guard_true in Hg as (Hr & _ & Hlim).
  pose proof (Core_claim item rest st Hc Hq Hr Hu Hlim) as Hc2.
  unfold dispatch.
  set (st1 := visited_add (url item) (set_queue rest st)) in *.
  rewrite checkSingleUrl_start_running by done.
  set (st2 := emit _ st1) in *.
  pose proof (quiet_fetchWithRetry_iter (length (tasks st1)) (url item) 0 None st2) as Hq3.
  pose proof (fetchWithRetry_iter_pc (length (tasks st1)) (url item) 0 None st2) as Hpc.
  destruct (fetchWithRetry_iter _ _ _ _ _ _) as [st3 pc]. simpl in Hq3, Hpc.
  assert (Hin : url item ∈ visited st2).
  { destruct (emit_fields (EvLinkStart (url item) (parentUrl item)) st1)
      as (Ev & _). unfold st2. rewrite Ev. simpl. unfold Set_add.
    rewrite Hu. apply elem_of_app. right. left. }
  assert (Hc3 : Core opts st3) by (eapply Core_quiet; eauto).
  replace (length (tasks st1)) with (length (tasks st3)).
  - assert (Hin' : url item ∈ visited st3)
      by (by rewrite (q_visited _ _ _ _ Hq3)).
    exact (Core_add_task item pc st3 Hc3 Hin' Hpc).
  - rewrite (q_tasks _ _ _ _ Hq3).
    destruct (emit_fields (EvLinkStart (url item) (parentUrl item)) st1)
      as (_ & _ & Et & _). unfold st2. by rewrite Et.
Qed.

Lemma Core_skip item rest st :
  Core opts st → queue st = item :: rest →
  Set_has (url item) (visited st) || shouldIgnore opts (url item) = true →
  Core opts (set_queue rest st).
Proof.
  intros [Hv Hn Hs Ho Hl Hb Ht Ha He] Hq Hu.
  split; simpl; try done.
  intros Hr. eapply Forall_impl; [|exact (He Hr)].
  intros x Hx Hig. rewrite Hq in Hx. destruct (Hx Hig) as [H|H]; [|by right].
  rewrite fmap_cons in H. apply elem_of_cons in H as [H|H]; [|by left].
  right. apply orb_true_iff in Hu as [Hu|Hu].
  - apply Set_has_spec in Hu. by rewrite H.
  - rewrite H in Hig. congruence.
Qed.

Lemma known_mono n m o : (n ≤ m)%nat → known n o → known m o.
Proof. intros Hnm. destruct o; simpl; try done; lia. Qed.

Lemma Known_dispatch item st :
  Known st → isRunning st = true → Known (dispatch opts item st).
Proof.
  unfold Known. intros Hk Hr. unfold dispatch.
  set (st1 := visited_add (url item) st).
  rewrite checkSingleUrl_start_running by done.
  set (e := EvLinkStart (url item) (parentUrl item)).
  pose proof (quiet_fetchWithRetry_iter (length (tasks st1)) (url item) 0 None
                (emit e st1)) as Hq3.
  destruct (fetchWithRetry_iter _ _ _ _ _ _) as [st3 pc]. simpl in *.
  rewrite length_app. simpl.
  destruct (emit_fields e st1) as (_ & _ & Et & _).
  rewrite (q_tasks _ _ _ _ Hq3), Et. simpl.
  eapply (Known_quiet _ _ _ _ _ Hq3); [simpl; lia|].
  rewrite emit_log. apply Forall_app. split.
  - destruct (_ && _); repeat constructor.
  - constructor; [done|]. simpl. constructor; [done|].
    eapply Forall_impl; [|exact Hk]. intros o. apply known_mono. lia.
Qed.

Lemma grows_refl st : grows st st.
Proof. split; [|done]. exists []. by rewrite app_nil_r. Qed.

Lemma grows_trans st1 st2 st3 : grows st1 st2 → grows st2 st3 → grows st1 st3.
Proof.
  intros [(m1 & H1) C1] [(m2 & H2) C2]. split; [|congruence].
  exists (m1 ++ m2). by rewrite H2, H1, app_assoc.
Qed.

Lemma grows_quiet pid u st st' : quiet pid u st st' → grows st st'.
Proof.
  intros [Qv _ _ _ _ (d & Ql & Qc & _)]. split.
  - exists []. by rewrite app_nil_r.
  - by rewrite Ql, completed_app, (calm_completed pid).
Qed.

Lemma grows_dispatch item st : grows st (dispatch opts item st).
Proof.
  unfold dispatch. set (st1 := visited_add (url item) st).
  assert (H1 : grows st st1).
  { split; [|done]. simpl. unfold Set_add.
    destruct (Set_has _ _); [exists []; by rewrite app_nil_r|eauto]. }
  assert (H2 : ∀ pid, grows st1 (checkSingleUrl_start opts pid item st1).1).
  { intros pid. unfold checkSingleUrl_start.
    destruct (isRunning st1); simpl; [|apply grows_refl].
    set (e := EvLinkStart _ _).
    eapply grows_trans;
      [|eapply grows_quiet, (quiet_fetchWithRetry_iter pid (url item))].
    destruct (emit_fields e st1) as (Ev & _). split.
    - exists []. by rewrite app_nil_r.
    - rewrite emit_log, completed_app. simpl.
      by destruct (_ && _). }
  specialize (H2 (length (tasks st1))).
  destruct (checkSingleUrl_start _ _ _ _) as [st3 pc]. simpl in *.
  eapply grows_trans; [exact H1|]. eapply grows_trans; [exact H2|].
  split; [|done]. exists []. by rewrite app_nil_r.
Qed.

Lemma inner_Core fuel st :
  Core opts st → Known st →
  Core opts (processQueue_inner opts fuel st) ∧
  Known (processQueue_inner opts fuel st) ∧
  grows st (processQueue_inner opts fuel st).
Proof.
  revert st. induction fuel as [|fuel IH]; intros st Hc Hk; simpl.
  { split; [done|]. split; [done|apply grows_refl]. }
  destruct (inner_guard opts st) eqn:Hg;
    [|split; [done|]; split; [done|apply grows_refl]].
  destruct (queue st) as [|item rest] eqn:Hq;
    [split; [done|]; split; [done|apply grows_refl]|].
  simpl.
  destruct (Set_has (url item) (visited st) || shouldIgnore opts (url item))
    eqn:Hu.
  - destruct (IH (set_queue rest st)) as (? & ? & ?);
      [by eapply Core_skip|done|].
    split; [done|]. split; [done|].
    eapply grows_trans; [|done]. split; [|done]. exists []. by rewrite app_nil_r.
  - apply orb_false_iff in Hu as [Hu _].
    destruct (IH (dispatch opts item (set_queue rest st))) as (? & ? & ?).
    + by apply Core_dispatch.
    + apply Known_dispatch; [done|]. simpl.
      by apply inner_guard_true in Hg as (? & _).
    + split; [done|]. split; [done|].
      eapply grows_trans; [|done].
      eapply grows_trans; [|apply grows_dispatch].
      split; [|done]. exists []. by rewrite app_nil_r.
Qed.

(** *** The dispatch loop ends *)

Lemma emit_queue_length e st :
  (length (queue (emit e st)) ≤ length (queue st))%nat.
Proof.
  unfold emit, stop. destruct (calls_stop e); simpl; [|lia].
  destruct (isRunning st); simpl; lia.
Qed.

Lemma dispatch_queue_length item st :
  (length (queue (dispatch opts item st)) ≤ length (queue st))%nat.
Proof.
  unfold dispatch, checkSingleUrl_start. simpl.
  destruct (isRunning st); simpl; [|lia].
  unfold fetchWithRetry_iter, fetchWithRetry_catch.
  set (st1 := visited_add (url item) st).
  pose proof (emit_queue_length (EvLinkStart (url item) (parentUrl item)) st1) as H1.
  destruct (0 <? retries opts); simpl; [|exact H1].
  destruct (jsURL (url item)); simpl; [exact H1|].
  destruct (0 <? retries opts - 1); simpl; [|exact H1].
  etransitivity; [apply emit_queue_length|exact H1].
Qed.

(** The fuel handed to the inner loop is enough: it stops on a false guard. *)
Lemma processQueue_inner_exits fuel st :
  (length (queue st) ≤ fuel)%nat →
  inner_guard opts (processQueue_inner opts fuel st) = false.
Proof.
  revert st. induction fuel as [|fuel IH]; intros st Hl; simpl.
  - unfold inner_guard. destruct (queue st); simpl in *; [|lia].
    by rewrite andb_false_r.
  - destruct (inner_guard opts st) eqn:Hg; [|done].
    destruct (queue st) as [|item rest] eqn:Hq;
      [by apply inner_guard_true in Hg as (_ & ? & _)|]. simpl in *.
    destruct (_ || _); apply IH; simpl; [lia|].
    etransitivity; [apply dispatch_queue_length|]. simpl. lia.
Qed.

(** Once the inner guard is false the inner loop changes nothing, so an
    outer iteration that finds no active promise returns to the outer guard
    in the state it started from. *)
Lemma spin_repeats fuel st :
  inner_guard opts st = false → processQueue_inner opts fuel st = st.
Proof. intros Hg. destruct fuel; simpl; [done|]. by rewrite Hg. Qed.

(** *** The invariant along [processQueue], [stop] and [run] *)

Lemma Core_set_main m st : Core opts st → Core opts (set_main m st).
Proof. intros []. by split. Qed.

Lemma nonempty_false {A} (l : list A) : nonempty l = false → l = [].
Proof. by destruct l. Qed.

Lemma outer_guard_false st :
  outer_guard st = false →
  isRunning st = true → queue st = [] ∧ activePromises st = [].
Proof.
  unfold outer_guard. intros H Hr. rewrite Hr in H. simpl in H.
  apply orb_false_iff in H as [? ?]. split; by apply nonempty_false.
Qed.

Lemma turn_Inv st :
  Core opts st → Known st → completed (log st) = false →
  Inv opts (processQueue_turn opts st) ∧ grows st (processQueue_turn opts st).
Proof.
  intros Hc Hk Hd. unfold processQueue_turn.
  destruct (outer_guard st) eqn:Hg.
  - destruct (inner_Core (length (queue st)) st Hc Hk) as (Hc1 & Hk1 & Hg1).
    set (st1 := processQueue_inner opts _ st) in *.
    assert (Hd1 : completed (log st1) = false)
      by (by rewrite (g_completed _ _ Hg1)).
    destruct (nonempty (activePromises st1)) eqn:Ha;
      [|destruct (outer_guard st1) eqn:Hg'];
      (split; [split; [by apply Core_set_main|split; [done|]]
              |split; [exact (g_visited _ _ Hg1)|exact (g_completed _ _ Hg1)]]).
    + done.
    + split; [done|]. by apply nonempty_false.
    + split; [done|]. by apply outer_guard_false.
  - split; [|split; [exists []; by rewrite app_nil_r|done]].
    split; [by apply Core_set_main|]. split; [done|].
    split; [done|]. by apply outer_guard_false.
Qed.

Lemma quiet_stop pid u st : quiet pid u st (stop st).
Proof.
  destruct (stop_fields st) as (Hv & Hb & Ht & Ha & Hm & Hr).
  split; auto.
  - exists []. by rewrite app_nil_r.
  - eexists. split; [apply stop_log|]. split.
    + destruct (isRunning st); repeat constructor.
    + congruence.
Qed.

Lemma Core_complete v b n st :
  Core opts st → Core opts (observe (ObsEmit (EvComplete v b) n) st).
Proof. intros []. split; try done. simpl. by constructor. Qed.

Lemma Core_emit_complete v b st : Core opts st → Core opts (emit (EvComplete v b) st).
Proof.
  intros Hc. unfold emit. destruct (calls_stop _).
  - eapply (Core_quiet 0 ""%string); [|apply quiet_stop|left; apply stop_fields].
    by apply Core_complete.
  - by apply Core_complete.
Qed.

Lemma Core_not_running st : Core opts st → Core opts (set_isRunning false st).
Proof. intros []. by split. Qed.

Lemma all_done st :
  Core opts st → activePromises st = [] → Forall (λ t, t_pc t = Done) (tasks st).
Proof.
  intros Hc Ha. apply Forall_lookup. intros i t Hi.
  destruct (t_pc t) eqn:Hpc; try done;
    (assert (i ∈ activePromises st) as H
       by (apply (c_active _ _ Hc); exists t; split; [done|congruence]));
    rewrite Ha in H; by apply elem_of_nil in H.
Qed.

Lemma run_resume_Inv st :
  Inv opts st → main st = MProcessQueueReturned → Inv opts (run_resume st).
Proof.
  intros (Hc & Hk & Hm) Hmain. unfold main_ok in Hm. rewrite Hmain in Hm.
  destruct Hm as [Hd Hq]. unfold run_resume.
  destruct (isRunning st) eqn:Hr.
  - set (e := EvComplete (visited st) (brokenLinks st)).
    destruct (emit_fields e st) as (Ev & Eb & Et & Ea & Em).
    destruct (Hq eq_refl) as [Hq1 Ha1].
    split; [by apply Core_set_main, Core_not_running, Core_emit_complete|].
    split.
    + unfold Known. simpl. rewrite Et, emit_log.
      apply Forall_app. split; [destruct (_ && _); repeat constructor|].
      by constructor.
    + unfold main_ok. simpl. split; [done|]. split; [done|]. intros _.
      rewrite Et, Ev. split; [by apply all_done|].
      rewrite emit_log. unfold enqs. rewrite omap_app.
      apply Forall_app. split; [destruct (_ && _); repeat constructor|].
      simpl. eapply Forall_impl; [|exact (c_enq _ _ Hc Hr)].
      intros item Hi Hig. destruct (Hi Hig) as [H|H]; [|done].
      rewrite Hq1 in H. by apply elem_of_nil in H.
  - split; [by apply Core_set_main, Core_not_running|]. split; [done|].
    unfold main_ok. simpl. split; [done|]. split; [done|]. congruence.
Qed.

Lemma stop_Inv st : Inv opts st → Inv opts (stop st).
Proof.
  intros (Hc & Hk & Hm).
  pose proof (quiet_stop 0 ""%string st) as Hq.
  destruct (stop_fields st) as (Hv & Hb & Ht & Ha & Hmn & Hr).
  split; [eapply Core_quiet; eauto|]. split.
  - unfold Known. rewrite Ht, stop_log. apply Forall_app. split; [|done].
    destruct (isRunning st); repeat constructor.
  - assert (Hd : completed (log (stop st)) = completed (log st)).
    { rewrite stop_log, completed_app. by destruct (isRunning st). }
    assert (He : enqs (log (stop st)) = enqs (log st)).
    { rewrite stop_log. unfold enqs. rewrite omap_app.
      by destruct (isRunning st). }
    unfold main_ok in *. rewrite Hmn. destruct (main st); try done.
    + by rewrite Hd.
    + by rewrite Hd, Ha.
    + rewrite Hd. split; [apply Hm|]. congruence.
    + rewrite Hd, Hv, Ht, He. split; [apply Hm|]. split; [done|apply Hm].
Qed.

(** *** The invariant along the event loop *)

Lemma task_step_effect pid item pc a st st' pc' :
  task_step opts pid item pc a st = Some (st', pc') →
  pc ≠ Done ∧
  ((pc' ≠ Done ∧ quiet pid (url item) st st') ∨
   (pc' = Done ∧
    st' = set_activePromises (Promises_delete pid (activePromises st)) st)).
Proof.
  destruct pc, a as [[response|message]| | | |]; simpl; try done;
    intros H;
    apply (f_equal (λ o, match o with Some x => x | None => (st', pc') end)) in H;
    (assert (st' = (st', pc').1) as H1 by done);
    (assert (pc' = (st', pc').2) as H2 by done);
    rewrite <- H in H1, H2; simpl in H1, H2; subst st' pc'; clear H;
    (split; [done|]); try (by right); left.
  - split; [done|apply quiet_refl].
  - split; [apply fetchWithRetry_catch_pc|apply quiet_fetchWithRetry_catch].
  - split; [apply fetchWithRetry_iter_pc|apply quiet_fetchWithRetry_iter].
  - split; [|apply quiet_checkSingleUrl_resume].
    unfold checkSingleUrl_resume, checkSingleUrl_catch, checkSingleUrl_end.
    destruct r; [|done]. destruct (_ && _); [|by destruct (redirected a)].
    destruct (isRecursive item); [|done]. by destruct (includes _ _).
  - split; [|apply quiet_checkSingleUrl_text].
    unfold checkSingleUrl_text, checkSingleUrl_catch, checkSingleUrl_end.
    destruct (text resp); [|done]. destruct (jsURL (url item)); [|done].
    by destruct (enqueueLinks _ _ _ _ _) as [? []].
Qed.

Lemma on_task_Inv pid ta t st st1 pc :
  Inv opts st → main st ≠ MSpin → tasks st !! pid = Some t →
  task_step opts pid (t_item t) (t_pc t) ta st = Some (st1, pc) →
  Inv opts (set_tasks (<[pid := {| t_item := t_item t; t_pc := pc |}]> (tasks st1)) st1).
Proof.
  intros (Hc & Hk & Hm) Hspin Hlk Hstep.
  apply task_step_effect in Hstep as (Hpc & [(Hpc' & Hq)|(-> & ->)]).
  - assert (Hu : url (t_item t) ∈ visited st).
    { eapply (Forall_lookup_1 _ _ _ _ (c_tasks _ _ Hc) Hlk). }
    assert (Hc1 : Core opts st1) by (eapply Core_quiet; eauto).
    pose proof Hq as [Qv Qt Qa Qmn _ (d & Ql & Qc & Qq)].
    split; [apply Core_set_pc; [done|by rewrite Qt|done|done]|].
    split.
    { unfold Known in *. simpl. rewrite length_insert, Qt.
      eapply Known_quiet; [done| |done]. by eapply lookup_lt_Some. }
    assert (Hd : completed (log st1) = completed (log st))
      by (by rewrite Ql, completed_app, (calm_completed pid)).
    assert (Hact : pid ∈ activePromises st) by (apply (c_active _ _ Hc); eauto).
    unfold main_ok in *. simpl. rewrite Qmn.
    destruct (main st) as [| | | |lv]; try done; try by rewrite Hd.
    + rewrite Hd. split; [apply Hm|]. intros Hr.
      destruct (Qq Hr) as [Hr' _]. destruct Hm as [_ Hm].
      destruct (Hm Hr') as [_ Ha']. rewrite Ha' in Hact.
      by apply elem_of_nil in Hact.
    + destruct Hm as (-> & Hr & Hm). split; [done|]. split.
      * destruct (isRunning st1) eqn:E; [|done].
        destruct (Qq eq_refl). congruence.
      * rewrite Hd. intros Hcomp. destruct (Hm Hcomp) as [Hall _].
        eapply Forall_lookup_1 in Hall; [|exact Hlk]. done.
  - assert (Hact : pid ∈ activePromises st) by (apply (c_active _ _ Hc); eauto).
    split; [exact (Core_finally pid t st Hc Hlk)|]. split.
    { unfold Known in *. simpl. by rewrite length_insert. }
    unfold main_ok in *. simpl.
    destruct (main st) as [| | | |lv]; try done.
    + split; [apply Hm|]. intros Hr. destruct Hm as [_ Hm].
      destruct (Hm Hr) as [_ Ha']. rewrite Ha' in Hact.
      by apply elem_of_nil in Hact.
    + destruct Hm as (-> & Hr & Hm). split; [done|]. split; [done|].
      intros Hcomp. destruct (Hm Hcomp) as [Hall _].
      eapply Forall_lookup_1 in Hall; [|exact Hlk]. done.
Qed.

Lemma step_Inv st a st' : Inv opts st → step opts st a = Some st' → Inv opts st'.
Proof.
  intros HI. unfold step.
  destruct (main st) eqn:Hmain; try done;
    (destruct a as [pid ta| | |];
     [destruct (tasks st !! pid) as [t|] eqn:Hlk; [|done];
      destruct (task_step _ _ _ _ _ _) as [[st1 pc]|] eqn:Hs; [|done];
      intros [= <-]; eapply on_task_Inv; eauto; congruence
     |try done..|intros [= <-]; by apply stop_Inv]).
  - destruct (existsb _ _); [|done]. intros [= <-].
    destruct HI as (Hc & Hk & Hm). unfold main_ok in Hm. rewrite Hmain in Hm.
    by apply turn_Inv.
  - intros [= <-]. by apply run_resume_Inv.
Qed.

Lemma run_Inv seed st0 : idle st0 → Inv opts (run opts seed st0).2.
Proof.
  intros (Hr & Ht & Hl). unfold run. rewrite Hr. simpl.
  set (st1 := set_isRunning true _).
  assert (Hc1 : Core opts st1).
  { split; simpl; rewrite ?Hl, ?Ht; try done; try by constructor.
    intros pid. split; [by intros ?%elem_of_nil|]. by intros (t & ? & _). }
  set (st2 := emit (EvStart seed) st1).
  assert (Hq2 : quiet 0 ""%string st1 st2) by (by apply quiet_emit).
  assert (Hc2 : Core opts st2).
  { eapply Core_quiet; [exact Hc1|exact Hq2|]. left. apply emit_fields. }
  set (item := {| url := seed; parentUrl := None; isRecursive := true |}).
  assert (Hc3 : Core opts (queue_push item st2)).
  { eapply (Core_quiet 0 ""%string); [exact Hc2|apply quiet_queue_push|by left]. }
  apply turn_Inv; [done| |].
  - unfold Known. simpl. constructor; [done|].
    unfold st2. rewrite emit_log. simpl. rewrite Hl.
    apply Forall_app. split; [destruct (_ && _)|]; repeat constructor.
  - simpl. unfold st2. rewrite emit_log, completed_app. simpl. rewrite Hl.
    by destruct (_ && _).
Qed.

Lemma exec_Inv schedule : ∀ st st', Inv opts st → exec opts st schedule = Some st' → Inv opts st'.
Proof.
  induction schedule as [|a schedule IH]; intros st st' HI; simpl.
  - by intros [= <-].
  - destruct (step opts st a) as [st1|] eqn:Hs; [|done].
    apply IH. by eapply step_Inv.
Qed.

Lemma reachable_Inv st : reachable opts st → Inv opts st.
Proof.
  intros (st0 & seed & schedule & Hi & H).
  eapply exec_Inv; [by apply run_Inv|exact H].
Qed.

(** ** C2: what a page enqueues *)

Lemma pushed_fields items st :
  visited (pushed items st) = visited st ∧
  brokenLinks (pushed items st) = brokenLinks st ∧
  isRunning (pushed items st) = isRunning st ∧
  activePromises (pushed items st) = activePromises st ∧
  queue (pushed items st) = queue st ++ items ∧
  log (pushed items st) = (ObsEnqueue <$> rev items) ++ log st.
Proof.
  revert st. induction items as [|item items IH]; intros st; simpl.
  - by rewrite app_nil_r.
  - destruct (IH (queue_push item st)) as (-> & -> & -> & -> & -> & ->).
    simpl. rewrite <- !app_assoc, fmap_app. simpl.
    by rewrite <- app_assoc.
Qed.

Lemma enqs_app l1 l2 : enqs (l1 ++ l2) = enqs l1 ++ enqs l2.
Proof. apply omap_app. Qed.

Lemma enqs_enqueue items : enqs (ObsEnqueue <$> items) = items.
Proof. induction items as [|item items IH]; simpl; [done|]. by f_equal. Qed.

Lemma enqueueLinks_exact u baseOrigin links st :
  (∀ link, link ∈ links → is_Some (jsURL link)) →
  enqueueLinks opts u baseOrigin links st =
  (pushed
     (map (λ link, {| url := link; parentUrl := Some u;
                      isRecursive :=
                        match jsURL link with
                        | Some l => String.eqb (origin l) baseOrigin
                        | None => false
                        end |})
          (List.filter (unclaimed opts st) links)) st, None).
Proof.
  revert st. induction links as [|link rest IH]; intros st Hp; simpl; [done|].
  assert (Hrest : ∀ l, l ∈ rest → is_Some (jsURL l))
    by (intros l Hl; apply Hp; by right).
  unfold unclaimed at 1.
  destruct (negb (Set_has link (visited st)) && negb (shouldIgnore opts link));
    [|by apply IH].
  destruct (Hp link) as [l Hl]; [left|]. rewrite Hl. simpl.
  rewrite Hl. by rewrite IH.
Qed.

Lemma checkSingleUrl_text_enqueues item html st base :
  jsURL (url item) = Some base →
  (∀ link, link ∈ extractLinks html (url item) → is_Some (jsURL link)) →
  let st' := (checkSingleUrl_text opts item (Fulfilled html) st).1 in
  enqs (log st') = rev (enqueued opts item html st) ++ enqs (log st) ∧
  (isRunning st' = true → queue st' = queue st ++ enqueued opts item html st).
Proof.
  intros Hb Hl. unfold checkSingleUrl_text. rewrite Hb.
  rewrite (enqueueLinks_exact _ _ _ _ Hl). simpl.
  set (new := map _ _).
  assert (Hnew : new = enqueued opts item html st).
  { unfold new, enqueued. apply map_ext. intros link.
    unfold same_origin. rewrite Hb. by destruct (jsURL link). }
  rewrite <- Hnew.
  destruct (pushed_fields new st) as (Hv & Hbr & Hr & Ha & Hq & Hlog).
  set (e := EvProgress _ _). split.
  - rewrite emit_log, Hlog.
    rewrite enqs_app.
    assert (∀ n l, enqs (ObsEmit e n :: l) = enqs l) as -> by done.
    rewrite enqs_app, enqs_enqueue. by destruct (_ && _).
  - intros H. destruct (emit_running e _ H) as [_ ->]. done.
Qed.

(** C2, as the class has it.  When the text of a page arrives, the hrefs
    are resolved against the URL the item was queued under, and every link
    not yet visited and not ignored is enqueued, in document order, with
    that URL as parent and with [isRecursive] telling whether the link's
    origin is the origin of that same URL; the response's own [url] plays no
    part.  Unless a subscriber stops the run these items are appended to the
    queue. *)
Theorem links_resolved_against_queued_url item html st base :
  jsURL (url item) = Some base →
  (∀ link, link ∈ extractLinks html (url item) → is_Some (jsURL link)) →
  let st' := (checkSingleUrl_text opts item (Fulfilled html) st).1 in
  enqs (log st') = rev (enqueued opts item html st) ++ enqs (log st) ∧
  (isRunning st' = true → queue st' = queue st ++ enqueued opts item html st).
Proof. apply checkSingleUrl_text_enqueues. Qed.

(** ** C1: the visited set *)

Lemma inner_visited fuel st :
  ∃ more, visited (processQueue_inner opts fuel st) = visited st ++ more.
Proof.
  revert st. induction fuel as [|fuel IH]; intros st; simpl.
  { exists []. by rewrite app_nil_r. }
  destruct (inner_guard opts st); [|exists []; by rewrite app_nil_r].
  destruct (queue st) as [|item rest]; [exists []; by rewrite app_nil_r|].
  simpl. destruct (_ || _); [apply (IH (set_queue rest st))|].
  destruct (IH (dispatch opts item (set_queue rest st))) as (m2 & ->).
  destruct (g_visited _ _ (grows_dispatch item (set_queue rest st))) as (m1 & ->).
  exists (m1 ++ m2). by rewrite app_assoc.
Qed.

Lemma step_visited st a st' :
  step opts st a = Some st' → ∃ more, visited st' = visited st ++ more.
Proof.
  unfold step. destruct (main st) eqn:Hmain; try done;
    (destruct a as [pid ta| | |];
     [destruct (tasks st !! pid) as [t|] eqn:Hlk; [|done];
      destruct (task_step _ _ _ _ _ _) as [[st1 pc]|] eqn:Hs; [|done];
      intros [= <-]; simpl;
      apply task_step_effect in Hs as (_ & [(_ & Hq)|(_ & ->)]);
      exists []; rewrite app_nil_r; [apply Hq|done]
     |try done..
     |intros [= <-]; exists []; rewrite app_nil_r; apply stop_fields]).
  - destruct (existsb _ _); [|done]. intros [= <-].
    unfold processQueue_turn. destruct (outer_guard st);
      [|exists []; by rewrite app_nil_r].
    destruct (inner_visited (length (queue st)) st) as (more & Hv).
    exists more. by repeat case_match.
  - intros [= <-]. exists []. rewrite app_nil_r. unfold run_resume. simpl.
    destruct (isRunning st); [apply emit_fields|done].
Qed.

(** C1.  In every state of a run: each [link:start] stands in the log
    directly after the [visited.add] of its URL, with nothing in between, and
    the URL of every check started is in the visited set, so a URL is
    claimed before its check begins; no URL is passed to [visited.add]
    twice; and no turn of the event loop removes a URL from the visited
    set, which only grows at its end. *)
Theorem visited_before_check_once_forever st :
  reachable opts st →
  (∀ l1 u p n l2, log st = l1 ++ ObsEmit (EvLinkStart u p) n :: l2 →
                  ∃ l2', l2 = ObsVisitedAdd u :: l2') ∧
  (∀ pid t, tasks st !! pid = Some t → url (t_item t) ∈ visited st) ∧
  NoDup (adds (log st)) ∧
  (∀ a st', step opts st a = Some st' →
            ∃ more, visited st' = visited st ++ more).
Proof.
  intros Hr. destruct (reachable_Inv st Hr) as (Hc & _ & _).
  split; [|split; [|split]].
  - intros l1 u p n l2 Hl. apply (ordered_split l1 u p n l2).
    rewrite <- Hl. apply Hc.
  - intros pid t Hlk. exact (Forall_lookup_1 _ _ _ _ (c_tasks _ _ Hc) Hlk).
  - pose proof (c_nodup _ _ Hc) as Hn. rewrite (c_visited _ _ Hc) in Hn.
    by rewrite <- Permutation_rev in Hn.
  - intros a st'. apply step_visited.
Qed.


(** ** C10: broken links are visited links *)


(** ** C3: a link that occurs several times *)







(** ** C5: retries *)

Lemma calm_counts pid p d :
  Forall (calm pid) d → p ≠ pid → fetches p d = 0%nat ∧ delays p d = 0%nat.
Proof.
  intros Hd Hp. induction Hd as [|o d Ho _ IH]; [done|].
  destruct o as [[]| | |q|q]; simpl in *; try done.
  - subst q. unfold fetches, delays in *. simpl.
    destruct (Nat.eqb_spec pid p); [congruence|done].
  - subst q. unfold fetches, delays in *. simpl.
    destruct (Nat.eqb_spec pid p); [congruence|done].
Qed.

Lemma quiet_counts pid u p st st' :
  quiet pid u st st' → p ≠ pid →
  fetches p (log st') = fetches p (log st) ∧
  delays p (log st') = delays p (log st).
Proof.
  intros [_ _ _ _ _ (d & -> & Hd & _)] Hp.
  rewrite fetches_app, delays_app.
  by destruct (calm_counts pid p d Hd Hp) as [-> ->].
Qed.

Lemma counted_frame l l' pid t :
  fetches pid l' = fetches pid l → delays pid l' = delays pid l →
  counted opts l pid t → counted opts l' pid t.
Proof. unfold counted. intros -> ->. done. Qed.

Lemma Known_fresh st p :
  Known st → (length (tasks st) ≤ p)%nat →
  fetches p (log st) = 0%nat ∧ delays p (log st) = 0%nat.
Proof.
  unfold Known. intros Hk Hp. induction Hk as [|o l Ho _ IH]; [done|].
  destruct o as [| | |q|q]; simpl in *; try done.
  - unfold fetches, delays in *. simpl.
    destruct (Nat.eqb_spec q p); [lia|done].
  - unfold fetches, delays in *. simpl.
    destruct (Nat.eqb_spec q p); [lia|done].
Qed.

Lemma fetches_fetch pid u l :
  fetches pid (ObsFetch pid u :: l) = S (fetches pid l) ∧
  delays pid (ObsFetch pid u :: l) = delays pid l.
Proof. unfold fetches, delays. simpl. by rewrite Nat.eqb_refl. Qed.

Lemma delays_delay pid ms l :
  fetches pid (ObsDelay pid ms :: l) = fetches pid l ∧
  delays pid (ObsDelay pid ms :: l) = S (delays pid l).
Proof. unfold fetches, delays. simpl. by rewrite Nat.eqb_refl. Qed.

Lemma catch_counted pid item i lastError message st :
  counted opts (log st) pid {| t_item := item; t_pc := InFetch i lastError |} →
  counted opts (log (fetchWithRetry_catch opts pid (url item) i message st).1) pid
    {| t_item := item;
       t_pc := (fetchWithRetry_catch opts pid (url item) i message st).2 |}.
Proof.
  unfold counted, fetchWithRetry_catch. simpl. intros (Hu & Hi & Hf & Hd).
  destruct (i <? retries opts - 1) eqn:E; simpl; [|done].
  apply Z.ltb_lt in E. intros _.
  destruct (delays_delay pid (retryDelay opts)
              (log (emit (EvRetry (url item) (i + 1) message None) st)))
    as [-> ->].
  destruct (emit_fetches pid (EvRetry (url item) (i + 1) message None) st)
    as [-> ->]. lia.
Qed.

Lemma iter_counted pid item i lastError st :
  counted opts (log st) pid {| t_item := item; t_pc := InDelay i lastError |} →
  counted opts (log (fetchWithRetry_iter opts pid (url item) (i + 1) lastError st).1)
    pid
    {| t_item := item;
       t_pc := (fetchWithRetry_iter opts pid (url item) (i + 1) lastError st).2 |}.
Proof.
  unfold counted, fetchWithRetry_iter, fetchWithRetry_catch. simpl. intros H.
  destruct (i + 1 <? retries opts) eqn:E; simpl; [|done].
  destruct (jsURL (url item)) as [parsed|] eqn:Hu; simpl.
  - destruct H as (Hi & Hf & Hd); [done|].
    destruct (fetches_fetch pid (url item) (log st)) as [-> ->].
    split; [done|]. lia.
  - destruct (i + 1 <? retries opts - 1); simpl; [|done]. by intros [? ?].
Qed.

Lemma task_step_counted pid item pc ta st st' pc' :
  task_step opts pid item pc ta st = Some (st', pc') →
  counted opts (log st) pid {| t_item := item; t_pc := pc |} →
  counted opts (log st') pid {| t_item := item; t_pc := pc' |}.
Proof.
  destruct pc, ta as [[response|message]| | | |]; simpl; try done;
    intros H;
    apply (f_equal (λ o, match o with Some x => x | None => (st', pc') end)) in H;
    (assert (st' = (st', pc').1) as H1 by done);
    (assert (pc' = (st', pc').2) as H2 by done);
    rewrite <- H in H1, H2; simpl in H1, H2; subst st' pc'; clear H;
    try done.
  - apply catch_counted.
  - apply iter_counted.
  - intros _. unfold checkSingleUrl_resume, checkSingleUrl_catch,
      checkSingleUrl_end. unfold counted.
    destruct r; [|done]. destruct (_ && _); [|by destruct (redirected a)].
    destruct (isRecursive item); [|done]. by destruct (includes _ _).
  - intros _. unfold checkSingleUrl_text, checkSingleUrl_catch,
      checkSingleUrl_end. unfold counted.
    destruct (text resp); [|done]. destruct (jsURL (url item)); [|done].
    by destruct (enqueueLinks _ _ _ _ _) as [? []].
Qed.

Lemma Counts_dispatch item st :
  Known st → Counts opts st → isRunning st = true → Counts opts (dispatch opts item st).
Proof.
  intros Hk Hn Hr. unfold dispatch.
  set (st1 := visited_add (url item) st).
  rewrite checkSingleUrl_start_running by done.
  set (e := EvLinkStart (url item) (parentUrl item)).
  set (pid := length (tasks st1)).
  pose proof (quiet_fetchWithRetry_iter pid (url item) 0 None (emit e st1)) as Hq.
  destruct (emit_fields e st1) as (_ & _ & Et & _).
  destruct (Known_fresh st pid Hk) as [Hf0 Hd0]; [done|].
  assert (Hnew : counted opts (log (fetchWithRetry_iter opts pid (url item) 0 None
                                 (emit e st1)).1) pid
                   {| t_item := item;
                      t_pc := (fetchWithRetry_iter opts pid (url item) 0 None
                                 (emit e st1)).2 |}).
  { unfold counted, fetchWithRetry_iter, fetchWithRetry_catch. simpl.
    destruct (0 <? retries opts) eqn:E; simpl; [|done].
    apply Z.ltb_lt in E.
    destruct (jsURL (url item)) as [parsed|] eqn:Hu; simpl.
    - destruct (fetches_fetch pid (url item) (log (emit e st1))) as [-> ->].
      destruct (emit_fetches pid e st1) as [-> ->]. simpl.
      assert (∀ l, fetches pid (ObsVisitedAdd (url item) :: l) = fetches pid l)
        as -> by done.
      assert (∀ l, delays pid (ObsVisitedAdd (url item) :: l) = delays pid l)
        as -> by done.
      rewrite Hf0, Hd0. split; [done|]. lia.
    - destruct (0 <? retries opts - 1); simpl; [|done]. by intros [? ?]. }
  destruct (fetchWithRetry_iter _ _ _ _ _ _) as [st3 pc]. simpl in *.
  intros p t Hlk.
  assert (Ht3 : tasks st3 = tasks st) by (by rewrite (q_tasks _ _ _ _ Hq), Et).
  rewrite Ht3 in Hlk. apply lookup_snoc_Some in Hlk as [[Hp Hlk]|[-> <-]].
  - assert (Hne : p ≠ pid) by (unfold pid; simpl; lia).
    destruct (quiet_counts _ _ p _ _ Hq Hne) as [Hf Hd].
    destruct (emit_fetches p e st1) as [Hf' Hd'].
    eapply counted_frame; [| |exact (Hn p t Hlk)]; simpl.
    + by rewrite Hf, Hf'.
    + by rewrite Hd, Hd'.
  - exact Hnew.
Qed.

Lemma inner_Counts fuel st :
  Known st → Counts opts st →
  Known (processQueue_inner opts fuel st) ∧
  Counts opts (processQueue_inner opts fuel st).
Proof.
  revert st. induction fuel as [|fuel IH]; intros st Hk Hn; simpl; [done|].
  destruct (inner_guard opts st) eqn:Hg; [|done].
  destruct (queue st) as [|item rest] eqn:Hq; [done|]. simpl.
  apply inner_guard_true in Hg as (Hr & _).
  destruct (_ || _); [by apply (IH (set_queue rest st))|].
  apply IH; [by apply Known_dispatch|by apply Counts_dispatch].
Qed.

Lemma turn_Counts st :
  Known st → Counts opts st → Counts opts (processQueue_turn opts st).
Proof.
  intros Hk Hn. unfold processQueue_turn.
  destruct (outer_guard st); [|done].
  destruct (inner_Counts (length (queue st)) st Hk Hn) as [_ H].
  by repeat case_match.
Qed.

Lemma step_Counts st a st' :
  Inv opts st → Counts opts st → step opts st a = Some st' → Counts opts st'.
Proof.
  intros (Hc & Hk & Hm) Hn. unfold step.
  destruct (main st) eqn:Hmain; try done;
    (destruct a as [pid ta| | |];
     [|try done..
      |intros [= <-]; intros p t; destruct (stop_fields st) as (_ & _ & -> & _);
       intros Hlk; eapply counted_frame; [| |exact (Hn p t Hlk)];
       rewrite stop_log; [rewrite fetches_app|rewrite delays_app];
       by destruct (isRunning st)]).
  1, 2, 4, 6:
    destruct (tasks st !! pid) as [t|] eqn:Hlk; [|done];
    destruct (task_step _ _ _ _ _ _) as [[st1 pc]|] eqn:Hs; [|done];
    intros [= <-]; intros p t' Hlk'; simpl in Hlk';
    pose proof (task_step_counted _ _ _ _ _ _ _ Hs) as Hown;
    apply task_step_effect in Hs as (_ & Heff);
    (assert (Ht1 : tasks st1 = tasks st)
       by (destruct Heff as [(_ & Hq)|(_ & ->)]; [apply Hq|done]));
    rewrite Ht1 in Hlk';
    apply list_lookup_insert_Some in Hlk' as [(<- & <- & _)|(Hne & Hlk')];
    [apply Hown; destruct t; exact (Hn pid _ Hlk)
    |eapply counted_frame; [| |exact (Hn p t' Hlk')];
     destruct Heff as [(_ & Hq)|(_ & ->)]; try done;
     by apply (quiet_counts _ _ p _ _ Hq)].
  - destruct (existsb _ _); [|done]. intros [= <-]. by apply turn_Counts.
  - intros [= <-]. intros p t Hlk. unfold run_resume in *. simpl in *.
    destruct (isRunning st); [|by apply Hn].
    set (e := EvComplete _ _) in *.
    destruct (emit_fields e st) as (_ & _ & Et & _). rewrite Et in Hlk.
    destruct (emit_fetches p e st) as [Hf Hd].
    by eapply counted_frame; [| |exact (Hn p t Hlk)].
Qed.

Lemma run_Counts seed st0 : idle st0 → Counts opts (run opts seed st0).2.
Proof.
  intros (Hr & Ht & Hl). unfold run. rewrite Hr. simpl. apply turn_Counts.
  - unfold Known. simpl. constructor; [done|]. rewrite emit_log. simpl.
    rewrite Hl.
    apply Forall_app. split; [destruct (_ && _)|]; repeat constructor.
  - intros p t. simpl.
    destruct (emit_fields (EvStart seed)
                (set_isRunning true
                   (set_activePromises []
                      (set_queue [] (set_brokenLinks [] (set_visited [] st0))))))
      as (_ & _ & -> & _). simpl. by rewrite Ht.
Qed.

Lemma exec_Counts schedule :
  ∀ st st', Inv opts st → Counts opts st → exec opts st schedule = Some st' → Counts opts st'.
Proof.
  induction schedule as [|a schedule IH]; intros st st' HI Hn; simpl.
  - by intros [= <-].
  - destruct (step opts st a) as [st1|] eqn:Hs; [|done].
    apply IH; [by eapply step_Inv|by eapply step_Counts].
Qed.

Lemma reachable_Counts st : reachable opts st → Counts opts st.
Proof.
  intros (st0 & seed & schedule & Hi & H).
  eapply exec_Counts; [by apply run_Inv|by apply run_Counts|exact H].
Qed.

Lemma step_on_task st pid t ta st1 pc :
  main st ≠ MSpin → tasks st !! pid = Some t →
  task_step opts pid (t_item t) (t_pc t) ta st = Some (st1, pc) →
  step opts st (OnTask pid ta) =
  Some (set_tasks (<[pid := {| t_item := t_item t; t_pc := pc |}]> (tasks st1)) st1).
Proof.
  intros Hm Hlk Hs. unfold step. rewrite Hlk, Hs. by destruct (main st).
Qed.

Lemma step_reject_retry st pid item i lastError message :
  main st ≠ MSpin →
  tasks st !! pid = Some {| t_item := item; t_pc := InFetch i lastError |} →
  i < retries opts - 1 →
  ∃ st', step opts st (OnTask pid (AFetch (Rejected message))) = Some st' ∧
         turned pid item (InDelay i (Some message)) st st' 0 1 [].
Proof.
  intros Hm Hlk Hi. eexists. split.
  - eapply step_on_task; [done|exact Hlk|]. simpl.
    rewrite (surjective_pairing (fetchWithRetry_catch _ _ _ _ _ _)). done.
  - unfold fetchWithRetry_catch.
    replace (i <? retries opts - 1) with true by (symmetry; by apply Z.ltb_lt).
    set (e := EvRetry _ _ _ _).
    destruct (emit_fields e st) as (_ & Eb & Et & _ & Em).
    destruct (emit_fetches pid e st) as [Ef Ed].
    destruct (delays_delay pid (retryDelay opts) (log (emit e st))) as [Hf Hd].
    repeat split; simpl.
    + done.
    + rewrite Et. apply list_lookup_insert_eq. by eapply lookup_lt_Some.
    + by rewrite Eb, app_nil_r.
    + rewrite Hf, Ef. lia.
    + rewrite Hd, Ed. lia.
Qed.

Lemma step_reject_last st pid item i lastError message :
  main st ≠ MSpin →
  tasks st !! pid = Some {| t_item := item; t_pc := InFetch i lastError |} →
  retries opts - 1 ≤ i →
  ∃ st', step opts st (OnTask pid (AFetch (Rejected message))) = Some st' ∧
         turned pid item (GotFetch (Rejected message)) st st' 0 0 [].
Proof.
  intros Hm Hlk Hi. eexists. split.
  - eapply step_on_task; [done|exact Hlk|]. simpl.
    rewrite (surjective_pairing (fetchWithRetry_catch _ _ _ _ _ _)). done.
  - unfold fetchWithRetry_catch.
    replace (i <? retries opts - 1) with false
      by (symmetry; apply Z.ltb_ge; lia).
    repeat split; simpl.
    + apply list_lookup_insert_eq. by eapply lookup_lt_Some.
    + by rewrite app_nil_r.
    + lia.
    + lia.
Qed.

Lemma step_timer st pid item i lastError :
  main st ≠ MSpin →
  tasks st !! pid = Some {| t_item := item; t_pc := InDelay i lastError |} →
  i + 1 < retries opts → is_Some (jsURL (url item)) →
  ∃ st', step opts st (OnTask pid ATimer) = Some st' ∧
         turned pid item (InFetch (i + 1) lastError) st st' 1 0 [].
Proof.
  intros Hm Hlk Hi [parsed Hu]. eexists. split.
  - eapply step_on_task; [done|exact Hlk|]. simpl.
    rewrite (surjective_pairing (fetchWithRetry_iter _ _ _ _ _ _)). done.
  - unfold fetchWithRetry_iter.
    replace (i + 1 <? retries opts) with true by (symmetry; by apply Z.ltb_lt).
    rewrite Hu.
    destruct (fetches_fetch pid (url item) (log st)) as [Hf Hd].
    repeat split; simpl.
    + apply list_lookup_insert_eq. by eapply lookup_lt_Some.
    + by rewrite app_nil_r.
    + rewrite Hf. lia.
    + rewrite Hd. lia.
Qed.

Lemma step_resume_rejected st pid item message :
  main st ≠ MSpin →
  tasks st !! pid = Some {| t_item := item; t_pc := GotFetch (Rejected message) |} →
  ∃ st', step opts st (OnTask pid AResume) = Some st' ∧
         turned pid item Returned st st' 0 0 [errorBroken item message].
Proof.
  intros Hm Hlk. eexists. split.
  - eapply step_on_task; [done|exact Hlk|]. simpl. done.
  - unfold checkSingleUrl_catch, checkSingleUrl_end. simpl.
    set (e1 := EvLinkError _ _ _ _).
    set (st1 := brokenLinks_push _ (emit e1 st)).
    set (e2 := EvProgress _ _).
    destruct (emit_fields e1 st) as (_ & Eb1 & Et1 & _ & Em1).
    destruct (emit_fields e2 st1) as (_ & Eb2 & Et2 & _ & Em2).
    destruct (emit_fetches pid e1 st) as [Ef1 Ed1].
    destruct (emit_fetches pid e2 st1) as [Ef2 Ed2].
    repeat split; simpl.
    + by rewrite Em2.
    + rewrite Et2. simpl. rewrite Et1.
      apply list_lookup_insert_eq. by eapply lookup_lt_Some.
    + rewrite Eb2. simpl. by rewrite Eb1.
    + rewrite Ef2. simpl. rewrite Ef1. lia.
    + rewrite Ed2. simpl. rewrite Ed1. lia.
Qed.

Lemma turned_trans pid item pc1 pc2 st1 st2 st3 f1 f2 d1 d2 b1 b2 :
  turned pid item pc1 st1 st2 f1 d1 b1 →
  turned pid item pc2 st2 st3 f2 d2 b2 →
  turned pid item pc2 st1 st3 (f1 + f2) (d1 + d2) (b1 ++ b2).
Proof.
  intros (Hm1 & _ & Hb1 & Hf1 & Hd1) (Hm2 & Ht2 & Hb2 & Hf2 & Hd2).
  repeat split; try congruence.
  - by rewrite Hb2, Hb1, app_assoc.
  - rewrite Hf2, Hf1. lia.
  - rewrite Hd2, Hd1. lia.
Qed.

Lemma reject_run pid item message n :
  ∀ st i lastError,
    main st ≠ MSpin →
    tasks st !! pid = Some {| t_item := item; t_pc := InFetch i lastError |} →
    is_Some (jsURL (url item)) →
    Z.of_nat (S n) = retries opts - i →
    ∃ st', exec opts st (rejections pid message i (S n)) = Some st' ∧
           turned pid item Returned st st' n n
             [errorBroken item (message (retries opts - 1))].
Proof.
  induction n as [|n IH]; intros st i lastError Hm Hlk Hu Hn.
  - destruct (step_reject_last st pid item i lastError (message i))
      as (st1 & Hs1 & Ht1); [done|done|lia|].
    pose proof Ht1 as (Hm1 & Hlk1 & _).
    destruct (step_resume_rejected st1 pid item (message i))
      as (st2 & Hs2 & Ht2); [congruence|done|].
    exists st2. simpl. rewrite Hs1, Hs2. split; [done|].
    replace (retries opts - 1) with i by lia.
    exact (turned_trans _ _ _ _ _ _ _ _ _ _ _ _ _ Ht1 Ht2).
  - destruct (step_reject_retry st pid item i lastError (message i))
      as (st1 & Hs1 & Ht1); [done|done|lia|].
    pose proof Ht1 as (Hm1 & Hlk1 & _).
    destruct (step_timer st1 pid item i (Some (message i)))
      as (st2 & Hs2 & Ht2); [congruence|done|lia|done|].
    pose proof Ht2 as (Hm2 & Hlk2 & _).
    destruct (IH st2 (i + 1) (Some (message i)))
      as (st3 & Hs3 & Ht3); [congruence|done|done|lia|].
    exists st3. split.
    + change (rejections pid message i (S (S n)))
        with (OnTask pid (AFetch (Rejected (message i))) :: OnTask pid ATimer
              :: rejections pid message (i + 1) (S n)).
      simpl exec. by rewrite Hs1, Hs2.
    + pose proof (turned_trans _ _ _ _ _ _ _ _ _ _ _ _ _
                    (turned_trans _ _ _ _ _ _ _ _ _ _ _ _ _ Ht1 Ht2) Ht3) as H.
      replace (0 + 1 + n)%nat with (S n) in H by lia.
      replace (1 + 0 + n)%nat with (S n) in H by lia.
      exact H.
Qed.

(** With a positive [retries] and a URL that parses, a dispatched check is
    suspended at its first [fetch]. *)
Lemma dispatch_awaits_first_fetch item st :
  isRunning st = true → 0 < retries opts → is_Some (jsURL (url item)) →
  tasks (dispatch opts item st) !! length (tasks st)
  = Some {| t_item := item; t_pc := InFetch 0 None |}.
Proof.
  intros Hr Hp [parsed Hu]. unfold dispatch.
  rewrite checkSingleUrl_start_running by done.
  unfold fetchWithRetry_iter.
  replace (0 <? retries opts) with true by (symmetry; by apply Z.ltb_lt).
  rewrite Hu. simpl.
  destruct (emit_fields (EvLinkStart (url item) (parentUrl item))
              (visited_add (url item) st)) as (_ & _ & -> & _).
  simpl. by apply list_lookup_middle.
Qed.

(** C5.  Take any state of a run in which a check waits for the [fetch] of
    iteration [i] of its retry loop ([i = 0] is the first attempt; a later
    one is only reached through rejections).  If this fetch and every later
    one reject, the check calls [fetch] [retries] times in all, waits
    [retries - 1] times for the retry delay, and returns having appended
    the broken link whose reason is "Error: " followed by the message of the
    last rejection. *)
Theorem retries_exhausted st pid item i lastError message :
  reachable opts st →
  tasks st !! pid = Some {| t_item := item; t_pc := InFetch i lastError |} →
  ∃ st',
    exec opts st (rejections pid message i (Z.to_nat (retries opts - i)))
    = Some st' ∧
    Z.of_nat (fetches pid (log st')) = retries opts ∧
    Z.of_nat (delays pid (log st')) = retries opts - 1 ∧
    brokenLinks st' =
      brokenLinks st ++ [errorBroken item (message (retries opts - 1))] ∧
    tasks st' !! pid = Some {| t_item := item; t_pc := Returned |}.
Proof.
  intros Hr Hlk.
  destruct (reachable_Inv st Hr) as (Hc & _ & Hm).
  pose proof (reachable_Counts st Hr pid _ Hlk) as (Hu & Hi & Hf & Hd).
  simpl in Hu.
  assert (Hspin : main st ≠ MSpin).
  { intros Hs. unfold main_ok in Hm. rewrite Hs in Hm. destruct Hm as [_ Ha].
    assert (pid ∈ activePromises st) as H
      by (apply (c_active _ _ Hc); eexists; split; [exact Hlk|done]).
    rewrite Ha in H. by apply elem_of_nil in H. }
  destruct (Z.to_nat (retries opts - i)) as [|n] eqn:En; [lia|].
  destruct (reject_run pid item message n st i lastError)
    as (st' & Hs & (_ & Ht & Hb & Hf' & Hd')); [done|done|done|lia|].
  exists st'. split; [done|]. repeat split; try done; lia.
Qed.

(** ** C6: no attempt without retries *)

(** C6 fails on the class.  With [retries] at 0 or below the retry loop is
    not entered: [fetchWithRetry] rejects with its generic error without
    calling [fetch], leaving the state, and so the log, as it was. *)
Theorem no_fetch_without_retries pid u st :
  retries opts ≤ 0 →
  fetchWithRetry_iter opts pid u 0 None st =
  (st, GotFetch (Rejected "Failed after multiple retries")).
Proof.
  intros H. unfold fetchWithRetry_iter.
  by replace (0 <? retries opts) with false by (symmetry; apply Z.ltb_ge; lia).
Qed.

(** ** C9: what [extractLinks] lets through *)

(** The links [extractLinks] returns are the [href] of the resolved anchors
    whose attribute is neither empty nor starts with "#" and whose resolved
    [href] starts with the four letters "http". *)
Lemma extractLinks_spec html base link :
  link ∈ extractLinks html base ↔
  ∃ h resolved,
    h ∈ anchor_hrefs html ∧ h ≠ ""%string ∧ String.prefix "#" h = false ∧
    jsURLbase h base = Some resolved ∧
    String.prefix "http" (href resolved) = true ∧ link = href resolved.
Proof.
  unfold extractLinks. rewrite list_elem_of_omap. split.
  - intros (o & Ho & Hid). simpl in Hid. subst o.
    apply list_elem_of_fmap in Ho as (h & Hh & Hin).
    apply list_elem_of_In, filter_In in Hin as [Hin Hf].
    apply list_elem_of_In in Hin.
    apply andb_true_iff in Hf as [Hne Hfrag].
    apply negb_true_iff in Hne, Hfrag.
    destruct (jsURLbase h base) as [resolved|] eqn:Hr; [|done].
    destruct (String.prefix "http" (href resolved)) eqn:Hp; [|done].
    injection Hh as ->. exists h, resolved. repeat split; try done.
    intros ->. by rewrite String.eqb_refl in Hne.
  - intros (h & resolved & Hin & Hne & Hfrag & Hr & Hp & ->).
    exists (Some (href resolved)). split; [|done].
    apply list_elem_of_fmap. exists h. rewrite Hr, Hp. split; [done|].
    apply list_elem_of_In, filter_In. split; [by apply list_elem_of_In|].
    rewrite Hfrag. simpl. rewrite andb_true_r. apply negb_true_iff.
    by apply String.eqb_neq.
Qed.

End Properties.

(** * Examples *)

Example broken_link_found :
  brokenLinks Demo.finished =
    [{| bl_url := "http://a.test/p"; reason := "Status code: 404";
        bl_parentUrl := Some "http://a.test/" |}] ∧
  visited Demo.finished = ["http://a.test/"; "http://a.test/p"] ∧
  result Demo.finished =
    Some (["http://a.test/"; "http://a.test/p"], brokenLinks Demo.finished).
Proof. repeat split. Qed.

Lemma finished_reachable : reachable (W:=Demo.world) Demo.opts Demo.finished.
Proof.
  exists fresh, Demo.seed, Demo.crawl.
  split; [repeat split|vm_compute; reflexivity].
Defined.

Lemma afterText_reachable : reachable (W:=Demo.world) Demo.opts Demo.afterText.
Proof.
  exists fresh, Demo.seed, (take 3 Demo.crawl).
  split; [repeat split|vm_compute; reflexivity].
Defined.

Lemma afterMoved_reachable : reachable (W:=Demo.world) Demo.opts Demo.afterMoved.
Proof.
  exists fresh, Demo.seed,
    [OnTask 0 (AFetch (Fulfilled Demo.moved)); OnTask 0 AResume].
  split; [repeat split|vm_compute; reflexivity].
Defined.

(** A run stopped by a subscriber returns without [complete]; the array it
    returned still grows when the check left in flight ends. *)
Example stopped_run_result_grows :
  ∃ st st' : State,
    exec (W:=Demo.stopping) Demo.opts
      (run (W:=Demo.stopping) Demo.opts Demo.seed fresh).2 Demo.stoppedCrawl
    = Some st ∧
    exec (W:=Demo.stopping) Demo.opts st Demo.lateCheck = Some st' ∧
    completed (log st') = false ∧
    option_map (λ r, map bl_url r.2) (result st) = Some ["http://a.test/p"] ∧
    option_map (λ r, map bl_url r.2) (result st')
    = Some ["http://a.test/p"; "http://a.test/q"] ∧
    option_map fst (result st')
    = Some ["http://a.test/"; "http://a.test/p"; "http://a.test/q"].
Proof.
  eexists. eexists.
  split; [vm_compute; reflexivity|]. split; [vm_compute; reflexivity|].
  repeat split.
Qed.

(** ** C1 *)

Lemma visited_before_check_once_forever_witness :
  reachable (W:=Demo.world) Demo.opts Demo.finished ∧
  NoDup (adds (log Demo.finished)).
Proof.
  split; [exact finished_reachable|].
  apply (visited_before_check_once_forever (W:=Demo.world) Demo.opts
           Demo.finished finished_reachable).
Defined.

(** ** C2 *)

(** C2 fails on the class.  The seed [http://a.test/] was redirected to
    [http://b.test/dir/] and the page links [/x] and [http://b.test/y].
    The class enqueues [http://a.test/x] as recursive and
    [http://b.test/y] as not recursive; resolved and classified against the
    final URL, as the specification has it, the items would be
    [http://b.test/x] and [http://b.test/y], both recursive. *)
Lemma redirected_page_counterexample :
  queue (checkSingleUrl_text (W:=Demo.world) Demo.opts Demo.seedItem
           (text Demo.moved) Demo.afterMoved).1
  = [ {| url := "http://a.test/x"; parentUrl := Some "http://a.test/";
         isRecursive := true |};
      {| url := "http://b.test/y"; parentUrl := Some "http://a.test/";
         isRecursive := false |} ] ∧
  queue Demo.afterMoved
    ++ spec_enqueued (W:=Demo.world) Demo.opts Demo.seedItem Demo.moved
         Demo.movedText Demo.afterMoved
  = [ {| url := "http://b.test/x"; parentUrl := Some "http://a.test/";
         isRecursive := true |};
      {| url := "http://b.test/y"; parentUrl := Some "http://a.test/";
         isRecursive := true |} ] ∧
  queue (checkSingleUrl_text (W:=Demo.world) Demo.opts Demo.seedItem
           (text Demo.moved) Demo.afterMoved).1
  ≠ queue Demo.afterMoved
    ++ spec_enqueued (W:=Demo.world) Demo.opts Demo.seedItem Demo.moved
         Demo.movedText Demo.afterMoved.
Proof. split; [|split]; vm_compute; [reflexivity..|discriminate]. Qed.

Lemma links_resolved_against_queued_url_witness :
  jsURL (World:=Demo.world) (url Demo.seedItem)
    = Some {| href := "http://a.test/"; protocol := "http:";
              origin := "http://a.test"; hostname := "a.test" |} ∧
  enqs (log (checkSingleUrl_text (W:=Demo.world) Demo.opts Demo.seedItem
               (Fulfilled Demo.movedText) Demo.afterMoved).1)
  = rev (enqueued (W:=Demo.world) Demo.opts Demo.seedItem Demo.movedText
           Demo.afterMoved)
    ++ enqs (log Demo.afterMoved).
Proof.
  split; [reflexivity|].
  apply (links_resolved_against_queued_url (W:=Demo.world) Demo.opts
           Demo.seedItem Demo.movedText Demo.afterMoved
           {| href := "http://a.test/"; protocol := "http:";
              origin := "http://a.test"; hostname := "a.test" |}).
  - reflexivity.
  - intros link Hl. vm_compute in Hl.
    apply elem_of_cons in Hl as [->|Hl]; [by eexists|].
    apply elem_of_cons in Hl as [->|Hl]; [by eexists|].
    by apply elem_of_nil in Hl.
Defined.

(** ** C3 *)




(** ** C5 *)

Lemma retries_exhausted_witness :
  reachable (W:=Demo.world) Demo.opts (run (W:=Demo.world) Demo.opts Demo.seed fresh).2 ∧
  ∃ st',
    exec (W:=Demo.world) Demo.opts (run (W:=Demo.world) Demo.opts Demo.seed fresh).2
      (rejections 0 Demo.failure 0 2) = Some st' ∧
    Z.of_nat (fetches 0 (log st')) = 2 ∧
    Z.of_nat (delays 0 (log st')) = 1 ∧
    brokenLinks st' = [errorBroken Demo.seedItem "socket hang up"].
Proof.
  assert (Hr : reachable (W:=Demo.world) Demo.opts
                 (run (W:=Demo.world) Demo.opts Demo.seed fresh).2)
    by (exists fresh, Demo.seed, []; split; [repeat split|reflexivity]).
  split; [exact Hr|].
  destruct (retries_exhausted (W:=Demo.world) Demo.opts _ 0%nat Demo.seedItem 0
              None Demo.failure Hr eq_refl) as (st' & He & Hf & Hd & Hb & _).
  exists st'. auto.
Defined.

(** ** C6 *)

Lemma no_fetch_without_retries_witness :
  retries Demo.opts0 ≤ 0 ∧
  fetchWithRetry_iter (W:=Demo.world) Demo.opts0 0 Demo.seed 0 None fresh =
  (fresh, GotFetch (Rejected "Failed after multiple retries")).
Proof.
  split; [simpl; lia|].
  apply (no_fetch_without_retries (W:=Demo.world) Demo.opts0). simpl. lia.
Defined.

(** With [retries: 0] a run on [http://a.test/] announces the check, calls
    [fetch] not once, and reports the seed as broken. *)
Example zero_retries_run :
  ∃ st,
    exec (W:=Demo.world) Demo.opts0
      (run (W:=Demo.world) Demo.opts0 Demo.seed fresh).2
      [OnTask 0 AResume; OnTask 0 AFinally; RaceSettles; RunResumes] = Some st ∧
    fetches 0 (log st) = 0%nat ∧
    starts (log st) = ["http://a.test/"] ∧
    result st =
      Some (["http://a.test/"],
            [{| bl_url := "http://a.test/";
                reason := "Error: Failed after multiple retries";
                bl_parentUrl := None |}]).
Proof. eexists. split; [vm_compute; reflexivity|]. repeat split. Qed.

(** ** C7 *)

Lemma non2xx_response_witness :
  ¬ (200 ≤ status (Demo.notFound "http://a.test/p") < 300) ∧
  ∃ st',
    checkSingleUrl_resume (W:=Demo.world) Demo.seedItem
      (Fulfilled (Demo.notFound "http://a.test/p")) fresh = (st', Returned) ∧
    brokenLinks st' =
      [{| bl_url := "http://a.test/"; reason := "Status code: 404";
          bl_parentUrl := None |}].
Proof.
  assert (H : ¬ (200 ≤ status (Demo.notFound "http://a.test/p") < 300))
    by (simpl; lia).
  split; [exact H|].
  destruct (non2xx_response (W:=Demo.world) Demo.opts 0 Demo.seedItem 0 None
              (Demo.notFound "http://a.test/p") fresh H)
    as (_ & st' & He & _ & Hb).
  exists st'. split; [exact He|exact Hb].
Defined.

(** ** C8 *)

Lemma run_while_running_throws_witness :
  isRunning Demo.afterText = true ∧
  run (W:=Demo.world) Demo.opts "http://b.test/" Demo.afterText
  = (RunThrew alreadyRunning, Demo.afterText).
Proof.
  split; [reflexivity|].
  destruct (run_while_running_throws (W:=Demo.world) Demo.opts
              "http://b.test/" Demo.afterText eq_refl)
    as (st' & -> & _ & _ & _ & _ & _ & ->).
  reflexivity.
Defined.

(** ** C9 *)

(** C9 fails on the class.  The href [httpx://a.test/p] resolves to a URL
    whose scheme is [httpx], neither [http] nor [https]; its text starts
    with "http", and [extractLinks] returns it. *)
Theorem extractLinks_accepts_httpx :
  protocol <$> jsURLbase (World:=Demo.world) "httpx://a.test/p" "http://a.test/"
    = Some "httpx:"%string ∧
  extractLinks (W:=Demo.world) "<a href='httpx://a.test/p'>x</a>" "http://a.test/"
    = ["httpx://a.test/p"%string].
Proof. split; reflexivity. Qed.

(** ** C10 *)


(** * Further properties *)

Section Further_properties.
Context {W : World}.
Variable opts : Options.

(** ** The footprint of a turn of a check *)

Lemma emit_queue e st :
  queue (emit e st) = if calls_stop e && isRunning st then [] else queue st.
Proof.
  unfold emit, stop. destruct (calls_stop e); simpl; [|done].
  by destruct (isRunning st).
Qed.

Lemma emit_isRunning e st :
  isRunning (emit e st) = isRunning st && negb (calls_stop e).
Proof.
  unfold emit, stop. destruct (calls_stop e); simpl.
  - by destruct (isRunning st) eqn:E; simpl; rewrite ?E.
  - by rewrite andb_true_r.
Qed.

Lemma stopped_app l1 l2 : stopped (l1 ++ l2) = stopped l1 || stopped l2.
Proof. apply existsb_app. Qed.

Lemma stops_app l1 l2 : stops (l1 ++ l2) = (stops l1 + stops l2)%nat.
Proof. unfold stops. by rewrite List.filter_app, length_app. Qed.

Lemma completions_app l1 l2 :
  completions (l1 ++ l2) = (completions l1 + completions l2)%nat.
Proof. unfold completions. by rewrite List.filter_app, length_app. Qed.

Lemma stops_stopped l : stopped l = false → stops l = 0%nat.
Proof.
  unfold stopped, stops. induction l as [|o l IH]; simpl; [done|].
  intros [Ho Hl]%orb_false_iff. rewrite Ho. by apply IH.
Qed.

Lemma completions_completed l : completed l = false → completions l = 0%nat.
Proof.
  unfold completed, completions. induction l as [|o l IH]; simpl; [done|].
  intros [Ho Hl]%orb_false_iff. rewrite Ho. by apply IH.
Qed.

Lemma effect_refl st : effect st st [] [].
Proof.
  split; try done; rewrite ?app_nil_r; auto. split; [unfold stops; simpl; lia|done].
Qed.

Lemma effect_trans st1 st2 st3 bs1 bs2 d1 d2 :
  effect st1 st2 bs1 d1 → effect st2 st3 bs2 d2 →
  effect st1 st3 (bs1 ++ bs2) (d2 ++ d1).
Proof.
  intros H1 H2. split.
  - rewrite (f_visited _ _ _ _ H2). apply H1.
  - rewrite (f_tasks _ _ _ _ H2). apply H1.
  - rewrite (f_active _ _ _ _ H2). apply H1.
  - rewrite (f_main _ _ _ _ H2). apply H1.
  - rewrite (f_broken _ _ _ _ H2), (f_broken _ _ _ _ H1). by rewrite app_assoc.
  - rewrite (f_log _ _ _ _ H2), (f_log _ _ _ _ H1). by rewrite app_assoc.
  - intros H3.
    destruct (f_running _ _ _ _ H2 H3) as (H4 & Hs2 & Hq2).
    destruct (f_running _ _ _ _ H1 H4) as (H5 & Hs1 & Hq1).
    split; [done|]. split.
    + by rewrite stopped_app, Hs1, Hs2.
    + rewrite Hq2, Hq1, enqs_app, rev_app_distr. by rewrite app_assoc.
  - intros q Hq. rewrite enqs_app.
    destruct (f_queue _ _ _ _ H2 q Hq) as [Hq'|Hq'].
    + destruct (f_queue _ _ _ _ H1 q Hq') as [?|?]; [by left|].
      right. apply elem_of_app. by right.
    + right. apply elem_of_app. by left.
  - destruct (f_stops _ _ _ _ H1) as [Hn1 Hr1].
    destruct (f_stops _ _ _ _ H2) as [Hn2 Hr2].
    rewrite stops_app, stopped_app. split.
    + destruct (stopped d1) eqn:E1; [|rewrite (stops_stopped d1 E1); lia].
      destruct (stopped d2) eqn:E2; [|rewrite (stops_stopped d2 E2); lia].
      destruct (f_running _ _ _ _ H1 (Hr2 eq_refl)) as (_ & E & _). congruence.
    + intros [E|E]%orb_true_iff; [|by apply Hr1].
      by destruct (f_running _ _ _ _ H1 (Hr2 E)).
Qed.

Lemma errors_app l1 l2 : errors (l1 ++ l2) = errors l1 ++ errors l2.
Proof. apply omap_app. Qed.

Lemma paced_more c n n' o : (n ≤ n')%nat → paced c n o → paced c n' o.
Proof.
  intros Hn. destruct o as [e k| | | |]; try done.
  destruct e; try done. simpl. lia.
Qed.

Lemma does_refl pid item st : does opts pid item st st [] [].
Proof. exists []. split; [apply effect_refl|]. by repeat split. Qed.

Lemma does_trans pid item st1 st2 st3 bs1 bs2 new1 new2 bs new :
  does opts pid item st1 st2 bs1 new1 → does opts pid item st2 st3 bs2 new2 →
  bs = bs1 ++ bs2 → new = new1 ++ new2 →
  does opts pid item st1 st3 bs new.
Proof.
  intros (d1 & H1 & Ht1 & He1 & Hr1 & Hp1) (d2 & H2 & Ht2 & He2 & Hr2 & Hp2)
    -> ->.
  exists (d2 ++ d1). split; [by eapply effect_trans|]. split; [|split; [|split]].
  - apply Forall_app. by split.
  - by rewrite enqs_app, He1, He2, rev_app_distr.
  - by rewrite errors_app, Hr1, Hr2, rev_app_distr.
  - apply Forall_app. split.
    + by rewrite <- (f_visited _ _ _ _ H1).
    + eapply Forall_impl; [|exact Hp1]. intros o. apply paced_more.
      rewrite (f_broken _ _ _ _ H2), length_app. lia.
Qed.

Ltac does_then t1 t2 :=
  eapply does_trans; [|t2|..]; [t1|try done; by rewrite ?app_nil_r..].

Lemma does_emit pid item e st :
  tame opts pid item (ObsEmit e 0) → e ≠ EvStopped → errorOf e = None →
  paced (length (visited st)) (length (brokenLinks st)) (ObsEmit e 0) →
  does opts pid item st (emit e st) [] [].
Proof.
  intros He Hne Herr Hp.
  destruct (emit_fields e st) as (Hv & Hb & Ht & Ha & Hm).
  exists ((if calls_stop e && isRunning st
           then [ObsEmit EvStopped (length (activePromises st))] else [])
          ++ [ObsEmit e (length (activePromises st))]).
  split; [split; auto|split; [|split; [|split]]].
  - by rewrite app_nil_r.
  - by rewrite emit_log, <- app_assoc.
  - rewrite emit_isRunning, emit_queue. intros H.
    apply andb_true_iff in H as [Hr Hc]. apply negb_true_iff in Hc.
    rewrite Hc, Hr. simpl. split; [done|]. rewrite app_nil_r.
    split; [|done]. by destruct e.
  - intros q. rewrite emit_queue. destruct (_ && _); [|by left].
    by intros ?%elem_of_nil.
  - rewrite stops_app, stopped_app.
    destruct (calls_stop e && isRunning st) eqn:E.
    + apply andb_true_iff in E as [_ E]. split; [|done].
      unfold stops. destruct e; try done; simpl; lia.
    + split; [unfold stops; destruct e; try done; simpl; lia|].
      by destruct e.
  - apply Forall_app. split.
    + destruct (_ && _); repeat constructor.
    + repeat constructor. by destruct e.
  - by destruct (_ && _).
  - rewrite errors_app. simpl. rewrite Herr. by destruct (_ && _).
  - rewrite Hb. apply Forall_app. split.
    + destruct (_ && _); repeat constructor.
    + repeat constructor. by destruct e.
Qed.

(** A [link:error] and the [push] that follows it. *)
Lemma does_report pid item e b st :
  tame opts pid item (ObsEmit e 0) → errorOf e = Some b →
  does opts pid item st (brokenLinks_push b (emit e st)) [b] [].
Proof.
  intros He Herr.
  destruct (emit_fields e st) as (Hv & Hb & Ht & Ha & Hm).
  exists ((if calls_stop e && isRunning st
           then [ObsEmit EvStopped (length (activePromises st))] else [])
          ++ [ObsEmit e (length (activePromises st))]).
  split; [split; simpl; auto|split; [|split; [|split]]].
  - by rewrite Hb.
  - by rewrite emit_log, <- app_assoc.
  - rewrite emit_isRunning, emit_queue. intros H.
    apply andb_true_iff in H as [Hr Hc]. apply negb_true_iff in Hc.
    rewrite Hc, Hr. simpl. split; [done|]. rewrite app_nil_r.
    split; [|done]. by destruct e.
  - intros q. rewrite emit_queue. destruct (_ && _); [|by left].
    by intros ?%elem_of_nil.
  - rewrite stops_app, stopped_app.
    destruct (calls_stop e && isRunning st) eqn:E.
    + apply andb_true_iff in E as [_ E]. split; [|done].
      unfold stops. destruct e; try done; simpl; lia.
    + split; [unfold stops; destruct e; try done; simpl; lia|].
      by destruct e.
  - apply Forall_app. split.
    + destruct (_ && _); repeat constructor.
    + repeat constructor. by destruct e.
  - by destruct (_ && _).
  - rewrite errors_app. simpl. rewrite Herr. by destruct (_ && _).
  - apply Forall_app. split.
    + destruct (_ && _); repeat constructor.
    + repeat constructor. by destruct e as [| | | | | |? [] []| |].
Qed.

Lemma does_fetch pid item st :
  does opts pid item st (observe (ObsFetch pid (url item)) st) [] [].
Proof.
  exists [ObsFetch pid (url item)]. split;
    [split; auto|repeat split; by repeat constructor].
  - by rewrite app_nil_r.
  - intros H. simpl. by rewrite app_nil_r.
  - split; [unfold stops; simpl; lia|done].
Qed.

Lemma does_delay pid item ms st :
  does opts pid item st (observe (ObsDelay pid ms) st) [] [].
Proof.
  exists [ObsDelay pid ms]. split;
    [split; auto|repeat split; by repeat constructor].
  - by rewrite app_nil_r.
  - intros H. simpl. by rewrite app_nil_r.
  - split; [unfold stops; simpl; lia|done].
Qed.

Lemma does_queue_push pid item q st :
  does opts pid item st (queue_push q st) [] [q].
Proof.
  exists [ObsEnqueue q]. split;
    [split; auto|repeat split; by repeat constructor].
  - by rewrite app_nil_r.
  - simpl. intros q' [?|?%list_elem_of_singleton]%elem_of_app; [by left|].
    right. subst. left.
  - split; [unfold stops; simpl; lia|done].
Qed.

Lemma does_fetchWithRetry_catch pid item i message st :
  does opts pid item st (fetchWithRetry_catch opts pid (url item) i message st).1 [] [].
Proof.
  unfold fetchWithRetry_catch. destruct (_ <? _) eqn:E; simpl;
    [|apply does_refl].
  apply Z.ltb_lt in E.
  does_then ltac:(apply does_emit; try done; simpl; repeat split; lia)
            ltac:(apply does_delay).
Qed.

Lemma does_fetchWithRetry_iter pid item i lastError st :
  does opts pid item st (fetchWithRetry_iter opts pid (url item) i lastError st).1 [] [].
Proof.
  unfold fetchWithRetry_iter. destruct (_ <? _); simpl; [|apply does_refl].
  destruct (jsURL (url item)); simpl; [apply does_fetch|].
  apply does_fetchWithRetry_catch.
Qed.

Lemma does_checkSingleUrl_end pid item st :
  does opts pid item st (checkSingleUrl_end st).1 [] [].
Proof. by apply does_emit. Qed.

Lemma does_checkSingleUrl_catch pid item message st :
  does opts pid item st (checkSingleUrl_catch item message st).1
    [errorBroken item message] [].
Proof.
  unfold checkSingleUrl_catch.
  does_then ltac:(by apply does_report) ltac:(apply does_checkSingleUrl_end).
Qed.

Lemma verdict_catch item message :
  verdict item Returned [errorBroken item message].
Proof. right. split; [done|]. by eexists. Qed.

Lemma linked_more u baseOrigin link links q :
  linked opts u baseOrigin links q → linked opts u baseOrigin (link :: links) q.
Proof. intros (? & ? & ? & ?). repeat split; try done. by right. Qed.

Lemma does_enqueueLinks pid item u baseOrigin links :
  ∀ st, ∃ new,
    does opts pid item st (enqueueLinks opts u baseOrigin links st).1 [] new ∧
    Forall (linked opts u baseOrigin links) new.
Proof.
  induction links as [|link rest IH]; intros st; simpl.
  { exists []. split; [apply does_refl|done]. }
  destruct (negb (Set_has link (visited st)) && negb (shouldIgnore opts link))
    eqn:Hg.
  - destruct (jsURL link) as [l|] eqn:Hl.
    + destruct (IH (queue_push {| url := link; parentUrl := Some u;
                                  isRecursive := String.eqb (origin l) baseOrigin |}
                      st)) as (new & Hd & Hn).
      eexists (_ :: new). split.
      * does_then ltac:(apply does_queue_push) ltac:(exact Hd).
      * constructor.
        -- apply andb_true_iff in Hg as [_ Hi]. apply negb_true_iff in Hi.
           repeat split; simpl; try done; [left|by exists l].
        -- eapply Forall_impl; [|exact Hn]. intros q. apply linked_more.
    + exists []. split; [apply does_refl|done].
  - destruct (IH st) as (new & Hd & Hn). exists new. split; [done|].
    eapply Forall_impl; [|exact Hn]. intros q. apply linked_more.
Qed.

Lemma does_checkSingleUrl_resume pid item r st :
  ∃ bs,
    does opts pid item st (checkSingleUrl_resume item r st).1 bs [] ∧
    verdict item (checkSingleUrl_resume item r st).2 bs ∧
    (checkSingleUrl_resume item r st).2 ≠ Done ∧
    (∀ resp, (checkSingleUrl_resume item r st).2 = InText resp →
             isRecursive item = true).
Proof.
  destruct r as [response|message]; simpl.
  2: { eexists. split; [apply does_checkSingleUrl_catch|].
       split; [apply verdict_catch|]. by split. }
  destruct (_ && _).
  - destruct (isRecursive item) eqn:Hrec.
    + destruct (includes _ _); simpl.
      * exists []. split; [by apply does_emit|]. split; [by left|]. by split.
      * exists []. split.
        { does_then ltac:(by apply does_emit) ltac:(apply does_checkSingleUrl_end). }
        split; [by left|]. by split.
    + exists []. split.
      { does_then ltac:(by apply does_emit) ltac:(apply does_checkSingleUrl_end). }
      split; [by left|]. by split.
  - destruct (redirected response).
    + exists []. split.
      { does_then ltac:(by apply does_emit) ltac:(apply does_checkSingleUrl_end). }
      split; [by left|]. by split.
    + eexists. split.
      { does_then ltac:(by apply does_report)
                  ltac:(apply does_checkSingleUrl_end). }
      split; [|by split]. right. split; [done|]. by eexists.
Qed.

Lemma does_checkSingleUrl_text pid item r st :
  ∃ bs new,
    does opts pid item st (checkSingleUrl_text opts item r st).1 bs new ∧
    verdict item (checkSingleUrl_text opts item r st).2 bs ∧
    (checkSingleUrl_text opts item r st).2 = Returned ∧
    (new = [] ∨
     ∃ base html, jsURL (url item) = Some base ∧
       Forall (linked opts (url item) (origin base)
                 (extractLinks html (url item))) new).
Proof.
  destruct r as [html|message]; simpl.
  2: { eexists _, []. split; [apply does_checkSingleUrl_catch|].
       split; [apply verdict_catch|]. split; [done|by left]. }
  destruct (jsURL (url item)) as [base|] eqn:Hb.
  2: { eexists _, []. split; [apply does_checkSingleUrl_catch|].
       split; [apply verdict_catch|]. split; [done|by left]. }
  destruct (does_enqueueLinks pid item (url item) (origin base)
              (extractLinks html (url item)) st) as (new & Hd & Hn).
  destruct (enqueueLinks _ _ _ _ _) as [st1 [message|]]; simpl in *.
  - eexists _, new. split.
    { does_then ltac:(exact Hd) ltac:(apply does_checkSingleUrl_catch). }
    split; [apply verdict_catch|]. split; [done|]. right. by exists base, html.
  - exists [], new. split.
    { does_then ltac:(exact Hd) ltac:(apply does_checkSingleUrl_end). }
    split; [by left|]. split; [done|]. right. by exists base, html.
Qed.

Ltac some_pair H s p :=
  apply (inj Some) in H;
  let H1 := fresh in
  let H2 := fresh in
  pose proof (f_equal fst H) as H1; pose proof (f_equal snd H) as H2;
  cbn [fst snd] in H1, H2; clear H; subst s p.

(** Every turn of a check but the [finally] callback. *)
Lemma task_step_does pid item pc a st st' pc' :
  task_step opts pid item pc a st = Some (st', pc') → pc ≠ Returned →
  ∃ bs new,
    does opts pid item st st' bs new ∧ verdict item pc' bs ∧
    pc ≠ Done ∧ pc' ≠ Done ∧
    (∀ resp, pc' = InText resp → isRecursive item = true) ∧
    (new = [] ∨
     ∃ resp base html, pc = InText resp ∧ jsURL (url item) = Some base ∧
       Forall (linked opts (url item) (origin base)
                 (extractLinks html (url item))) new).
Proof.
  intros H Hpc. destruct pc, a; try done; simpl in H.
  - destruct r as [response|message]; some_pair H st' pc'.
    + exists [], []. split; [apply does_refl|]. split; [by left|].
      repeat split; try done. by left.
    + exists [], []. split; [apply does_fetchWithRetry_catch|].
      split; [by left|]. split; [done|].
      split; [apply fetchWithRetry_catch_pc|]. split; [|by left].
      unfold fetchWithRetry_catch. by destruct (_ <? _).
  - some_pair H st' pc'. exists [], [].
    split; [apply does_fetchWithRetry_iter|]. split; [by left|].
    split; [done|]. split; [apply fetchWithRetry_iter_pc|]. split; [|by left].
    unfold fetchWithRetry_iter, fetchWithRetry_catch.
    by destruct (_ <? _); [destruct (jsURL _); [|destruct (_ <? _)]|].
  - destruct (does_checkSingleUrl_resume pid item r st) as (bs & Hd & Hv & Hn & Ht).
    some_pair H st' pc'. exists bs, []. repeat split; try done. by left.
  - destruct (does_checkSingleUrl_text pid item (text resp) st)
      as (bs & new & Hd & Hv & Hr & Hn).
    some_pair H st' pc'. exists bs, new. split; [done|]. split; [done|].
    split; [done|]. rewrite Hr. split; [done|]. split; [done|].
    destruct Hn as [->|(base & html & Hb & Hn)]; [by left|].
    right. by exists resp, base, html.
Qed.

(** ** The second invariant *)

Lemma tame_calm pid item o : tame opts pid item o → calm pid o.
Proof.
  destruct o as [e n| | |p u|]; simpl; try done; [by destruct e|by intros []].
Qed.

Lemma tame_live pid item o : tame opts pid item o → live o = false.
Proof. destruct o as [e n| | | |]; simpl; try done. by destruct e. Qed.

Lemma dormant_app d l :
  Forall (λ o, live o = false) d → dormant l → dormant (d ++ l).
Proof.
  induction 1 as [|o d Ho Hd IH]; simpl; [done|].
  intros Hl. split; [|by apply IH]. by rewrite Ho.
Qed.

Lemma dormant_tame pid item d l :
  Forall (tame opts pid item) d → dormant l → dormant (d ++ l).
Proof.
  intros Hd. apply dormant_app. eapply Forall_impl; [|exact Hd].
  intros o. apply tame_live.
Qed.

Lemma completed_in v b n l :
  ObsEmit (EvComplete v b) n ∈ l → completed l = true.
Proof.
  intros H. apply existsb_exists. exists (ObsEmit (EvComplete v b) n).
  split; [by apply list_elem_of_In|done].
Qed.

Lemma tame_complete pid item d v b n :
  Forall (tame opts pid item) d → ObsEmit (EvComplete v b) n ∉ d.
Proof.
  intros Hd Hin. by apply (proj1 (list.Forall_forall _ _) Hd) in Hin.
Qed.

Lemma tame_completed pid item d :
  Forall (tame opts pid item) d → completed d = false.
Proof.
  intros Hd. apply (calm_completed pid). eapply Forall_impl; [|exact Hd].
  intros o. apply tame_calm.
Qed.

Lemma tame_counts pid item p d :
  Forall (tame opts pid item) d → p ≠ pid →
  fetches p d = 0%nat ∧ delays p d = 0%nat.
Proof.
  intros Hd. apply calm_counts. eapply Forall_impl; [|exact Hd].
  intros o. apply tame_calm.
Qed.

(** *** Turns that neither fetch nor wait *)

Lemma same_counts_refl st : same_counts st st.
Proof. by intros p. Qed.

Lemma same_counts_trans st1 st2 st3 :
  same_counts st1 st2 → same_counts st2 st3 → same_counts st1 st3.
Proof. intros H1 H2 p. destruct (H1 p), (H2 p). split; congruence. Qed.

Lemma same_counts_emit e st : same_counts st (emit e st).
Proof. intros p. apply emit_fetches. Qed.

Lemma same_counts_catch item message st :
  same_counts st (checkSingleUrl_catch item message st).1.
Proof.
  unfold checkSingleUrl_catch, checkSingleUrl_end. simpl.
  eapply same_counts_trans; [|apply same_counts_emit].
  intros p. apply emit_fetches.
Qed.

Lemma same_counts_enqueueLinks u baseOrigin links :
  ∀ st, same_counts st (enqueueLinks opts u baseOrigin links st).1.
Proof.
  induction links as [|link rest IH]; intros st; simpl;
    [apply same_counts_refl|].
  destruct (_ && _); [|apply IH].
  destruct (jsURL link); [|apply same_counts_refl].
  eapply same_counts_trans; [|apply IH]. by intros p.
Qed.

Lemma same_counts_resume item r st :
  same_counts st (checkSingleUrl_resume item r st).1.
Proof.
  destruct r as [response|message]; simpl; [|apply same_counts_catch].
  unfold checkSingleUrl_end.
  destruct (_ && _).
  - destruct (isRecursive item); [destruct (includes _ _)|]; simpl;
      repeat (eapply same_counts_trans; [|apply same_counts_emit]);
      apply same_counts_refl.
  - destruct (redirected response); simpl.
    + repeat (eapply same_counts_trans; [|apply same_counts_emit]).
      apply same_counts_refl.
    + eapply same_counts_trans; [|apply same_counts_emit].
      intros p. apply emit_fetches.
Qed.

Lemma same_counts_text item r st :
  same_counts st (checkSingleUrl_text opts item r st).1.
Proof.
  destruct r as [html|message]; simpl; [|apply same_counts_catch].
  destruct (jsURL (url item)); [|apply same_counts_catch].
  pose proof (same_counts_enqueueLinks (url item) (origin u)
                (extractLinks html (url item)) st) as H.
  destruct (enqueueLinks _ _ _ _ _) as [st1 [message|]]; simpl in *.
  - eapply same_counts_trans; [exact H|apply same_counts_catch].
  - eapply same_counts_trans; [exact H|apply same_counts_emit].
Qed.

(** *** The retry loop, by cases *)

Lemma catch_cases pid u i message st :
  (i < retries opts - 1 ∧
   (fetchWithRetry_catch opts pid u i message st).2 = InDelay i (Some message) ∧
   fetches pid (log (fetchWithRetry_catch opts pid u i message st).1)
   = fetches pid (log st) ∧
   delays pid (log (fetchWithRetry_catch opts pid u i message st).1)
   = S (delays pid (log st))) ∨
  (retries opts - 1 ≤ i ∧
   fetchWithRetry_catch opts pid u i message st
   = (st, GotFetch (Rejected message))).
Proof.
  unfold fetchWithRetry_catch. destruct (i <? retries opts - 1) eqn:E.
  - left. apply Z.ltb_lt in E. split; [done|]. split; [done|]. simpl.
    destruct (delays_delay pid (retryDelay opts)
                (log (emit (EvRetry u (i + 1) message None) st))) as [-> ->].
    by destruct (emit_fetches pid (EvRetry u (i + 1) message None) st)
      as [-> ->].
  - right. by apply Z.ltb_ge in E.
Qed.

Lemma iter_cases pid u i lastError st :
  (i < retries opts ∧ is_Some (jsURL u) ∧
   fetchWithRetry_iter opts pid u i lastError st
   = (observe (ObsFetch pid u) st, InFetch i lastError)) ∨
  (i < retries opts ∧ jsURL u = None ∧
   fetchWithRetry_iter opts pid u i lastError st
   = fetchWithRetry_catch opts pid u i invalidURL st) ∨
  (retries opts ≤ i ∧
   fetchWithRetry_iter opts pid u i lastError st
   = (st, fetchWithRetry_exit lastError)).
Proof.
  unfold fetchWithRetry_iter. destruct (i <? retries opts) eqn:E.
  - apply Z.ltb_lt in E. destruct (jsURL u) eqn:Hu; [left|right; left]; eauto.
  - right. right. by apply Z.ltb_ge in E.
Qed.

Lemma capped_frame l l' pid t :
  fetches pid l' = fetches pid l → delays pid l' = delays pid l →
  capped opts l pid t → capped opts l' pid t.
Proof. unfold capped. intros -> ->. done. Qed.

Lemma task_step_capped pid item pc ta st st' pc' :
  task_step opts pid item pc ta st = Some (st', pc') → pc ≠ Returned →
  counted opts (log st) pid {| t_item := item; t_pc := pc |} →
  capped opts (log st) pid {| t_item := item; t_pc := pc |} →
  capped opts (log st') pid {| t_item := item; t_pc := pc' |}.
Proof.
  intros H Hpc. destruct pc, ta; try done; simpl in H.
  - unfold counted, capped. simpl. intros (_ & Hi & Hf & Hd) _.
    destruct r as [response|message]; some_pair H st' pc'; simpl; [lia|].
    destruct (catch_cases pid (url item) i message st)
      as [(Hlt & -> & -> & ->)|(Hge & ->)]; simpl; lia.
  - unfold capped at 1. simpl. intros _ (Hi & Hf & Hd). some_pair H st' pc'.
    destruct (iter_cases pid (url item) (i + 1) lastError st)
      as [(Hlt & _ & ->)|[(Hlt & _ & ->)|(Hge & ->)]]; simpl; try done.
    + destruct (catch_cases pid (url item) (i + 1) invalidURL st)
        as [(Hlt' & E & Ef & Ed)|(Hge & ->)].
      * unfold capped. rewrite E, Ef, Ed. simpl. lia.
      * unfold capped. simpl. lia.
    + unfold capped. simpl. lia.
  - intros _ Hcap. some_pair H st' pc'.
    destruct (does_checkSingleUrl_resume pid item r st) as (bs & _ & Hv & Hn & _).
    destruct (same_counts_resume item r st pid) as [Ef Ed].
    unfold capped in *. simpl in *. rewrite Ef, Ed.
    destruct (checkSingleUrl_resume item r st).2 eqn:E; try done.
    revert E. unfold checkSingleUrl_resume, checkSingleUrl_catch,
      checkSingleUrl_end.
    destruct r as [response|]; [|done].
    destruct (_ && _); [|by destruct (redirected response)].
    destruct (isRecursive item); [|done]. by destruct (includes _ _).
  - intros _ Hcap. some_pair H st' pc'.
    destruct (does_checkSingleUrl_text pid item (text resp) st)
      as (bs & new & _ & _ & -> & _).
    destruct (same_counts_text item (text resp) st pid) as [Ef Ed].
    unfold capped in *. simpl in *. by rewrite Ef, Ed.
Qed.

(** *** A turn of a check *)

Lemma fetch_ok_insert pid t pc ts o :
  ts !! pid = Some t → fetch_ok ts o →
  fetch_ok (<[pid := {| t_item := t_item t; t_pc := pc |}]> ts) o.
Proof.
  intros Ht. destruct o as [| | |p u|]; simpl; try done.
  intros (t' & Hp & Hu). destruct (decide (pid = p)) as [<-|Hne].
  - eexists. rewrite list_lookup_insert_eq by (by eapply lookup_lt_Some).
    split; [done|]. simpl. congruence.
  - exists t'. by rewrite list_lookup_insert_ne.
Qed.

Lemma checks_insert pid t pc (ts : list Task) :
  ts !! pid = Some t →
  (url ∘ t_item) <$> <[pid := {| t_item := t_item t; t_pc := pc |}]> ts
  = (url ∘ t_item) <$> ts.
Proof.
  intros Ht. rewrite list_fmap_insert. apply list_insert_id.
  by rewrite list_lookup_fmap, Ht.
Qed.

(** The check of a URL is the only check of that URL. *)
Lemma one_check st pid pid' t t' :
  Core opts st → Wider opts st →
  tasks st !! pid = Some t → tasks st !! pid' = Some t' →
  url (t_item t) = url (t_item t') → pid = pid'.
Proof.
  intros Hc Hw Ht Ht' Hu.
  pose proof (c_nodup _ _ Hc) as Hn. rewrite <- (w_checks _ _ Hw) in Hn.
  eapply NoDup_lookup; [exact Hn| |].
  - by rewrite list_lookup_fmap, Ht.
  - rewrite list_lookup_fmap, Ht'. simpl. by rewrite Hu.
Qed.

(** A check that has not returned has reported nothing. *)
Lemma unreported st pid t :
  Core opts st → Wider opts st → tasks st !! pid = Some t →
  t_pc t ≠ Returned → t_pc t ≠ Done →
  url (t_item t) ∉ bl_url <$> brokenLinks st.
Proof.
  intros Hc Hw Ht Hr Hd Hin.
  apply list_elem_of_fmap in Hin as (b & Hu & Hb).
  apply (proj1 (list.Forall_forall _ _) (w_broken _ _ Hw)) in Hb
    as (pid' & t' & Ht' & Hu' & _ & Hpc).
  assert (pid = pid') as <- by (eapply one_check; eauto; congruence).
  assert (t' = t) as -> by congruence. by destruct Hpc.
Qed.

Lemma reported_insert pid t pc ts b :
  ts !! pid = Some t →
  (t_pc t = Returned ∨ t_pc t = Done → pc = Returned ∨ pc = Done) →
  reported ts b →
  reported (<[pid := {| t_item := t_item t; t_pc := pc |}]> ts) b.
Proof.
  intros Ht Hpc (p & t' & Hp & Hu & Hpar & Hs).
  destruct (decide (pid = p)) as [<-|Hne].
  - assert (t' = t) as -> by congruence.
    eexists pid, _. rewrite list_lookup_insert_eq by (by eapply lookup_lt_Some).
    split; [done|]. simpl. auto.
  - exists p, t'. by rewrite list_lookup_insert_ne.
Qed.

Lemma event_ok_insert pid t pc ts o :
  ts !! pid = Some t → event_ok opts ts o →
  event_ok opts (<[pid := {| t_item := t_item t; t_pc := pc |}]> ts) o.
Proof.
  intros Ht.
  assert (Hk : ∀ p t', ts !! p = Some t' →
            ∃ t'', <[pid := {| t_item := t_item t; t_pc := pc |}]> ts !! p
                   = Some t'' ∧ t_item t'' = t_item t').
  { intros p t' Hp. destruct (decide (pid = p)) as [<-|Hne].
    - eexists. rewrite list_lookup_insert_eq by (by eapply lookup_lt_Some).
      split; [done|]. simpl. congruence.
    - exists t'. by rewrite list_lookup_insert_ne. }
  destruct o as [e n| | | |]; try done.
  destruct e; try done; simpl.
  - intros (p & t' & Hp & Hu). apply Hk in Hp as (t'' & Hp & E).
    exists p, t''. by rewrite E.
  - intros (p & t' & Hp & Hu). apply Hk in Hp as (t'' & Hp & E).
    exists p, t''. by rewrite E.
  - intros (p & t' & Hp & Hu). apply Hk in Hp as (t'' & Hp & E).
    exists p, t''. by rewrite E.
  - intros (p & t' & Hp & Hu). apply Hk in Hp as (t'' & Hp & E).
    exists p, t''. by rewrite E.
  - intros ((p & t' & Hp & Hu) & H). split; [|done].
    apply Hk in Hp as (t'' & Hp & E). exists p, t''. by rewrite E.
Qed.

Lemma tame_event pid item pc ts o :
  ts !! pid = Some {| t_item := item; t_pc := pc |} →
  tame opts pid item o → event_ok opts ts o.
Proof.
  intros Ht. destruct o as [e n| | | |]; try done.
  destruct e; try done; simpl.
  - intros [-> ->]. by eexists pid, _.
  - intros [-> ->]. by eexists pid, _.
  - intros [-> ->]. by eexists pid, _.
  - intros (-> & -> & Ha). split; [by eexists pid, _|done].
Qed.

Lemma progress_ok_more v n v' n' o :
  (v ≤ v')%nat → (n ≤ n')%nat → progress_ok v n o → progress_ok v' n' o.
Proof.
  intros Hv Hn. destruct o as [e k| | | |]; try done.
  destruct e; try done. simpl. lia.
Qed.

Lemma paced_progress v n o :
  (n ≤ v)%nat → paced v n o → progress_ok v n o.
Proof.
  intros Hv. destruct o as [e k| | | |]; try done.
  destruct e; try done. simpl. lia.
Qed.

(** No more broken links than visited URLs. *)
Lemma broken_le st :
  NoDup (bl_url <$> brokenLinks st) →
  Forall (λ b, bl_url b ∈ visited st) (brokenLinks st) →
  (length (brokenLinks st) ≤ length (visited st))%nat.
Proof.
  intros Hn Hb. rewrite <- (length_fmap bl_url). apply submseteq_length.
  apply NoDup_submseteq; [done|].
  intros u (b & -> & Hin)%list_elem_of_fmap.
  exact (proj1 (list.Forall_forall _ _) Hb b Hin).
Qed.

Lemma Wider_turn pid ta t st st1 pc :
  Inv opts st → Counts opts st → Wider opts st → tasks st !! pid = Some t →
  task_step opts pid (t_item t) (t_pc t) ta st = Some (st1, pc) →
  t_pc t ≠ Returned →
  Wider opts
    (set_tasks (<[pid := {| t_item := t_item t; t_pc := pc |}]> (tasks st1)) st1).
Proof.
  intros (Hc & Hk & Hm) Hn Hw Ht Hs Hpc.
  destruct (task_step_does _ _ _ _ _ _ _ Hs Hpc)
    as (bs & new & (d & He & Hd & Hnew & Herr & Hpaced) & Hv & Hnd & Hnd'
        & _ & _).
  assert (Hcap : capped opts (log st1) pid {| t_item := t_item t; t_pc := pc |}).
  { eapply task_step_capped; [exact Hs|done| |].
    - specialize (Hn _ _ Ht). by destruct t.
    - pose proof (w_capped _ _ Hw _ _ Ht). by destruct t. }
  pose proof He as [Fv Ft Fa Fm Fb Fl Fr Fq Fs].
  assert (Hfresh : url (t_item t) ∉ bl_url <$> brokenLinks st)
    by (by eapply unreported).
  assert (Hvis : url (t_item t) ∈ visited st)
    by exact (Forall_lookup_1 _ _ _ _ (c_tasks _ _ Hc) Ht).
  assert (Hnodup : NoDup (bl_url <$> brokenLinks st1)).
  { rewrite Fb, fmap_app. apply list.NoDup_app.
    split; [apply Hw|]. destruct Hv as [->|(_ & r & ->)]; simpl.
    - split; [|constructor]. by intros x _ ?%elem_of_nil.
    - split; [|apply NoDup_singleton].
      intros x Hx ->%list_elem_of_singleton. done. }
  assert (Hle : (length (brokenLinks st1) ≤ length (visited st1))%nat).
  { apply broken_le; [done|]. rewrite Fb, Fv. apply Forall_app.
    split; [apply Hc|]. destruct Hv as [->|(_ & r & ->)]; [done|].
    by repeat constructor. }
  split; simpl.
  - intros Hr. destruct (Fr Hr) as (Hr0 & Hsd & _).
    rewrite Fl, stopped_app, Hsd. simpl. by apply (w_halted _ _ Hw).
  - rewrite Fl. eapply dormant_tame; [done|apply Hw].
  - rewrite Fv. apply Hw.
  - rewrite Ft, Fv, checks_insert by done. apply Hw.
  - rewrite Fl, Ft. apply Forall_app. split.
    + eapply Forall_impl; [|exact Hd].
      intros [| | |p u|]; simpl; try done. intros [-> ->].
      eexists. rewrite list_lookup_insert_eq by (by eapply lookup_lt_Some).
      done.
    + eapply Forall_impl; [|apply (w_fetch _ _ Hw)].
      intros o. by apply fetch_ok_insert.
  - done.
  - rewrite Fb, Ft. apply Forall_app. split.
    + eapply Forall_impl; [|apply (w_broken _ _ Hw)].
      intros b. apply reported_insert; [done|]. by intros [?|?].
    + destruct Hv as [->|(-> & r & ->)]; [done|].
      repeat constructor. eexists pid, _.
      rewrite list_lookup_insert_eq by (by eapply lookup_lt_Some).
      split; [done|]. simpl. auto.
  - rewrite Fa. apply Hw.
  - rewrite Fa. apply Hw.
  - intros p t' Hp. rewrite Ft in Hp.
    destruct (decide (pid = p)) as [<-|Hne].
    + rewrite list_lookup_insert_eq in Hp by (by eapply lookup_lt_Some).
      by injection Hp as <-.
    + rewrite list_lookup_insert_ne in Hp by done.
      destruct (tame_counts pid (t_item t) p d Hd) as [Ef Ed]; [done|].
      eapply capped_frame; [| |exact (w_capped _ _ Hw _ _ Hp)].
      * by rewrite Fl, fetches_app, Ef.
      * by rewrite Fl, delays_app, Ed.
  - rewrite Fb, Fl, errors_app, Herr, rev_app_distr, rev_involutive.
    f_equal. apply Hw.
  - rewrite Fl. apply Forall_app. split.
    + eapply Forall_impl; [|exact Hpaced]. intros o Ho.
      apply paced_progress; [done|]. by rewrite Fv.
    + eapply Forall_impl; [|apply (w_progress _ _ Hw)]. intros o.
      apply progress_ok_more; [by rewrite Fv|].
      rewrite Fb, length_app. lia.
  - rewrite Fl, Ft. apply Forall_app. split.
    + eapply Forall_impl; [|exact Hd]. intros o.
      apply (tame_event pid (t_item t) pc).
      apply list_lookup_insert_eq. by eapply lookup_lt_Some.
    + eapply Forall_impl; [|apply (w_events _ _ Hw)].
      intros o. by apply event_ok_insert.
  - rewrite Fl, stops_app. destruct Fs as [Hn1 Hr1].
    pose proof (w_stops _ _ Hw).
    destruct (stopped d) eqn:E; [|rewrite (stops_stopped d E); lia].
    rewrite (stops_stopped (log st)); [lia|].
    by apply (w_halted _ _ Hw), Hr1.
  - rewrite Fl, completions_app.
    rewrite (completions_completed d) by (by eapply tame_completed).
    apply Hw.
  - intros v b n Hin. rewrite Fl in Hin.
    apply elem_of_app in Hin as [Hin|Hin];
      [by apply (tame_complete _ _ _ _ _ _ Hd) in Hin|].
    exfalso. destruct (w_complete _ _ Hw _ _ _ Hin) as (Hmain & _).
    unfold main_ok in Hm. rewrite Hmain in Hm.
    destruct Hm as (_ & _ & Hm).
    destruct (Hm (completed_in _ _ _ _ Hin)) as [Hall _].
    eapply Forall_lookup_1 in Hall; [|exact Ht]. done.
Qed.

Lemma Wider_finally pid t st :
  Wider opts st → tasks st !! pid = Some t → t_pc t = Returned →
  Wider opts
    (set_tasks (<[pid := {| t_item := t_item t; t_pc := Done |}]> (tasks st))
       (set_activePromises (Promises_delete pid (activePromises st)) st)).
Proof.
  intros Hw Ht Hpc. split; simpl; try apply Hw.
  - rewrite checks_insert by done. apply Hw.
  - eapply Forall_impl; [|apply (w_fetch _ _ Hw)].
    intros o. by apply fetch_ok_insert.
  - eapply Forall_impl; [|apply (w_broken _ _ Hw)].
    intros b. apply reported_insert; [done|]. auto.
  - unfold Promises_delete.
    apply NoDup_ListNoDup, List.NoDup_filter, NoDup_ListNoDup, Hw.
  - pose proof (w_active_size _ _ Hw).
    pose proof (List.filter_length_le (λ q, negb (q =? pid)%nat)
                  (activePromises st)).
    unfold Promises_delete. lia.
  - intros p t' Hp. destruct (decide (pid = p)) as [<-|Hne].
    + rewrite list_lookup_insert_eq in Hp by (by eapply lookup_lt_Some).
      injection Hp as <-. pose proof (w_capped _ _ Hw _ _ Ht) as Hcap.
      unfold capped in *. simpl. by rewrite Hpc in Hcap.
    + rewrite list_lookup_insert_ne in Hp by done. by apply (w_capped _ _ Hw).
  - eapply Forall_impl; [|apply (w_events _ _ Hw)].
    intros o. by apply event_ok_insert.
  - intros v b n Hin.
    destruct (w_complete _ _ Hw _ _ _ Hin) as (? & ? & ? & ? & Ha & ?).
    rewrite Ha. done.
Qed.

(** *** The dispatch loop *)

Lemma not_completed v b n l :
  completed l = false → ObsEmit (EvComplete v b) n ∉ l.
Proof. intros H Hin. apply completed_in in Hin. congruence. Qed.

Lemma fetch_ok_app ts t o : fetch_ok ts o → fetch_ok (ts ++ [t]) o.
Proof.
  destruct o as [| | |p u|]; simpl; try done.
  intros (t' & Hp & Hu). exists t'. split; [|done]. by apply lookup_app_l_Some.
Qed.

Lemma reported_app ts t b : reported ts b → reported (ts ++ [t]) b.
Proof.
  intros (p & t' & Hp & H). exists p, t'. split; [|done].
  by apply lookup_app_l_Some.
Qed.

Lemma event_ok_app ts t o : event_ok opts ts o → event_ok opts (ts ++ [t]) o.
Proof.
  destruct o as [e n| | | |]; try done.
  destruct e; try done; simpl.
  - intros (p & t' & Hp & H). exists p, t'. split; [|done].
    by apply lookup_app_l_Some.
  - intros (p & t' & Hp & H). exists p, t'. split; [|done].
    by apply lookup_app_l_Some.
  - intros (p & t' & Hp & H). exists p, t'. split; [|done].
    by apply lookup_app_l_Some.
  - intros (p & t' & Hp & H). exists p, t'. split; [|done].
    by apply lookup_app_l_Some.
  - intros ((p & t' & Hp & H) & H'). split; [|done].
    exists p, t'. split; [|done]. by apply lookup_app_l_Some.
Qed.

Lemma Wider_set_queue q st :
  Wider opts st → completed (log st) = false → Wider opts (set_queue q st).
Proof.
  intros Hw Hcomp. split; simpl; try apply Hw.
  intros v b n Hin. by apply not_completed in Hin.
Qed.

Lemma Wider_set_main m st :
  Wider opts st → completed (log st) = false → Wider opts (set_main m st).
Proof.
  intros Hw Hcomp. split; simpl; try apply Hw.
  intros v b n Hin. by apply not_completed in Hin.
Qed.

Lemma Wider_dispatch item rest st :
  Core opts st → Known st → Wider opts st → completed (log st) = false →
  inner_guard opts st = true →
  Set_has (url item) (visited st) = false →
  shouldIgnore opts (url item) = false →
  Wider opts (dispatch opts item (set_queue rest st)).
Proof.
  intros Hc Hk Hw Hcomp Hg Hu Hig.
  apply inner_guard_true in Hg as (Hr & _ & Hlim).
  unfold dispatch.
  set (st1 := visited_add (url item) (set_queue rest st)).
  rewrite checkSingleUrl_start_running by done.
  set (e := EvLinkStart (url item) (parentUrl item)).
  set (pid := length (tasks st1)).
  destruct (emit_fields e st1) as (Ev & Eb & Et & Ea & Em).
  pose proof (emit_log e st1) as El.
  set (s := if calls_stop e && isRunning st1
            then [ObsEmit EvStopped (length (activePromises st1))] else [])
    in El.
  assert (Hs : Forall (tame opts pid item) s)
    by (subst s; destruct (_ && _); repeat constructor).
  destruct (Known_fresh st pid Hk) as [Hf0 Hd0]; [done|].
  assert (Hf2 : fetches pid (log (emit e st1)) = 0%nat ∧
                delays pid (log (emit e st1)) = 0%nat).
  { destruct (emit_fetches pid e st1) as [-> ->]. split; [exact Hf0|exact Hd0]. }
  destruct Hf2 as [Hf2 Hd2].
  assert (Hcap :
    capped opts (log (fetchWithRetry_iter opts pid (url item) 0 None
                        (emit e st1)).1) pid
      {| t_item := item;
         t_pc := (fetchWithRetry_iter opts pid (url item) 0 None
                    (emit e st1)).2 |}).
  { destruct (iter_cases pid (url item) 0 None (emit e st1))
      as [(_ & _ & ->)|[(_ & _ & ->)|(_ & ->)]]; [done| |].
    - destruct (catch_cases pid (url item) 0 invalidURL (emit e st1))
        as [(Hlt & E & Ef & Ed)|(Hge & ->)]; unfold capped.
      + rewrite E, Ef, Ed, Hf2, Hd2. simpl. lia.
      + simpl. rewrite Hf2, Hd2. lia.
    - unfold capped. simpl. rewrite Hf2, Hd2. lia. }
  destruct (does_fetchWithRetry_iter pid item 0 None (emit e st1))
    as (d & [Fv Ft Fa Fm Fb Fl Fr Fq Fs] & Hd & _ & Herr & Hpaced).
  destruct (fetchWithRetry_iter _ _ _ _ _ _) as [st3 pc]. simpl in *.
  assert (Hnew : length (tasks st) ∉ activePromises st).
  { intros H. apply (c_active _ _ Hc) in H as (t & Hlk & _).
    apply lookup_lt_Some in Hlk. lia. }
  assert (Hlog : log st3 = d ++ s ++ ObsEmit e (length (activePromises st))
                             :: ObsVisitedAdd (url item) :: log st).
  { by rewrite Fl, El. }
  assert (Hst : stopped (log st) = false) by (by apply (w_halted _ _ Hw)).
  assert (Hlk : (tasks st ++ [{| t_item := item; t_pc := pc |}]) !! pid
                = Some {| t_item := item; t_pc := pc |})
    by (by apply list_lookup_middle).
  assert (Hle : (length (brokenLinks st) ≤ length (visited st))%nat)
    by (apply broken_le; [apply Hw|apply Hc]).
  assert (Hv3 : visited st3 = visited st ++ [url item]).
  { rewrite Fv, Ev. simpl. unfold Set_add. by rewrite Hu. }
  assert (Hb3 : brokenLinks st3 = brokenLinks st)
    by (by rewrite Fb, Eb, app_nil_r).
  split; simpl.
  - intros Hr3. destruct (Fr Hr3) as (Hr2 & Hsd & _).
    rewrite emit_isRunning in Hr2. apply andb_true_iff in Hr2 as [_ Hcs].
    apply negb_true_iff in Hcs.
    rewrite Hlog, stopped_app, Hsd. subst s. rewrite Hcs. simpl. done.
  - rewrite Hlog. eapply dormant_tame; [done|].
    eapply dormant_tame; [exact Hs|]. simpl.
    split; [done|]. split; [done|]. apply Hw.
  - rewrite Fv, Ev. simpl. unfold Set_add. rewrite Hu.
    apply Forall_app. split; [apply Hw|]. by repeat constructor.
  - rewrite Ft, Fv, Et, Ev. simpl. unfold Set_add. rewrite Hu.
    rewrite fmap_app. simpl. f_equal. apply Hw.
  - rewrite Hlog, Ft, Et. simpl.
    apply Forall_app. split; [|apply Forall_app; split].
    + eapply Forall_impl; [|exact Hd].
      intros [| | |p u|]; simpl; try done. intros [-> ->]. eauto.
    + subst s. destruct (_ && _); repeat constructor.
    + constructor; [done|]. constructor; [done|].
      eapply Forall_impl; [|apply (w_fetch _ _ Hw)].
      intros o. apply fetch_ok_app.
  - rewrite Fb, Eb, app_nil_r. apply Hw.
  - rewrite Fb, Eb, app_nil_r, Ft, Et. simpl.
    eapply Forall_impl; [|apply (w_broken _ _ Hw)].
    intros b. apply reported_app.
  - rewrite Fa, Ea. unfold pid. simpl. rewrite Promises_add_new by done.
    apply list.NoDup_app. split; [apply Hw|]. split; [|apply NoDup_singleton].
    intros x Hx ->%list_elem_of_singleton. done.
  - rewrite Fa, Ea. unfold pid. simpl. rewrite Promises_add_new by done.
    rewrite length_app. simpl. lia.
  - intros p t Hp. rewrite Ft, Et in Hp. simpl in Hp.
    apply lookup_snoc_Some in Hp as [[Hlt Hp]|[-> <-]]; [|exact Hcap].
    assert (Hne : p ≠ pid) by (unfold pid; simpl; lia).
    destruct (tame_counts pid item p d Hd Hne) as [Ef Ed].
    destruct (emit_fetches p e st1) as [Ef' Ed'].
    eapply capped_frame; [| |exact (w_capped _ _ Hw _ _ Hp)].
    + by rewrite Fl, fetches_app, Ef, Ef'.
    + by rewrite Fl, delays_app, Ed, Ed'.
  - rewrite Hb3, Hlog, !errors_app, Herr. simpl.
    assert (errors s = []) as -> by (subst s; by destruct (_ && _)).
    apply Hw.
  - rewrite Hb3, Hv3, Hlog, length_app. simpl.
    apply Forall_app. split; [|apply Forall_app; split].
    + eapply Forall_impl; [|exact Hpaced]. intros o Ho.
      apply paced_progress; [lia|].
      rewrite Hb3, Ev in Ho. simpl in Ho. unfold Set_add in Ho.
      by rewrite Hu, length_app in Ho.
    + subst s. destruct (_ && _); repeat constructor.
    + constructor; [done|]. constructor; [done|].
      eapply Forall_impl; [|apply (w_progress _ _ Hw)]. intros o.
      apply progress_ok_more; lia.
  - rewrite Hlog, Ft, Et. simpl.
    apply Forall_app. split; [|apply Forall_app; split].
    + eapply Forall_impl; [|exact Hd]. intros o.
      by apply (tame_event pid item pc).
    + subst s. destruct (_ && _); repeat constructor.
    + constructor; [by eexists pid, _|]. constructor; [done|].
      eapply Forall_impl; [|apply (w_events _ _ Hw)].
      intros o. apply event_ok_app.
  - rewrite Hlog, !stops_app. destruct Fs as [Hn1 Hr1].
    assert (stops (ObsEmit e (length (activePromises st))
                   :: ObsVisitedAdd (url item) :: log st) = 0%nat) as ->
      by (by apply stops_stopped).
    destruct (stopped d) eqn:E.
    + specialize (Hr1 eq_refl). rewrite emit_isRunning in Hr1.
      apply andb_true_iff in Hr1 as [_ Hcs]. apply negb_true_iff in Hcs.
      subst s. rewrite Hcs. unfold stops at 2. simpl. lia.
    + rewrite (stops_stopped d E). subst s. unfold stops.
      destruct (_ && _); simpl; lia.
  - rewrite Hlog, !completions_app.
    rewrite (completions_completed d) by (by eapply tame_completed).
    rewrite (completions_completed s) by (by eapply tame_completed).
    rewrite (completions_completed (_ :: _ :: log st)); [simpl; lia|].
    subst e. exact Hcomp.
  - intros v b n Hin. exfalso. rewrite Hlog in Hin.
    apply elem_of_app in Hin as [Hin|Hin];
      [by apply (tame_complete _ _ _ _ _ _ Hd) in Hin|].
    apply elem_of_app in Hin as [Hin|Hin];
      [by apply (tame_complete _ _ _ _ _ _ Hs) in Hin|].
    apply elem_of_cons in Hin as [Hin|Hin]; [done|].
    apply elem_of_cons in Hin as [Hin|Hin]; [done|].
    by apply not_completed in Hin.
Qed.

Lemma inner_Wider fuel st :
  Core opts st → Known st → Wider opts st → completed (log st) = false →
  Wider opts (processQueue_inner opts fuel st).
Proof.
  revert st. induction fuel as [|fuel IH]; intros st Hc Hk Hw Hcomp; simpl;
    [done|].
  destruct (inner_guard opts st) eqn:Hg; [|done].
  destruct (queue st) as [|item rest] eqn:Hq; [done|]. simpl.
  destruct (Set_has (url item) (visited st) || shouldIgnore opts (url item))
    eqn:Hu.
  - apply IH; [by eapply Core_skip|done|by apply Wider_set_queue|done].
  - apply orb_false_iff in Hu as [Hu Hig]. apply IH.
    + by apply Core_dispatch.
    + apply Known_dispatch; [done|]. simpl.
      by apply inner_guard_true in Hg as (? & _).
    + by apply Wider_dispatch.
    + by rewrite (g_completed _ _ (grows_dispatch opts item (set_queue rest st))).
Qed.

Lemma turn_Wider st :
  Core opts st → Known st → Wider opts st → completed (log st) = false →
  Wider opts (processQueue_turn opts st) ∧ race_ok opts (processQueue_turn opts st).
Proof.
  intros Hc Hk Hw Hcomp. unfold processQueue_turn.
  destruct (outer_guard st) eqn:Hg;
    [|split; [by apply Wider_set_main|done]].
  destruct (inner_Core opts (length (queue st)) st Hc Hk) as (Hc1 & Hk1 & Hg1).
  pose proof (inner_Wider (length (queue st)) st Hc Hk Hw Hcomp) as Hw1.
  pose proof (processQueue_inner_exits opts (length (queue st)) st
                (Nat.le_refl _)) as Hexit.
  set (st1 := processQueue_inner opts _ st) in *.
  assert (Hcomp1 : completed (log st1) = false)
    by (by rewrite (g_completed _ _ Hg1)).
  destruct (nonempty (activePromises st1)) eqn:Ha;
    [|destruct (outer_guard st1) eqn:Hg'];
    (split; [by apply Wider_set_main|]); unfold race_ok; simpl; [| |done].
  - split; [by destruct (activePromises st1)|].
    apply list.Forall_forall. intros p Hp.
    apply (c_active _ _ Hc1) in Hp as (t & Hlk & _).
    by eapply lookup_lt_Some.
  - apply nonempty_false in Ha. unfold outer_guard in Hg'.
    unfold inner_guard in Hexit. rewrite Ha in *. simpl in *.
    rewrite orb_false_r in Hg'. rewrite Hg' in Hexit. simpl in Hexit.
    apply Z.ltb_ge in Hexit. lia.
Qed.

(** *** The second invariant along the event loop *)

(** [run] up to the call of [processQueue]. *)
Lemma run_start seed st0 :
  idle st0 →
  let st := queue_push (seedItem seed)
              (emit (EvStart seed)
                 (set_isRunning true
                    (set_activePromises []
                       (set_queue [] (set_brokenLinks [] (set_visited [] st0))))))
  in (run opts seed st0).2 = processQueue_turn opts st ∧
     Core opts st ∧ Known st ∧ completed (log st) = false.
Proof.
  intros (Hr & Ht & Hl). unfold run. rewrite Hr. simpl.
  set (st1 := set_isRunning true _).
  assert (Hc1 : Core opts st1).
  { split; simpl; rewrite ?Hl, ?Ht; try done; try by constructor.
    intros pid. split; [by intros ?%elem_of_nil|]. by intros (t & ? & _). }
  set (st2 := emit (EvStart seed) st1).
  assert (Hq2 : quiet 0 ""%string st1 st2) by (by apply quiet_emit).
  assert (Hc2 : Core opts st2).
  { eapply Core_quiet; [exact Hc1|exact Hq2|]. left. apply emit_fields. }
  split; [done|]. split; [|split].
  - eapply (Core_quiet opts 0 ""%string); [exact Hc2|apply quiet_queue_push|by left].
  - unfold Known. simpl. constructor; [done|].
    unfold st2. rewrite emit_log. simpl. rewrite Hl.
    apply Forall_app. split; [destruct (_ && _)|]; repeat constructor.
  - simpl. unfold st2. rewrite emit_log, completed_app. simpl. rewrite Hl.
    by destruct (_ && _).
Qed.

Lemma entering_Wider seed st0 : idle st0 → Wider opts (entering seed st0).
Proof.
  intros Hi. destruct (run_start seed st0 Hi) as (_ & Hc & Hk & Hcomp).
  destruct Hi as (Hr & Ht & Hl). unfold entering.
  set (st1 := set_isRunning true _) in *.
  destruct (emit_fields (EvStart seed) st1) as (Ev & Eb & Et & Ea & Em).
  pose proof (emit_log (EvStart seed) st1) as El.
  set (s := if calls_stop (EvStart seed) && isRunning st1
            then [ObsEmit EvStopped (length (activePromises st1))] else [])
    in El.
  assert (Hs : Forall (λ o, live o = false) s)
    by (subst s; destruct (_ && _); repeat constructor).
  simpl in El. rewrite Hl in El.
  split; simpl; rewrite ?Ev, ?Eb, ?Et, ?Ea; simpl; rewrite ?Ht;
    try (by constructor).
  - rewrite emit_isRunning. intros [_ Hcs%negb_true_iff]%andb_true_iff.
    rewrite El. subst s. by rewrite Hcs.
  - split; [done|]. rewrite El. by apply dormant_app.
  - constructor; [done|]. rewrite El. apply Forall_app. split.
    + subst s. destruct (_ && _); repeat constructor.
    + by repeat constructor.
  - lia.
  - by intros pid t ?.
  - rewrite El, errors_app. subst s. by destruct (_ && _).
  - constructor; [done|]. rewrite El. apply Forall_app. split.
    + subst s. destruct (_ && _); repeat constructor.
    + by repeat constructor.
  - constructor; [done|]. rewrite El. apply Forall_app. split.
    + subst s. destruct (_ && _); repeat constructor.
    + by repeat constructor.
  - rewrite El. subst s. unfold stops. destruct (_ && _); simpl; lia.
  - rewrite completions_completed; [lia|exact Hcomp].
  - intros v b n Hin. by apply not_completed in Hin.
Qed.

Lemma run_Wider seed st0 :
  idle st0 →
  Wider opts (run opts seed st0).2 ∧ race_ok opts (run opts seed st0).2.
Proof.
  intros Hi. destruct (run_start seed st0 Hi) as (-> & Hc & Hk & Hcomp).
  apply turn_Wider; try done. exact (entering_Wider seed st0 Hi).
Qed.

Lemma run_resume_Wider st :
  Inv opts st → Wider opts st → main st = MProcessQueueReturned →
  Wider opts (run_resume st) ∧ race_ok opts (run_resume st).
Proof.
  intros (Hc & Hk & Hm) Hw Hmain. split; [|done].
  unfold main_ok in Hm. rewrite Hmain in Hm. destruct Hm as [Hd Hq].
  unfold run_resume. destruct (isRunning st) eqn:Hr.
  - set (e := EvComplete (visited st) (brokenLinks st)).
    destruct (emit_fields e st) as (Ev & Eb & Et & Ea & Em).
    pose proof (emit_log e st) as El.
    set (s := if calls_stop e && isRunning st
              then [ObsEmit EvStopped (length (activePromises st))] else [])
      in El.
    assert (Hs : Forall (λ o, live o = false) s)
      by (subst s; destruct (_ && _); repeat constructor).
    destruct (Hq eq_refl) as [Hq1 Ha1].
    split; simpl; rewrite ?Ev, ?Eb, ?Et, ?Ea; try apply Hw; try done.
    + rewrite El. apply dormant_app; [done|]. simpl.
      split; [intros _; by apply (w_halted _ _ Hw)|apply Hw].
    + rewrite El. apply Forall_app. split.
      * subst s. destruct (_ && _); repeat constructor.
      * constructor; [done|]. apply Hw.
    + intros p t Hp. destruct (emit_fetches p e st) as [Ef Ed].
      eapply capped_frame; [exact Ef|exact Ed|by apply (w_capped _ _ Hw)].
    + rewrite El, errors_app. simpl.
      assert (errors s = []) as -> by (subst s; by destruct (_ && _)).
      apply Hw.
    + rewrite El. apply Forall_app. split.
      * subst s. destruct (_ && _); repeat constructor.
      * constructor; [done|]. apply Hw.
    + rewrite El. apply Forall_app. split.
      * subst s. destruct (_ && _); repeat constructor.
      * constructor; [done|]. apply Hw.
    + rewrite El, stops_app.
      assert (stops (ObsEmit e (length (activePromises st)) :: log st)
              = 0%nat) as ->
        by (apply stops_stopped; simpl; by apply (w_halted _ _ Hw)).
      subst s. unfold stops. destruct (_ && _); simpl; lia.
    + rewrite El, completions_app.
      assert (completions s = 0%nat) as ->
        by (subst s; by destruct (_ && _)).
      unfold completions. simpl. fold (completions (log st)).
      rewrite (completions_completed _ Hd). lia.
    + intros v b n Hin. rewrite El in Hin.
      apply elem_of_app in Hin as [Hin|Hin].
      { subst s. destruct (_ && _); [|by apply elem_of_nil in Hin].
        by apply list_elem_of_singleton in Hin. }
      apply elem_of_cons in Hin as [Hin|Hin];
        [|by apply not_completed in Hin].
      injection Hin as -> -> ->. rewrite emit_queue, Hq1, Ha1.
      repeat split; try done. by destruct (_ && _).
  - split; simpl; try apply Hw; try done.
    intros v b n Hin. by apply not_completed in Hin.
Qed.

Lemma stop_Wider st :
  Inv opts st → Wider opts st → Wider opts (stop st).
Proof.
  intros (Hc & Hk & Hm) Hw. unfold stop.
  destruct (isRunning st) eqn:Hr; [|done].
  split; simpl; try apply Hw; try done.
  - split; [done|apply Hw].
  - constructor; [done|apply Hw].
  - constructor; [done|apply Hw].
  - constructor; [done|apply Hw].
  - unfold stops. simpl. fold (stops (log st)).
    rewrite (stops_stopped (log st)); [lia|]. by apply (w_halted _ _ Hw).
  - intros v b n [Hin|Hin]%elem_of_cons; [done|]. exfalso.
    destruct (w_complete _ _ Hw _ _ _ Hin) as (Hmain & _).
    unfold main_ok in Hm. rewrite Hmain in Hm.
    destruct Hm as (_ & Hr' & _). congruence.
Qed.

Lemma on_task_Wider pid ta t st st1 pc :
  Inv opts st → Counts opts st → Wider opts st → race_ok opts st →
  tasks st !! pid = Some t →
  task_step opts pid (t_item t) (t_pc t) ta st = Some (st1, pc) →
  Wider opts
    (set_tasks (<[pid := {| t_item := t_item t; t_pc := pc |}]> (tasks st1)) st1) ∧
  race_ok opts
    (set_tasks (<[pid := {| t_item := t_item t; t_pc := pc |}]> (tasks st1)) st1).
Proof.
  intros HI Hn Hw Hrace Ht Hs. split.
  - assert (Hcase : t_pc t = Returned ∨ t_pc t ≠ Returned)
      by (destruct (t_pc t); auto).
    destruct Hcase as [E|E]; [|by eapply Wider_turn].
    rewrite E in Hs. destruct ta; try done. simpl in Hs.
    some_pair Hs st1 pc. exact (Wider_finally pid t st Hw Ht E).
  - assert (Hsame : main st1 = main st ∧ tasks st1 = tasks st).
    { apply task_step_effect in Hs as (_ & [(_ & Hq)|(_ & ->)]); [|done].
      split; apply Hq. }
    destruct Hsame as [Em Et]. unfold race_ok in *. simpl.
    by rewrite Em, length_insert, Et.
Qed.

Lemma step_Wider st a st' :
  Inv opts st → Counts opts st → Wider opts st → race_ok opts st →
  step opts st a = Some st' → Wider opts st' ∧ race_ok opts st'.
Proof.
  intros HI Hn Hw Hrace. unfold step.
  destruct (main st) eqn:Hmain; try done;
    (destruct a as [pid ta| | |];
     [destruct (tasks st !! pid) as [t|] eqn:Hlk; [|done];
      destruct (task_step _ _ _ _ _ _) as [[st1 pc]|] eqn:Hs; [|done];
      intros [= <-]; by eapply on_task_Wider
     |try done..
     |intros [= <-]; split; [by apply stop_Wider|];
      destruct (stop_fields st) as (_ & _ & Et & _ & Em & _);
      unfold race_ok in *; by rewrite Em, Et]).
  - destruct (existsb _ _); [|done]. intros [= <-].
    destruct HI as (Hc & Hk & Hm). unfold main_ok in Hm. rewrite Hmain in Hm.
    by apply turn_Wider.
  - intros [= <-]. by apply run_resume_Wider.
Qed.

Lemma exec_Wider schedule :
  ∀ st st', Inv opts st → Counts opts st → Wider opts st → race_ok opts st →
            exec opts st schedule = Some st' →
            Wider opts st' ∧ race_ok opts st'.
Proof.
  induction schedule as [|a schedule IH]; intros st st' HI Hn Hw Hrace; simpl.
  - by intros [= <-].
  - destruct (step opts st a) as [st1|] eqn:Hs; [|done].
    destruct (step_Wider _ _ _ HI Hn Hw Hrace Hs) as [Hw1 Hrace1].
    apply IH; try done; [by eapply step_Inv|by eapply step_Counts].
Qed.

Lemma reachable_Wider st :
  reachable opts st → Wider opts st ∧ race_ok opts st.
Proof.
  intros (st0 & seed & schedule & Hi & H).
  destruct (run_Wider seed st0 Hi) as [Hw Hrace].
  eapply exec_Wider; [by apply run_Inv|by apply run_Counts|done|done|exact H].
Qed.

(** ** Where the crawl goes *)

Section Crawl.
Variable seed : string.

Lemma sourced_mono vs vs' q :
  (∀ x, x ∈ vs → x ∈ vs') → sourced opts seed vs q → sourced opts seed vs' q.
Proof.
  intros Hsub [->|(p & Hp & Hin & H)]; [by left|].
  right. exists p. split; [done|]. split; [by apply Hsub|done].
Qed.

(** A step that enqueues nothing and starts no check. *)
Lemma Confined_frame st st' :
  Confined opts seed st →
  enqs (log st') = enqs (log st) →
  (∀ x, x ∈ visited st → x ∈ visited st') →
  (∀ q, q ∈ queue st' → q ∈ queue st) →
  tasks st' = tasks st →
  Confined opts seed st'.
Proof.
  intros [Ho Hs Hq Ht Hx] He Hv Hq' Ht'. split; rewrite ?He, ?Ht'; try done.
  - eapply Forall_impl; [|exact Hs]. intros q. by apply sourced_mono.
  - apply list.Forall_forall. intros q Hin.
    by apply (proj1 (list.Forall_forall _ _) Hq), Hq'.
Qed.

Lemma linked_onsite u base links item q :
  jsURL (url item) = Some base → isRecursive item = true →
  onsite seed item →
  linked opts u (origin base) links q → onsite seed q.
Proof.
  intros Hb Hrec Hitem (_ & _ & _ & l & Hl & Hr) Hq. right.
  rewrite Hq in Hr. symmetry in Hr. apply String.eqb_eq in Hr.
  unfold same_origin in *. rewrite Hl.
  destruct (Hitem Hrec) as [<-|Hso].
  - rewrite Hb. by apply String.eqb_eq.
  - unfold same_origin in Hso. rewrite Hb in Hso.
    destruct (jsURL seed) as [s|]; [|done].
    apply String.eqb_eq in Hso. apply String.eqb_eq. congruence.
Qed.

Lemma linked_sourced u baseOrigin html base vs q :
  u ∈ vs → linked opts u baseOrigin (extractLinks html base) q →
  sourced opts seed vs q.
Proof.
  intros Hu (Hp & Hin & Hig & l & Hl & _). right. exists u.
  split; [done|]. split; [done|].
  apply extractLinks_spec in Hin as (h & resolved & _ & _ & _ & _ & Hpre & Heq).
  split; [by rewrite Heq|]. split; [by rewrite Hl|done].
Qed.

Lemma Confined_turn pid ta t st st1 pc :
  Core opts st → Confined opts seed st → tasks st !! pid = Some t →
  task_step opts pid (t_item t) (t_pc t) ta st = Some (st1, pc) →
  t_pc t ≠ Returned →
  Confined opts seed
    (set_tasks (<[pid := {| t_item := t_item t; t_pc := pc |}]> (tasks st1)) st1).
Proof.
  intros Hc [Ho Hs Hq Ht Hx] Hlk Hstep Hpc.
  destruct (task_step_does _ _ _ _ _ _ _ Hstep Hpc)
    as (bs & new & (d & [Fv Ft Fa Fm Fb Fl Fr Fq Fs] & Hd & Hnew & _ & _) & _ & _ & _
        & Htext & Hlinks).
  assert (Hitem : t_item t ∈ enqs (log st))
    by exact (Forall_lookup_1 _ _ _ _ Ht Hlk).
  assert (Hvis : url (t_item t) ∈ visited st)
    by exact (Forall_lookup_1 _ _ _ _ (c_tasks _ _ Hc) Hlk).
  assert (He : enqs (log st1) = rev new ++ enqs (log st))
    by (by rewrite Fl, enqs_app, Hnew).
  assert (Hsub : ∀ q, q ∈ enqs (log st) → q ∈ enqs (log st1)).
  { intros q Hin. rewrite He. apply elem_of_app. by right. }
  split; simpl.
  - rewrite He. apply Forall_app. split; [|done].
    destruct Hlinks as [->|(resp & base & html & Epc & Hb & Hl)]; [done|].
    apply list.Forall_forall. intros q Hin.
    apply list_elem_of_In, in_rev, list_elem_of_In in Hin.
    eapply linked_onsite;
      [exact Hb| | |exact (proj1 (list.Forall_forall _ _) Hl q Hin)].
    + exact (Forall_lookup_1 _ _ _ _ Hx Hlk resp Epc).
    + exact (proj1 (list.Forall_forall _ _) Ho _ Hitem).
  - rewrite He, Fv. apply Forall_app. split; [|done].
    destruct Hlinks as [->|(resp & base & html & Epc & Hb & Hl)]; [done|].
    apply list.Forall_forall. intros q Hin.
    apply list_elem_of_In, in_rev, list_elem_of_In in Hin.
    eapply linked_sourced;
      [exact Hvis|exact (proj1 (list.Forall_forall _ _) Hl q Hin)].
  - apply list.Forall_forall. intros q Hin.
    destruct (Fq q Hin) as [Hin'|Hin'].
    + by apply Hsub, (proj1 (list.Forall_forall _ _) Hq).
    + rewrite Fl, enqs_app. apply elem_of_app. by left.
  - rewrite Ft. apply Forall_insert; [|by apply Hsub].
    eapply Forall_impl; [|exact Ht]. intros t'. apply Hsub.
  - rewrite Ft. apply Forall_insert; [done|]. simpl. exact Htext.
Qed.

Lemma Confined_finally pid t st :
  Confined opts seed st → tasks st !! pid = Some t →
  Confined opts seed
    (set_tasks (<[pid := {| t_item := t_item t; t_pc := Done |}]> (tasks st))
       (set_activePromises (Promises_delete pid (activePromises st)) st)).
Proof.
  intros [Ho Hs Hq Ht Hx] Hlk. split; simpl; try done.
  - apply Forall_insert; [done|]. exact (Forall_lookup_1 _ _ _ _ Ht Hlk).
  - by apply Forall_insert.
Qed.

Lemma iter_not_text pid u i lastError st resp :
  (fetchWithRetry_iter opts pid u i lastError st).2 ≠ InText resp.
Proof.
  unfold fetchWithRetry_iter, fetchWithRetry_catch.
  by destruct (_ <? _); [destruct (jsURL _); [|destruct (_ <? _)]|].
Qed.

Lemma Confined_dispatch item rest st :
  Confined opts seed st → queue st = item :: rest → isRunning st = true →
  Set_has (url item) (visited st) = false →
  Confined opts seed (dispatch opts item (set_queue rest st)).
Proof.
  intros [Ho Hs Hq Ht Hx] Hqueue Hr Hu. unfold dispatch.
  set (st1 := visited_add (url item) (set_queue rest st)).
  rewrite checkSingleUrl_start_running by done.
  set (e := EvLinkStart (url item) (parentUrl item)).
  set (pid := length (tasks st1)).
  destruct (emit_fields e st1) as (Ev & Eb & Et & Ea & Em).
  pose proof (emit_log e st1) as El.
  pose proof (emit_queue e st1) as Eq.
  pose proof (iter_not_text pid (url item) 0 None (emit e st1)) as Hnt.
  destruct (does_fetchWithRetry_iter pid item 0 None (emit e st1))
    as (d & [Fv Ft Fa Fm Fb Fl Fr Fq Fs] & Hd & Hnew & _ & _).
  destruct (fetchWithRetry_iter _ _ _ _ _ _) as [st3 pc]. simpl in *.
  rewrite Hqueue in Hq. apply list.Forall_cons in Hq as [Hitem Hrest].
  assert (He : enqs (log st3) = enqs (log st)).
  { rewrite Fl, El, !enqs_app, Hnew. simpl. by destruct (_ && _). }
  split; simpl; rewrite ?He; try done.
  - rewrite Fv, Ev. simpl. eapply Forall_impl; [|exact Hs].
    intros q. apply sourced_mono. intros x Hx'. unfold Set_add. rewrite Hu.
    apply elem_of_app. by left.
  - apply list.Forall_forall. intros q Hin.
    destruct (Fq q Hin) as [Hin'|Hin'];
      [|rewrite Hnew in Hin'; by apply elem_of_nil in Hin'].
    rewrite Eq in Hin'. destruct (_ && _); [by apply elem_of_nil in Hin'|].
    by apply (proj1 (list.Forall_forall _ _) Hrest).
  - rewrite Ft, Et. simpl. apply Forall_app. split; [done|].
    by repeat constructor.
  - rewrite Ft, Et. simpl. apply Forall_app. split; [done|].
    repeat constructor. simpl. intros resp Hpc. by apply Hnt in Hpc.
Qed.

Lemma inner_Confined fuel st :
  Core opts st → Known st → Confined opts seed st →
  Confined opts seed (processQueue_inner opts fuel st).
Proof.
  revert st. induction fuel as [|fuel IH]; intros st Hc Hk Hcf; simpl; [done|].
  destruct (inner_guard opts st) eqn:Hg; [|done].
  destruct (queue st) as [|item rest] eqn:Hq; [done|]. simpl.
  destruct (Set_has (url item) (visited st) || shouldIgnore opts (url item))
    eqn:Hu.
  - apply IH; [by eapply Core_skip|done|].
    eapply Confined_frame; [exact Hcf|done|done| |done].
    simpl. intros q Hin. rewrite Hq. by right.
  - apply orb_false_iff in Hu as [Hu Hig].
    pose proof (inner_guard_true _ _ Hg) as (Hr & _).
    apply IH; [by apply Core_dispatch|by apply Known_dispatch|].
    by apply Confined_dispatch.
Qed.

Lemma turn_Confined st :
  Core opts st → Known st → Confined opts seed st →
  Confined opts seed (processQueue_turn opts st).
Proof.
  intros Hc Hk Hcf. unfold processQueue_turn.
  assert (Hmain : ∀ m s, Confined opts seed s → Confined opts seed (set_main m s))
    by (intros m s H; by eapply Confined_frame).
  destruct (outer_guard st); [|by apply Hmain].
  pose proof (inner_Confined (length (queue st)) st Hc Hk Hcf) as H1.
  destruct (nonempty _); [|destruct (outer_guard _)]; by apply Hmain.
Qed.

Lemma run_Confined st0 : idle st0 → Confined opts seed (run opts seed st0).2.
Proof.
  intros Hi. destruct (run_start seed st0 Hi) as (-> & Hc & Hk & _).
  destruct Hi as (Hr & Ht & Hl).
  apply turn_Confined; try done.
  set (st1 := set_isRunning true _) in *.
  destruct (emit_fields (EvStart seed) st1) as (Ev & Eb & Et & Ea & Em).
  pose proof (emit_log (EvStart seed) st1) as El.
  pose proof (emit_queue (EvStart seed) st1) as Eq.
  assert (He : enqs (log (emit (EvStart seed) st1)) = []).
  { rewrite El, enqs_app. simpl. rewrite Hl. by destruct (_ && _). }
  split; simpl; rewrite ?He, ?Et; simpl; rewrite ?Ht; try done.
  - constructor; [|done]. intros _. by left.
  - constructor; [by left|done].
  - rewrite Eq. simpl. destruct (_ && _); repeat constructor.
Qed.

Lemma stop_enqs st : enqs (log (stop st)) = enqs (log st).
Proof. rewrite stop_log, enqs_app. by destruct (isRunning st). Qed.

Lemma stop_queue st q : q ∈ queue (stop st) → q ∈ queue st.
Proof.
  unfold stop. destruct (isRunning st); [|done]. simpl.
  by intros ?%elem_of_nil.
Qed.

Lemma step_Confined st a st' :
  Inv opts st → Confined opts seed st → step opts st a = Some st' →
  Confined opts seed st'.
Proof.
  intros HI Hcf. pose proof HI as (Hc & Hk & Hm). unfold step.
  destruct (main st) eqn:Hmain; try done;
    (destruct a as [pid ta| | |];
     [destruct (tasks st !! pid) as [t|] eqn:Hlk; [|done];
      destruct (task_step _ _ _ _ _ _) as [[st1 pc]|] eqn:Hs; [|done];
      intros [= <-];
      (assert (Hcase : t_pc t = Returned ∨ t_pc t ≠ Returned)
         by (destruct (t_pc t); auto));
      destruct Hcase as [E|E]; [|by eapply Confined_turn];
      rewrite E in Hs; destruct ta; try done; simpl in Hs;
      some_pair Hs st1 pc; exact (Confined_finally pid t st Hcf Hlk)
     |try done..
     |intros [= <-];
      eapply Confined_frame;
        [exact Hcf|apply stop_enqs| |apply stop_queue|apply stop_fields];
      destruct (stop_fields st) as (-> & _); auto]).
  - destruct (existsb _ _); [|done]. intros [= <-]. by apply turn_Confined.
  - intros [= <-]. unfold run_resume.
    destruct (isRunning st).
    + set (e := EvComplete (visited st) (brokenLinks st)).
      destruct (emit_fields e st) as (Ev & Eb & Et & Ea & Em).
      eapply Confined_frame; [exact Hcf| | | |]; simpl; rewrite ?Ev, ?Et; auto.
      * rewrite emit_log, enqs_app. simpl. by destruct (_ && _).
      * intros q. rewrite emit_queue. destruct (_ && _); [|done].
        by intros ?%elem_of_nil.
    + by eapply Confined_frame.
Qed.

Lemma exec_Confined schedule :
  ∀ st st', Inv opts st → Confined opts seed st →
            exec opts st schedule = Some st' → Confined opts seed st'.
Proof.
  induction schedule as [|a schedule IH]; intros st st' HI Hcf; simpl.
  - by intros [= <-].
  - destruct (step opts st a) as [st1|] eqn:Hs; [|done].
    apply IH; [by eapply step_Inv|by eapply step_Confined].
Qed.

Lemma crawl_reachable st : crawl opts seed st → reachable opts st.
Proof. intros (st0 & schedule & Hi & H). by exists st0, seed, schedule. Qed.

Lemma crawl_Confined st : crawl opts seed st → Confined opts seed st.
Proof.
  intros (st0 & schedule & Hi & H).
  eapply exec_Confined; [by apply run_Inv|by apply run_Confined|exact H].
Qed.

End Crawl.

(** ** What the invariants say *)

Lemma dormant_split l1 n l2 :
  dormant (l1 ++ ObsEmit EvStopped n :: l2) → ∀ o, o ∈ l1 → live o = false.
Proof.
  induction l1 as [|x l1 IH]; simpl; [by intros _ o ?%elem_of_nil|].
  intros [Hx Hd] o [->|Hin]%elem_of_cons; [|by apply IH].
  destruct (live x); [|done].
  specialize (Hx eq_refl). rewrite stopped_app in Hx. simpl in Hx.
  by rewrite orb_true_r in Hx.
Qed.

(** X1. Once [stopped] has been emitted, [isRunning] is false and the run
    claims nothing more: no entry logged after a [stopped] is a
    [visited.add], a [link:start] or a [complete].  Checks in flight still
    report. *)
Theorem stopped_run_claims_nothing st :
  reachable opts st →
  (stopped (log st) = true → isRunning st = false) ∧
  ∀ l1 n l2, log st = l1 ++ ObsEmit EvStopped n :: l2 →
             ∀ o, o ∈ l1 → live o = false.
Proof.
  intros Hr. destruct (reachable_Wider st Hr) as [Hw _]. split.
  - intros Hs. destruct (isRunning st) eqn:E; [|done].
    rewrite (w_halted _ _ Hw E) in Hs. done.
  - intros l1 n l2 Hl. apply (dormant_split l1 n l2). rewrite <- Hl. apply Hw.
Qed.

(** X2. A URL that [shouldIgnore] matches is never added to the visited
    set, never announced by [link:start], never fetched and never reported
    broken. *)
Theorem ignored_url_never_checked st u :
  reachable opts st → shouldIgnore opts u = true →
  (u ∉ visited st) ∧ (u ∉ starts (log st)) ∧
  (∀ pid, ObsFetch pid u ∉ log st) ∧
  (∀ b, b ∈ brokenLinks st → bl_url b ≠ u).
Proof.
  intros Hr Hig. destruct (reachable_Wider st Hr) as [Hw _].
  destruct (reachable_Inv opts st Hr) as (Hc & _ & _).
  assert (Hv : u ∉ visited st).
  { intros Hin.
    apply (proj1 (list.Forall_forall _ _) (w_ignored _ _ Hw)) in Hin.
    congruence. }
  split; [done|]. split; [|split].
  - intros Hin. apply Hv. rewrite (c_visited _ _ Hc), <- (c_starts _ _ Hc).
    by apply list_elem_of_In, in_rev, list_elem_of_In in Hin.
  - intros pid Hin.
    apply (proj1 (list.Forall_forall _ _) (w_fetch _ _ Hw)) in Hin
      as (t & Ht & Hu).
    apply Hv. rewrite <- Hu.
    exact (Forall_lookup_1 _ _ _ _ (c_tasks _ _ Hc) Ht).
  - intros b Hb <-. apply Hv.
    exact (proj1 (list.Forall_forall _ _) (c_broken _ _ Hc) b Hb).
Qed.


(** *** How often a check fetches *)

Lemma requests_one_check st pid t :
  Core opts st → Wider opts st → tasks st !! pid = Some t →
  requests (url (t_item t)) (log st) = fetches pid (log st).
Proof.
  intros Hc Hw Ht. unfold requests, fetches. f_equal.
  apply List.filter_ext_in. intros o Hin. apply list_elem_of_In in Hin.
  apply (proj1 (list.Forall_forall _ _) (w_fetch _ _ Hw)) in Hin.
  destruct o as [| | |p v|]; try done. simpl in Hin.
  destruct Hin as (t' & Ht' & Hv).
  destruct (String.eqb_spec v (url (t_item t))) as [E|E];
    destruct (Nat.eqb_spec p pid) as [E'|E']; try done.
  - exfalso. apply E'. eapply one_check; eauto. congruence.
  - exfalso. apply E. subst p. congruence.
Qed.

Lemma requests_unknown st u :
  Wider opts st → (∀ pid t, tasks st !! pid = Some t → url (t_item t) ≠ u) →
  requests u (log st) = 0%nat.
Proof.
  intros Hw Hno. unfold requests.
  rewrite (List.filter_ext_in _ (λ _, false)); [by rewrite filter_false|].
  intros o Hin. apply list_elem_of_In in Hin.
  apply (proj1 (list.Forall_forall _ _) (w_fetch _ _ Hw)) in Hin.
  destruct o as [| | |p v|]; try done. simpl in Hin.
  destruct Hin as (t' & Ht' & Hv).
  apply String.eqb_neq. intros ->. by eapply Hno.
Qed.

Lemma check_bounded st pid :
  Known st → Counts opts st → Wider opts st →
  Z.of_nat (fetches pid (log st)) ≤ Z.max 0 (retries opts) ∧
  Z.of_nat (delays pid (log st)) ≤ Z.max 0 (retries opts - 1).
Proof.
  intros Hk Hn Hw. destruct (tasks st !! pid) as [t|] eqn:Ht.
  - specialize (Hn _ _ Ht). pose proof (w_capped _ _ Hw _ _ Ht) as Hcap.
    unfold counted, capped in *. destruct (t_pc t); try done; lia.
  - apply lookup_ge_None in Ht.
    destruct (Known_fresh st pid Hk Ht) as [-> ->]. lia.
Qed.

(** X4. In every state of a run started on an instance with no check of an
    earlier run in flight, whatever fails and in whatever order the checks
    are resumed, one check has called [fetch] at most [retries] times and
    has waited for at most [retries - 1] retry delays, and no URL has been
    fetched more than [retries] times.  (A check left in flight by an
    earlier, stopped run fetches its URL on its own account.) *)
Theorem fetches_and_delays_bounded st :
  reachable opts st →
  (∀ pid, Z.of_nat (fetches pid (log st)) ≤ Z.max 0 (retries opts) ∧
          Z.of_nat (delays pid (log st)) ≤ Z.max 0 (retries opts - 1)) ∧
  ∀ u, Z.of_nat (requests u (log st)) ≤ Z.max 0 (retries opts).
Proof.
  intros Hr. destruct (reachable_Wider st Hr) as [Hw _].
  destruct (reachable_Inv opts st Hr) as (Hc & Hk & _).
  pose proof (reachable_Counts opts st Hr) as Hn.
  split; [intros pid; by apply check_bounded|].
  intros u. destruct (decide (u ∈ visited st)) as [Hu|Hu].
  - rewrite <- (w_checks _ _ Hw) in Hu.
    apply list_elem_of_fmap in Hu as (t & -> & Ht).
    apply list_elem_of_lookup in Ht as [pid Ht]. simpl.
    rewrite (requests_one_check st pid t Hc Hw Ht).
    by apply check_bounded.
  - rewrite requests_unknown; [lia|done|].
    intros pid t Ht <-. apply Hu.
    exact (Forall_lookup_1 _ _ _ _ (c_tasks _ _ Hc) Ht).
Qed.

(** *** What is reported and what is in flight *)

(** X5. In a run started on an instance with no check of an earlier run in
    flight, no URL is reported broken twice; every broken link carries the
    URL and the parent of the queue item of a check that has returned, and
    there are at most as many broken links as visited URLs.  (A check left
    in flight by an earlier, stopped run appends to [brokenLinks] without
    being visited in the new run.) *)
Theorem broken_links_reported_once st :
  reachable opts st →
  NoDup (bl_url <$> brokenLinks st) ∧
  (∀ b, b ∈ brokenLinks st →
        ∃ pid t, tasks st !! pid = Some t ∧
          url (t_item t) = bl_url b ∧ parentUrl (t_item t) = bl_parentUrl b ∧
          (t_pc t = Returned ∨ t_pc t = Done)) ∧
  (length (brokenLinks st) ≤ length (visited st))%nat.
Proof.
  intros Hr. destruct (reachable_Wider st Hr) as [Hw _].
  destruct (reachable_Inv opts st Hr) as (Hc & _ & _).
  split; [apply Hw|]. split.
  - intros b Hb. exact (proj1 (list.Forall_forall _ _) (w_broken _ _ Hw) b Hb).
  - rewrite <- (length_fmap bl_url). apply submseteq_length.
    apply NoDup_submseteq; [apply Hw|].
    intros u (b & -> & Hb)%list_elem_of_fmap.
    exact (proj1 (list.Forall_forall _ _) (c_broken _ _ Hc) b Hb).
Qed.

(** X6. At every moment of a run started on an instance with no check of
    an earlier run in flight, the promises in [activePromises] are
    distinct, they are the checks whose [finally] callback has not run, and
    there are at most [concurrency] of them.  (Checks left in flight by an
    earlier, stopped run are not in the set, [run] has cleared it.) *)
Theorem active_checks_bounded st :
  reachable opts st →
  NoDup (activePromises st) ∧
  Z.of_nat (length (activePromises st)) ≤ Z.max 0 (concurrency opts) ∧
  ∀ pid, pid ∈ activePromises st ↔
         ∃ t, tasks st !! pid = Some t ∧ t_pc t ≠ Done.
Proof.
  intros Hr. destruct (reachable_Wider st Hr) as [Hw _].
  destruct (reachable_Inv opts st Hr) as (Hc & _ & _).
  split; [apply Hw|]. split; [apply Hw|apply Hc].
Qed.


(** *** The run goes on until it returns *)

Lemma next_enabled pid item pc r ta st :
  next pc r = Some ta → is_Some (task_step opts pid item pc ta st).
Proof.
  destruct pc; simpl; intros [= <-]; simpl; try done. by destruct r.
Qed.

(** X8. With a positive [concurrency] the dispatch loop never spins, and a
    run that has not returned is never stuck: a fetch, a timer or a
    continuation is pending, so [processQueue] never awaits a race that
    cannot settle. *)
Theorem run_never_stalls st :
  reachable opts st → 0 < concurrency opts →
  main st ≠ MSpin ∧
  ((∃ v, main st = MReturned v) ∨
   ∃ a, a ≠ CallStop ∧ is_Some (step opts st a)).
Proof.
  intros Hr Hpos. destruct (reachable_Wider st Hr) as [Hw Hrace].
  destruct (reachable_Inv opts st Hr) as (Hc & _ & Hm).
  unfold race_ok, main_ok, step in *.
  destruct (main st) as [|ps| | |v] eqn:Hmain; try done.
  - split; [done|]. right. destruct Hrace as [Hne Hps].
    destruct ps as [|p ps]; [done|]. apply list.Forall_cons in Hps as [Hp _].
    apply lookup_lt_is_Some in Hp as [t Ht].
    destruct (next (t_pc t) (Rejected "timeout")) as [ta|] eqn:Hn.
    + exists (OnTask p ta). split; [done|]. rewrite Ht.
      destruct (next_enabled p (t_item t) _ _ _ st Hn) as [[st1 pc] ->]. done.
    + exists RaceSettles. split; [done|].
      assert (Hd : is_done st p = true).
      { unfold is_done. rewrite Ht. destruct t as [item pc]. simpl in Hn.
        by destruct pc. }
      simpl. by rewrite Hd.
  - lia.
  - split; [done|]. right. by exists RunResumes.
  - split; [done|]. left. by exists v.
Qed.

(** *** Where the crawl goes *)

(** X9. In a run from [seed] started on an instance with no check of an
    earlier run in flight, a check whose item is marked recursive, and so
    every check that awaits [response.text()], was queued under the seed
    URL or under a URL with the origin of the seed.  The property is about
    the URL the item was queued under: when that URL is redirected, the
    body that is read may come from another origin. *)
Theorem crawl_stays_on_seed_origin seed st pid t :
  crawl opts seed st → tasks st !! pid = Some t →
  (isRecursive (t_item t) = true →
   url (t_item t) = seed ∨ same_origin (url (t_item t)) seed = true) ∧
  (∀ resp, t_pc t = InText resp →
   url (t_item t) = seed ∨ same_origin (url (t_item t)) seed = true).
Proof.
  intros Hcr Ht. destruct (crawl_Confined seed st Hcr) as [Ho _ _ Hts Hx].
  pose proof (Forall_lookup_1 _ _ _ _ Hts Ht) as Hin.
  pose proof (proj1 (list.Forall_forall _ _) Ho _ Hin) as Hon.
  split; [exact Hon|].
  intros resp Hpc. apply Hon. exact (Forall_lookup_1 _ _ _ _ Hx Ht resp Hpc).
Qed.

(** X10. In a run from [seed] started on an instance with no check of an
    earlier run in flight, every visited URL other than the seed starts
    with the letters "http", is accepted by [new URL], and belongs to a
    check whose parent is a visited URL.  So a [mailto:], [tel:] or
    [javascript:] link of a page is never checked.  (A check left in
    flight by an earlier, stopped run queues the links of its own page,
    which the new run has not visited.) *)
Theorem visited_urls_come_from_pages seed st u :
  crawl opts seed st → u ∈ visited st →
  u = seed ∨
  (String.prefix "http" u = true ∧ is_Some (jsURL u) ∧
   ∃ pid t p, tasks st !! pid = Some t ∧ url (t_item t) = u ∧
              parentUrl (t_item t) = Some p ∧ p ∈ visited st).
Proof.
  intros Hcr Hu. destruct (crawl_Confined seed st Hcr) as [_ Hs _ Hts _].
  destruct (reachable_Wider st (crawl_reachable seed st Hcr)) as [Hw _].
  rewrite <- (w_checks _ _ Hw) in Hu.
  apply list_elem_of_fmap in Hu as (t & Hu & Ht). simpl in Hu. subst u.
  pose proof (proj1 (list.Forall_forall _ _) Hts _ Ht) as Hin.
  destruct (proj1 (list.Forall_forall _ _) Hs _ Hin)
    as [E|(p & Hp & Hv & Hpre & Hurl & _)]; [left; by rewrite E|].
  right. split; [done|]. split; [done|].
  apply list_elem_of_lookup in Ht as [pid Ht]. by exists pid, t, p.
Qed.

(** *** Transient failures *)

Lemma exec_app l1 : ∀ l2 st,
  exec opts st (l1 ++ l2) =
  match exec opts st l1 with Some st1 => exec opts st1 l2 | None => None end.
Proof.
  induction l1 as [|a l1 IH]; intros l2 st; simpl; [done|].
  destruct (step opts st a); [apply IH|done].
Qed.

Lemma step_fulfil st pid item i lastError response :
  main st ≠ MSpin →
  tasks st !! pid = Some {| t_item := item; t_pc := InFetch i lastError |} →
  ∃ st', step opts st (OnTask pid (AFetch (Fulfilled response))) = Some st' ∧
         turned pid item (GotFetch (Fulfilled response)) st st' 0 0 [].
Proof.
  intros Hm Hlk. eexists. split.
  - eapply step_on_task; [done|exact Hlk|]. simpl. done.
  - repeat split; simpl; rewrite ?app_nil_r; try done; try lia.
    apply list_lookup_insert_eq. by eapply lookup_lt_Some.
Qed.

Lemma failures_run pid item message n :
  ∀ st i lastError,
    main st ≠ MSpin →
    tasks st !! pid = Some {| t_item := item; t_pc := InFetch i lastError |} →
    is_Some (jsURL (url item)) →
    i + Z.of_nat n < retries opts →
    ∃ st' lastError',
      exec opts st (failures pid message i n) = Some st' ∧
      turned pid item (InFetch (i + Z.of_nat n) lastError') st st' n n [].
Proof.
  induction n as [|n IH]; intros st i lastError Hm Hlk Hu Hn.
  - exists st, lastError. split; [done|].
    rewrite Z.add_0_r. repeat split; rewrite ?app_nil_r; try done; lia.
  - destruct (step_reject_retry opts st pid item i lastError (message i))
      as (st1 & Hs1 & Ht1); [done|done|lia|].
    pose proof Ht1 as (Hm1 & Hlk1 & _).
    destruct (step_timer opts st1 pid item i (Some (message i)))
      as (st2 & Hs2 & Ht2); [congruence|done|lia|done|].
    pose proof Ht2 as (Hm2 & Hlk2 & _).
    destruct (IH st2 (i + 1) (Some (message i)))
      as (st3 & le & Hs3 & Ht3); [congruence|done|done|lia|].
    exists st3, le. split.
    + simpl. by rewrite Hs1, Hs2.
    + pose proof (turned_trans _ _ _ _ _ _ _ _ _ _ _ _ _
                    (turned_trans _ _ _ _ _ _ _ _ _ _ _ _ _ Ht1 Ht2) Ht3) as H.
      replace (0 + 1 + n)%nat with (S n) in H by lia.
      replace (1 + 0 + n)%nat with (S n) in H by lia.
      replace (i + 1 + Z.of_nat n) with (i + Z.of_nat (S n)) in H by lia.
      exact H.
Qed.

(** X11. A fetch that fails [n] more times and then answers, with the
    attempts not used up, settles [fetchWithRetry] with the response: the
    check has then fetched [i + n + 1] times, waited [i + n] times, and no
    broken link was recorded for the failures. *)
Theorem fetch_recovers_after_failures st pid item i lastError message n
    response :
  reachable opts st →
  tasks st !! pid = Some {| t_item := item; t_pc := InFetch i lastError |} →
  i + Z.of_nat n < retries opts →
  ∃ st',
    exec opts st (failures pid message i n
                  ++ [OnTask pid (AFetch (Fulfilled response))]) = Some st' ∧
    tasks st' !! pid
    = Some {| t_item := item; t_pc := GotFetch (Fulfilled response) |} ∧
    Z.of_nat (fetches pid (log st')) = i + Z.of_nat n + 1 ∧
    Z.of_nat (delays pid (log st')) = i + Z.of_nat n ∧
    brokenLinks st' = brokenLinks st.
Proof.
  intros Hr Hlk Hn.
  destruct (reachable_Inv opts st Hr) as (Hc & _ & Hm).
  pose proof (reachable_Counts opts st Hr pid _ Hlk) as (Hu & Hi & Hf & Hd).
  simpl in Hu.
  assert (Hspin : main st ≠ MSpin).
  { intros Hs. unfold main_ok in Hm. rewrite Hs in Hm. destruct Hm as [_ Ha].
    assert (pid ∈ activePromises st) as H
      by (apply (c_active _ _ Hc); eexists; split; [exact Hlk|done]).
    rewrite Ha in H. by apply elem_of_nil in H. }
  destruct (failures_run pid item message n st i lastError)
    as (st1 & le & Hs1 & Ht1); [done|done|done|done|].
  pose proof Ht1 as (Hm1 & Hlk1 & _).
  destruct (step_fulfil st1 pid item (i + Z.of_nat n) le response)
    as (st2 & Hs2 & Ht2); [congruence|done|].
  destruct (turned_trans _ _ _ _ _ _ _ _ _ _ _ _ _ Ht1 Ht2)
    as (_ & Hlk2 & Hb & Hf2 & Hd2).
  exists st2. split; [|split; [done|]].
  - rewrite exec_app, Hs1. simpl. by rewrite Hs2.
  - rewrite Hf2, Hd2, Hb, app_nil_r. split; [lia|]. split; [lia|done].
Qed.

(** *** Links that are checked and not crawled *)

(** X12. A 2xx answer for an item that is not recursive, or whose content
    type does not contain "text/html", ends the check: [link:success] is
    emitted, the body is not read, nothing is enqueued or fetched, no
    broken link is recorded. *)
Theorem checked_but_not_crawled item response st :
  200 ≤ status response < 300 →
  isRecursive item = false ∨
  includes "text/html" (default ""%string (content_type response)) = false →
  ∃ st',
    checkSingleUrl_resume item (Fulfilled response) st = (st', Returned) ∧
    brokenLinks st' = brokenLinks st ∧ enqs (log st') = enqs (log st) ∧
    same_counts st st' ∧
    ObsEmit (EvLinkSuccess (url item) (status response) (parentUrl item))
            (length (activePromises st)) ∈ log st'.
Proof.
  intros [H1 H2] Hleaf. eexists. split.
  - unfold checkSingleUrl_resume.
    replace (200 <=? status response) with true by (symmetry; by apply Z.leb_le).
    replace (status response <? 300) with true by (symmetry; by apply Z.ltb_lt).
    simpl. destruct Hleaf as [->| ->]; [done|].
    by destruct (isRecursive item).
  - set (e := EvLinkSuccess _ _ _).
    set (p := EvProgress _ _).
    destruct (emit_fields e st) as (_ & Eb & _ & Ea & _).
    destruct (emit_fields p (emit e st)) as (_ & Eb' & _).
    split; [by rewrite Eb', Eb|]. split; [|split].
    + rewrite !emit_log, !enqs_app. simpl.
      by destruct (_ && _), (_ && _).
    + eapply same_counts_trans; apply same_counts_emit.
    + apply emit_log_mono, emit_log_self.
Qed.

(** *** Runs that check nothing *)


(** X14. With [concurrency] zero or negative [run] never returns: the
    inner loop of [processQueue] starts no check, no promise is there to
    await, and the outer loop repeats without yielding.  Nothing is
    visited and no turn of the event loop is taken. *)
Theorem nonpositive_concurrency_hangs seed st0 :
  idle st0 → concurrency opts ≤ 0 → calls_stop (EvStart seed) = false →
  main (run opts seed st0).2 = MSpin ∧
  isRunning (run opts seed st0).2 = true ∧
  visited (run opts seed st0).2 = [] ∧
  starts (log (run opts seed st0).2) = [] ∧
  ∀ a, step opts (run opts seed st0).2 a = None.
Proof.
  intros (Hr & Ht & Hl) Hneg Hcs.
  assert (Hlt : (Z.of_nat 0 <? concurrency opts) = false)
    by (by apply Z.ltb_ge).
  assert (E : (run opts seed st0).2 =
              set_main MSpin
                (queue_push (seedItem seed)
                   (observe (ObsEmit (EvStart seed) 0)
                      (set_isRunning true
                         (set_activePromises []
                            (set_queue []
                               (set_brokenLinks [] (set_visited [] st0)))))))).
  { unfold run. rewrite Hr. simpl.
    unfold processQueue_turn, outer_guard, emit. rewrite Hcs. simpl.
    unfold inner_guard. simpl. rewrite Hlt. simpl.
    unfold outer_guard. simpl. done. }
  rewrite E. simpl. rewrite Hl. by repeat split.
Qed.

(** *** What the notifications say *)


(** X17. In a run started on an instance with no check of an earlier run
    in flight, a [progress] notification never counts more broken links
    than checked URLs, and its counts never exceed the sizes the visited
    set and [brokenLinks] have later on.  (A check left in flight by an
    earlier, stopped run adds to [brokenLinks] and reports the sizes of the
    new run.) *)
Theorem progress_counts_consistent st c b n :
  reachable opts st → ObsEmit (EvProgress c b) n ∈ log st →
  (b ≤ c ∧ c ≤ length (visited st) ∧ b ≤ length (brokenLinks st))%nat.
Proof.
  intros Hr Hin. destruct (reachable_Wider st Hr) as [Hw _].
  exact (proj1 (list.Forall_forall _ _) (w_progress _ _ Hw) _ Hin).
Qed.

(** X18. In a run started on an instance with no check of an earlier run
    in flight, every [link:start], [link:success], [link:redirect] and
    [link:error] names the URL of a check of the run together with the
    parent that check was queued with.  A [retry] names the URL of a check
    of the run too, a visited URL, but never carries a parent, and none is
    sent for the last attempt: its attempt number is below [retries].  (A
    check left in flight by an earlier, stopped run sends its
    notifications about a URL the new run has not visited.) *)
Theorem notifications_name_checks st :
  reachable opts st →
  (∀ o, o ∈ log st → event_ok opts (tasks st) o) ∧
  (∀ u attempt message p n,
     ObsEmit (EvRetry u attempt message p) n ∈ log st →
     u ∈ visited st ∧ p = None ∧ attempt < retries opts).
Proof.
  intros Hr. destruct (reachable_Wider st Hr) as [Hw _].
  destruct (reachable_Inv opts st Hr) as (Hc & _ & _).
  assert (H : ∀ o, o ∈ log st → event_ok opts (tasks st) o)
    by exact (proj1 (list.Forall_forall _ _) (w_events _ _ Hw)).
  split; [done|]. intros u attempt message p n Hin.
  destruct (H _ Hin) as ((pid & t & Ht & <-) & Hp & Ha).
  split; [|done]. exact (Forall_lookup_1 _ _ _ _ (c_tasks _ _ Hc) Ht).
Qed.

(** *** The notifications of the life cycle *)

Lemma extends_refl st : extends st st.
Proof. by exists []. Qed.

Lemma extends_trans st1 st2 st3 :
  extends st1 st2 → extends st2 st3 → extends st1 st3.
Proof.
  intros (d1 & E1 & H1) (d2 & E2 & H2). exists (d2 ++ d1).
  split; [by rewrite E2, E1, app_assoc|]. apply Forall_app. by split.
Qed.

Lemma tame_unstarted pid item o : tame opts pid item o → unstarted o.
Proof. destruct o as [e n| | | |]; try done. by destruct e. Qed.

Lemma does_extends pid item st st' bs new :
  does opts pid item st st' bs new → extends st st'.
Proof.
  intros (d & He & Hd & _). exists d. split; [apply He|].
  eapply Forall_impl; [|exact Hd]. intros o. apply tame_unstarted.
Qed.

Lemma emit_extends e st : unstarted (ObsEmit e 0) → extends st (emit e st).
Proof.
  intros He.
  exists ((if calls_stop e && isRunning st
           then [ObsEmit EvStopped (length (activePromises st))] else [])
          ++ [ObsEmit e (length (activePromises st))]).
  split; [by rewrite emit_log, <- app_assoc|].
  apply Forall_app. split; [destruct (_ && _); repeat constructor|].
  constructor; [by destruct e|done].
Qed.

Lemma dispatch_extends item st :
  isRunning st = true → extends st (dispatch opts item st).
Proof.
  intros Hr. unfold dispatch.
  set (st1 := visited_add (url item) st).
  rewrite checkSingleUrl_start_running by done.
  set (e := EvLinkStart (url item) (parentUrl item)).
  pose proof (does_extends _ _ _ _ _ _
                (does_fetchWithRetry_iter (length (tasks st1)) item 0 None
                   (emit e st1))) as H3.
  destruct (fetchWithRetry_iter _ _ _ _ _ _) as [st3 pc]. simpl in H3.
  assert (H1 : extends st st1).
  { exists [ObsVisitedAdd (url item)]. split; [done|by repeat constructor]. }
  assert (H2 : extends st1 (emit e st1)) by (by apply emit_extends).
  destruct (extends_trans _ _ _ (extends_trans _ _ _ H1 H2) H3) as (d & E & H).
  by exists d.
Qed.

Lemma inner_extends fuel :
  ∀ st, extends st (processQueue_inner opts fuel st).
Proof.
  induction fuel as [|fuel IH]; intros st; simpl; [apply extends_refl|].
  destruct (inner_guard opts st) eqn:Hg; [|apply extends_refl].
  destruct (queue st) as [|item rest]; [apply extends_refl|]. simpl.
  apply inner_guard_true in Hg as (Hr & _).
  destruct (_ || _).
  - destruct (IH (set_queue rest st)) as (d & E & H). by exists d.
  - destruct (extends_trans _ _ _
                (dispatch_extends item (set_queue rest st) Hr)
                (IH (dispatch opts item (set_queue rest st)))) as (d & E & H).
    by exists d.
Qed.

Lemma turn_extends st : extends st (processQueue_turn opts st).
Proof.
  unfold processQueue_turn.
  destruct (outer_guard st); [|by exists []].
  destruct (inner_extends (length (queue st)) st) as (d & E & H).
  destruct (nonempty _); [|destruct (outer_guard _)]; by exists d.
Qed.

Lemma step_extends st a st' : step opts st a = Some st' → extends st st'.
Proof.
  unfold step.
  destruct (main st) eqn:Hmain; try done;
    (destruct a as [pid ta| | |];
     [destruct (tasks st !! pid) as [t|] eqn:Hlk; [|done];
      destruct (task_step _ _ _ _ _ _) as [[st1 pc]|] eqn:Hs; [|done];
      intros [= <-];
      (assert (Hcase : t_pc t = Returned ∨ t_pc t ≠ Returned)
         by (destruct (t_pc t); auto));
      destruct Hcase as [E|E];
      [rewrite E in Hs; destruct ta; try done; simpl in Hs;
       some_pair Hs st1 pc; by exists []
      |destruct (task_step_does _ _ _ _ _ _ _ Hs E) as (bs & new & Hd & _);
       destruct (does_extends _ _ _ _ _ _ Hd) as (d & El & H); by exists d]
     |try done..
     |intros [= <-]; eexists; split; [apply stop_log|];
      destruct (isRunning st); repeat constructor]).
  - destruct (existsb _ _); [|done]. intros [= <-]. apply turn_extends.
  - intros [= <-]. unfold run_resume. destruct (isRunning st).
    + destruct (emit_extends (EvComplete (visited st) (brokenLinks st)) st)
        as (d & El & H); [done|]. by exists d.
    + by exists [].
Qed.

Lemma Started_extends seed st st' :
  Started seed st → extends st st' → Started seed st'.
Proof.
  intros (l & El & Hl) (d & Ed & Hd). exists (d ++ l).
  split; [by rewrite Ed, El, app_assoc|]. apply Forall_app. by split.
Qed.

Lemma run_Started seed st0 : idle st0 → Started seed (run opts seed st0).2.
Proof.
  intros Hi. destruct (run_start seed st0 Hi) as (-> & _).
  destruct Hi as (Hr & Ht & Hl).
  eapply Started_extends; [|apply turn_extends].
  eexists (_ :: _). simpl. rewrite emit_log. simpl. rewrite Hl.
  rewrite app_comm_cons. split; [reflexivity|].
  constructor; [done|]. destruct (_ && _); repeat constructor.
Qed.

Lemma exec_Started seed schedule :
  ∀ st st', Started seed st → exec opts st schedule = Some st' →
            Started seed st'.
Proof.
  induction schedule as [|a schedule IH]; intros st st' Hs; simpl.
  - by intros [= <-].
  - destruct (step opts st a) as [st1|] eqn:E; [|done].
    apply IH. eapply Started_extends; [exact Hs|by eapply step_extends].
Qed.

(** X19. The notifications of the life cycle are sent once: the log of a
    run begins with its [start], which is the only one, and holds at most
    one [stopped] and at most one [complete], whatever the subscribers and
    the caller do with [stop()]. *)
Theorem lifecycle_notifications_once seed st :
  crawl opts seed st →
  (∃ l, log st = l ++ [ObsEmit (EvStart seed) 0] ∧ Forall unstarted l) ∧
  (stops (log st) ≤ 1)%nat ∧ (completions (log st) ≤ 1)%nat.
Proof.
  intros Hcr.
  destruct (reachable_Wider st (crawl_reachable seed st Hcr)) as [Hw _].
  split; [|split; apply Hw].
  destruct Hcr as (st0 & schedule & Hi & He).
  exact (exec_Started seed schedule _ _ (run_Started seed st0 Hi) He).
Qed.

(** ** C4: the concurrency bound *)





End Further_properties.

(** ** The headers of a request *)

Lemma Obj_get_set {A : Type} k k' (v : A) o :
  Obj_get k (Obj_set k' v o) = if String.eqb k k' then Some v else Obj_get k o.
Proof.
  induction o as [|[k0 v0] o IH]; simpl; [done|].
  destruct (String.eqb k' k0) eqn:E; simpl.
  - apply String.eqb_eq in E. subst k0. by destruct (String.eqb k k').
  - rewrite IH. destruct (String.eqb k k0) eqn:E0; [|done].
    apply String.eqb_eq in E0. subst k0. by rewrite String.eqb_sym, E.
Qed.

Lemma Obj_get_missing {A : Type} k (o : Obj A) : k ∉ o.*1 → Obj_get k o = None.
Proof.
  induction o as [|[k0 v0] o IH]; simpl; [done|].
  intros Hk. apply not_elem_of_cons in Hk as [Hne Hk].
  destruct (String.eqb_spec k k0); [done|by apply IH].
Qed.

(** [Object.assign]: a property of [b] wins, the others stay. *)
Lemma Obj_get_assign {A : Type} k (b : Obj A) :
  NoDup b.*1 →
  ∀ o, Obj_get k (Obj_assign o b) =
       match Obj_get k b with Some v => Some v | None => Obj_get k o end.
Proof.
  unfold Obj_assign.
  induction b as [|[k0 v0] b IH]; simpl; [done|].
  intros [Hk Hb]%list.NoDup_cons o. rewrite IH by done. rewrite Obj_get_set.
  destruct (String.eqb_spec k k0) as [->|Hne]; [|done].
  by rewrite Obj_get_missing.
Qed.

(** X15. The headers of a request are the global [headers] overridden,
    name by name, by the headers configured for the exact hostname of the
    URL; the headers of other hostnames are not sent. *)
Theorem domain_headers_override {W : World} headers domainSpecificConfig u
    parsed k :
  jsURL u = Some parsed →
  NoDup headers.*1 →
  (∀ c dh, Obj_get (hostname parsed) domainSpecificConfig = Some c →
           d_headers c = Some dh → NoDup dh.*1) →
  ∃ sent,
    requestHeaders headers domainSpecificConfig u = Some sent ∧
    Obj_get k sent =
      match (Obj_get (hostname parsed) domainSpecificConfig ≫= d_headers)
            ≫= Obj_get k with
      | Some v => Some v
      | None => Obj_get k headers
      end.
Proof.
  intros Hu Hh Hd. unfold requestHeaders. rewrite Hu. eexists. split; [done|].
  unfold spread.
  destruct (Obj_get (hostname parsed) domainSpecificConfig) as [c|] eqn:Hc;
    simpl.
  - destruct (d_headers c) as [dh|] eqn:Hdh; simpl.
    + rewrite Obj_get_assign by (by eapply Hd).
      rewrite (Obj_get_assign k headers Hh). simpl.
      by destruct (Obj_get k dh), (Obj_get k headers).
    + rewrite (Obj_get_assign k headers Hh). simpl.
      by destruct (Obj_get k headers).
  - rewrite (Obj_get_assign k headers Hh). simpl.
    by destruct (Obj_get k headers).
Qed.

(** * Examples for the further properties *)

Lemma halted_reachable : reachable (W:=Demo.stopping) Demo.opts Demo.halted.
Proof.
  exists fresh, Demo.seed, Demo.stoppedCrawl.
  split; [repeat split|vm_compute; reflexivity].
Defined.

Lemma skipped_reachable : reachable (W:=Demo.world) Demo.ignoring Demo.skipped.
Proof.
  exists fresh, Demo.seed, Demo.skipping.
  split; [repeat split|vm_compute; reflexivity].
Defined.

Lemma started_reachable :
  reachable (W:=Demo.world) Demo.opts
    (run (W:=Demo.world) Demo.opts Demo.seed fresh).2.
Proof. exists fresh, Demo.seed, []. split; [repeat split|reflexivity]. Defined.

Lemma afterText_crawl : crawl (W:=Demo.world) Demo.opts Demo.seed Demo.afterText.
Proof.
  exists fresh, (take 3 Demo.crawl).
  split; [repeat split|vm_compute; reflexivity].
Defined.

Lemma finished_crawl : crawl (W:=Demo.world) Demo.opts Demo.seed Demo.finished.
Proof.
  exists fresh, Demo.crawl.
  split; [repeat split|vm_compute; reflexivity].
Defined.

Lemma stopped_run_claims_nothing_witness :
  reachable (W:=Demo.stopping) Demo.opts Demo.halted ∧
  isRunning Demo.halted = false.
Proof.
  split; [exact halted_reachable|].
  apply (stopped_run_claims_nothing (W:=Demo.stopping) Demo.opts Demo.halted
           halted_reachable).
  reflexivity.
Defined.

Lemma ignored_url_never_checked_witness :
  reachable (W:=Demo.world) Demo.ignoring Demo.skipped ∧
  shouldIgnore (W:=Demo.world) Demo.ignoring "http://a.test/p" = true ∧
  "http://a.test/p"%string ∉ visited Demo.skipped.
Proof.
  split; [exact skipped_reachable|]. split; [reflexivity|].
  apply (ignored_url_never_checked (W:=Demo.world) Demo.ignoring Demo.skipped
           "http://a.test/p" skipped_reachable).
  reflexivity.
Defined.


Lemma fetches_and_delays_bounded_witness :
  reachable (W:=Demo.world) Demo.opts Demo.finished ∧
  Z.of_nat (requests "http://a.test/p" (log Demo.finished))
  ≤ Z.max 0 (retries Demo.opts).
Proof.
  split; [exact finished_reachable|].
  apply (fetches_and_delays_bounded (W:=Demo.world) Demo.opts Demo.finished
           finished_reachable).
Defined.

Lemma broken_links_reported_once_witness :
  reachable (W:=Demo.world) Demo.opts Demo.finished ∧
  NoDup (bl_url <$> brokenLinks Demo.finished).
Proof.
  split; [exact finished_reachable|].
  apply (broken_links_reported_once (W:=Demo.world) Demo.opts Demo.finished
           finished_reachable).
Defined.

Lemma active_checks_bounded_witness :
  reachable (W:=Demo.world) Demo.opts Demo.afterText ∧
  Z.of_nat (length (activePromises Demo.afterText))
  ≤ Z.max 0 (concurrency Demo.opts).
Proof.
  split; [exact afterText_reachable|].
  apply (active_checks_bounded (W:=Demo.world) Demo.opts Demo.afterText
           afterText_reachable).
Defined.


Lemma run_never_stalls_witness :
  reachable (W:=Demo.world) Demo.opts Demo.afterText ∧
  0 < concurrency Demo.opts ∧ main Demo.afterText ≠ MSpin.
Proof.
  split; [exact afterText_reachable|].
  assert (H : 0 < concurrency Demo.opts) by (simpl; lia).
  split; [exact H|].
  apply (run_never_stalls (W:=Demo.world) Demo.opts Demo.afterText
           afterText_reachable H).
Defined.

Lemma crawl_stays_on_seed_origin_witness :
  crawl (W:=Demo.world) Demo.opts Demo.seed Demo.finished ∧
  tasks Demo.finished !! 1%nat
  = Some {| t_item := {| url := "http://a.test/p";
                         parentUrl := Some "http://a.test/"%string;
                         isRecursive := true |};
            t_pc := Done |} ∧
  ("http://a.test/p"%string = Demo.seed ∨
   same_origin (W:=Demo.world) "http://a.test/p" Demo.seed = true).
Proof.
  split; [exact finished_crawl|]. split; [reflexivity|].
  apply (crawl_stays_on_seed_origin (W:=Demo.world) Demo.opts Demo.seed
           Demo.finished 1%nat _ finished_crawl eq_refl).
  reflexivity.
Defined.

Lemma visited_urls_come_from_pages_witness :
  crawl (W:=Demo.world) Demo.opts Demo.seed Demo.finished ∧
  "http://a.test/p"%string ∈ visited Demo.finished ∧
  ("http://a.test/p"%string = Demo.seed ∨
   (String.prefix "http" "http://a.test/p" = true ∧
    is_Some (jsURL (World:=Demo.world) "http://a.test/p") ∧
    ∃ pid t p, tasks Demo.finished !! pid = Some t ∧
               url (t_item t) = "http://a.test/p"%string ∧
               parentUrl (t_item t) = Some p ∧ p ∈ visited Demo.finished)).
Proof.
  split; [exact finished_crawl|].
  assert (H : "http://a.test/p"%string ∈ visited Demo.finished)
    by (vm_compute; right; left).
  split; [exact H|].
  apply (visited_urls_come_from_pages (W:=Demo.world) Demo.opts Demo.seed
           Demo.finished "http://a.test/p" finished_crawl H).
Defined.

Lemma fetch_recovers_after_failures_witness :
  reachable (W:=Demo.world) Demo.opts
    (run (W:=Demo.world) Demo.opts Demo.seed fresh).2 ∧
  0 + Z.of_nat 1 < retries Demo.opts ∧
  ∃ st',
    exec (W:=Demo.world) Demo.opts
      (run (W:=Demo.world) Demo.opts Demo.seed fresh).2
      (failures 0 Demo.failure 0 1
       ++ [OnTask 0 (AFetch (Fulfilled (Demo.page Demo.twice)))]) = Some st' ∧
    Z.of_nat (fetches 0 (log st')) = 2 ∧
    Z.of_nat (delays 0 (log st')) = 1 ∧
    brokenLinks st' = [].
Proof.
  split; [exact started_reachable|].
  assert (H : 0 + Z.of_nat 1 < retries Demo.opts) by (simpl; lia).
  split; [exact H|].
  destruct (fetch_recovers_after_failures (W:=Demo.world) Demo.opts _ 0%nat
              Demo.seedItem 0 None Demo.failure 1 (Demo.page Demo.twice)
              started_reachable eq_refl H) as (st' & He & _ & Hf & Hd & Hb).
  exists st'. auto.
Defined.

Lemma checked_but_not_crawled_witness :
  200 ≤ status Demo.found < 300 ∧
  (isRecursive Demo.external = false ∨
   includes "text/html" (default ""%string (content_type Demo.found)) = false) ∧
  ∃ st',
    checkSingleUrl_resume (W:=Demo.world) Demo.external (Fulfilled Demo.found)
      Demo.afterText = (st', Returned) ∧
    brokenLinks st' = brokenLinks Demo.afterText ∧
    enqs (log st') = enqs (log Demo.afterText).
Proof.
  assert (H1 : 200 ≤ status Demo.found < 300) by (simpl; lia).
  assert (H2 : isRecursive Demo.external = false ∨
               includes "text/html"
                 (default ""%string (content_type Demo.found)) = false)
    by (left; reflexivity).
  split; [exact H1|]. split; [exact H2|].
  destruct (checked_but_not_crawled (W:=Demo.world) Demo.external Demo.found
              Demo.afterText H1 H2) as (st' & He & Hb & Hq & _).
  exists st'. auto.
Defined.


Lemma nonpositive_concurrency_hangs_witness :
  idle fresh ∧ concurrency Demo.idling ≤ 0 ∧
  calls_stop (World:=Demo.world) (EvStart Demo.seed) = false ∧
  main (run (W:=Demo.world) Demo.idling Demo.seed fresh).2 = MSpin.
Proof.
  assert (H0 : idle fresh) by (repeat split).
  assert (H1 : concurrency Demo.idling ≤ 0) by (simpl; lia).
  split; [exact H0|]. split; [exact H1|]. split; [reflexivity|].
  apply (nonpositive_concurrency_hangs (W:=Demo.world) Demo.idling Demo.seed
           fresh H0 H1 eq_refl).
Defined.

Lemma domain_headers_override_witness :
  jsURL (World:=Demo.world) Demo.seed
  = Some {| href := "http://a.test/"; protocol := "http:";
            origin := "http://a.test"; hostname := "a.test" |} ∧
  NoDup Demo.globalHeaders.*1 ∧
  ∃ sent,
    requestHeaders (W:=Demo.world) Demo.globalHeaders Demo.perDomain Demo.seed
    = Some sent ∧
    Obj_get "user-agent" sent = Some "internal"%string.
Proof.
  assert (Hh : NoDup Demo.globalHeaders.*1) by compute_done.
  split; [reflexivity|]. split; [exact Hh|].
  destruct (domain_headers_override (W:=Demo.world) Demo.globalHeaders
              Demo.perDomain Demo.seed _ "user-agent" eq_refl Hh)
    as (sent & Hs & Hg).
  - intros c dh [= <-] [= <-]. compute_done.
  - exists sent. split; [exact Hs|exact Hg].
Defined.

Lemma retried_reachable : reachable (W:=Demo.world) Demo.opts Demo.retried.
Proof.
  exists fresh, Demo.seed, (failures 0 Demo.failure 0 1).
  split; [repeat split|vm_compute; reflexivity].
Defined.


Lemma progress_counts_consistent_witness :
  reachable (W:=Demo.world) Demo.opts Demo.finished ∧
  ObsEmit (EvProgress 2 1) 1 ∈ log Demo.finished ∧
  (1 ≤ 2 ∧ 2 ≤ length (visited Demo.finished)
   ∧ 1 ≤ length (brokenLinks Demo.finished))%nat.
Proof.
  split; [exact finished_reachable|].
  assert (H : ObsEmit (EvProgress 2 1) 1 ∈ log Demo.finished)
    by (vm_compute; right; left).
  split; [exact H|].
  apply (progress_counts_consistent (W:=Demo.world) Demo.opts Demo.finished
           2%nat 1%nat 1%nat finished_reachable H).
Defined.

Lemma notifications_name_checks_witness :
  reachable (W:=Demo.world) Demo.opts Demo.retried ∧
  ObsEmit (EvRetry Demo.seed 1 "connect ECONNREFUSED" None) 1
    ∈ log Demo.retried ∧
  Demo.seed ∈ visited Demo.retried.
Proof.
  split; [exact retried_reachable|].
  assert (H : ObsEmit (EvRetry Demo.seed 1 "connect ECONNREFUSED" None) 1
              ∈ log Demo.retried)
    by (vm_compute; do 2 right; left).
  split; [exact H|].
  destruct (notifications_name_checks (W:=Demo.world) Demo.opts Demo.retried
              retried_reachable) as [_ Hretry].
  apply (Hretry _ _ _ _ _ H).
Defined.

Lemma halted_crawl : crawl (W:=Demo.stopping) Demo.opts Demo.seed Demo.halted.
Proof.
  exists fresh, Demo.stoppedCrawl.
  split; [repeat split|vm_compute; reflexivity].
Defined.

Lemma lifecycle_notifications_once_witness :
  crawl (W:=Demo.stopping) Demo.opts Demo.seed Demo.halted ∧
  (stops (log Demo.halted) ≤ 1)%nat ∧ (completions (log Demo.halted) ≤ 1)%nat.
Proof.
  split; [exact halted_crawl|].
  apply (lifecycle_notifications_once (W:=Demo.stopping) Demo.opts Demo.seed
           Demo.halted halted_crawl).
Defined.

(** * The concurrency bound and the broken links on a restarted instance *)




